(** * gulp-typescript: the incremental build project

    A shallow embedding of [lib/project.ts] (class [Project]) and of the
    part of [lib/main.ts] that drives it ([CompileStream.compile]), with the
    properties of the build cache, the reference resolver, the output
    reconciler and the sorted emitter proved about it.

    Conventions.
    - A JavaScript string is a list of characters ([str]), one character
      a code unit below 256 (the Basic Latin and Latin-1 blocks); indices
      and the [length] are integers ([Z]), clamped the way the String
      methods do.
    - A plain object used as a dictionary ([Map<T>]) is an association
      list in insertion order ([JsMap]), because [for ... in] and
      [Object.keys] enumerate string keys in that order.  (A key that is
      an array index, such as the relative path [0], is enumerated before
      the others; the association list keeps it where it was inserted.)
    - The TypeScript engine, [JSON.parse], the source-map library,
      [path.dirname] and [filter.ts] are outside the two modelled files:
      they are the fields of the class [Engine] and every theorem holds
      for all of them.
    - [path.normalize] and [path.join] are Node's POSIX implementations. *)

From Stdlib Require Import Ascii String.
From Stdlib Require Import List ZArith Lia Bool Arith.
Import ListNotations.

Set Implicit Arguments.

(* ================================================================== *)
(** ** JavaScript strings *)
(* ================================================================== *)

Module Js.

Definition str := list ascii.

(** A string literal of Basic Latin characters; a character of Latin-1 is
    written by its code, as in ["201"%char]. *)
Definition lit (s : string) : str := list_ascii_of_string s.

Definition len (s : str) : Z := Z.of_nat (length s).

Fixpoint eqb (a b : str) : bool :=
  match a, b with
  | [], [] => true
  | x :: a', y :: b' => Ascii.eqb x y && eqb a' b'
  | _, _ => false
  end.

(** [min(max(x, lo), hi)], the clamping of an index argument. *)
Definition clamp (x lo hi : Z) : Z := Z.min (Z.max x lo) hi.

(** [s.substring(a, b)]: both ends clamped to [0 .. length], swapped when
    [a > b]. *)
Definition substring (s : str) (a b : Z) : str :=
  let a' := clamp a 0 (len s) in
  let b' := clamp b 0 (len s) in
  let lo := Z.min a' b' in
  let hi := Z.max a' b' in
  firstn (Z.to_nat (hi - lo)) (skipn (Z.to_nat lo) s).

(** [s.substr(start, length)]; [None] is an omitted [length]. *)
Definition substr (s : str) (start : Z) (length : option Z) : str :=
  let size := len s in
  let st := if (start <? 0)%Z then Z.max (size + start) 0 else Z.min start size in
  let l := match length with
           | None => size
           | Some l => l
           end in
  let n := Z.min (Z.max l 0) (size - st) in
  if (n <=? 0)%Z then [] else firstn (Z.to_nat n) (skipn (Z.to_nat st) s).

(** The scan behind [lastIndexOf] for a one-character search string: the
    greatest index [k <= start] holding [c], or [acc]. *)
Fixpoint lastIndexOf_scan (c : ascii) (s : str) (i start acc : Z) : Z :=
  match s with
  | [] => acc
  | x :: t =>
      lastIndexOf_scan c t (i + 1) start
        (if Ascii.eqb x c && (i <=? start)%Z then i else acc)
  end.

(** [s.lastIndexOf(c, position)] for a one-character [c]; an omitted
    [position] is [+Infinity].  The position is clamped to [0 .. length]. *)
Definition lastIndexOf (s : str) (c : ascii) (position : option Z) : Z :=
  let start := match position with
               | None => len s
               | Some p => clamp p 0 (len s)
               end in
  lastIndexOf_scan c s 0 start (-1).

(** The code units below 256 that have a lower-case form: [A] to [Z]
    (65 to 90) and the capital letters of Latin-1 (192 to 222, but for the
    multiplication sign, 215).  The lower-case form is 32 further. *)
Definition is_upper (n : nat) : bool :=
  ((65 <=? n)%nat && (n <=? 90)%nat) ||
  ((192 <=? n)%nat && (n <=? 222)%nat && negb (n =? 215)%nat).

Definition lower_char (c : ascii) : ascii :=
  let n := nat_of_ascii c in
  if is_upper n then ascii_of_nat (n + 32) else c.

(** [s.toLowerCase()]: on these code units the case conversion of Unicode
    maps one character to one character and looks at no neighbour. *)
Definition toLowerCase (s : str) : str := map lower_char s.

Definition newline : ascii := "010"%char.
Definition slash : ascii := "/"%char.
Definition dot : ascii := "."%char.

(** The characters the regular-expression atom [.] refuses. *)
Definition is_line_terminator (c : ascii) : bool :=
  Ascii.eqb c "010"%char || Ascii.eqb c "013"%char.

End Js.

Import Js.

(* ================================================================== *)
(** ** Node's [path] module (POSIX) *)
(* ================================================================== *)

Module Path.

(** [s.split(sep)] for a one-character separator. *)
Fixpoint split (sep : ascii) (s : str) : list str :=
  match s with
  | [] => [[]]
  | c :: t =>
      if Ascii.eqb c sep then [] :: split sep t
      else match split sep t with
           | [] => [[c]]
           | h :: r => (c :: h) :: r
           end
  end.

(** [parts.join(sep)]. *)
Fixpoint join (sep : str) (parts : list str) : str :=
  match parts with
  | [] => []
  | [p] => p
  | p :: rest => p ++ sep ++ join sep rest
  end.

Definition nonEmpty (s : str) : bool :=
  match s with
  | [] => false
  | _ => true
  end.

(** The loop of [normalizeArray], which walks [parts] from the last
    element to the first: the kept parts and the final [up]. *)
Fixpoint normalizeArray_scan (parts : list str) : list str * nat :=
  match parts with
  | [] => ([], O)
  | p :: rest =>
      let '(kept, up) := normalizeArray_scan rest in
      if eqb p (lit ".") then (kept, up)
      else if eqb p (lit "..") then (kept, S up)
      else match up with
           | O => (p :: kept, O)
           | S up' => (kept, up')
           end
  end.

Definition normalizeArray (parts : list str) (allowAboveRoot : bool)
  : list str :=
  let '(kept, up) := normalizeArray_scan parts in
  if allowAboveRoot then repeat (lit "..") up ++ kept else kept.

Definition isAbsolute (p : str) : bool :=
  match p with
  | c :: _ => Ascii.eqb c slash
  | [] => false
  end.

Definition trailingSlash (p : str) : bool := eqb (substr p (-1) None) (lit "/").

(** [path.normalize(p)]. *)
Definition normalize (p : str) : str :=
  let isAbs := isAbsolute p in
  let trailing := trailingSlash p in
  let segments := filter nonEmpty (split slash p) in
  let path := join (lit "/") (normalizeArray segments (negb isAbs)) in
  let path := if negb (nonEmpty path) && negb isAbs then lit "." else path in
  let path := if nonEmpty path && trailing then path ++ lit "/" else path in
  (if isAbs then lit "/" else []) ++ path.

(** [path.join(a, b)]: the non-empty arguments joined by [/], normalized. *)
Definition join2 (a b : str) : str :=
  normalize (join (lit "/") (filter nonEmpty [a; b])).

End Path.

(* ================================================================== *)
(** ** The pure helpers of [Project] *)
(* ================================================================== *)

(** [Project.normalizePath]. *)
Definition normalizePath (pathString : str) : str :=
  toLowerCase (Path.normalize pathString).

(** One alternative of [/(\.d\.ts|\.js|\.js.map)$/] matching the whole of
    [t]. *)
Definition extension_matches (t : str) : bool :=
  eqb t (lit ".d.ts") || eqb t (lit ".js") ||
  match t with
  | [c1; c2; c3; c; c5; c6; c7] =>
      eqb [c1; c2; c3] (lit ".js") && negb (is_line_terminator c) &&
      eqb [c5; c6; c7] (lit "map")
  | _ => false
  end.

(** [Project.getOriginalName]: [replace] rewrites the leftmost match, that
    is, the first position from which an alternative reaches the end. *)
Fixpoint getOriginalName (filename : str) : str :=
  if extension_matches filename then lit ".ts"
  else match filename with
       | [] => []
       | c :: t => c :: getOriginalName t
       end.

(** [Project.removeSourceMapComment]. *)
Definition removeSourceMapComment (content : str) : str :=
  let index := lastIndexOf content newline (Some (len content - 2)%Z) in
  substring content 0 index ++ lit (String newline EmptyString).

(* ================================================================== *)
(** ** Plain objects used as dictionaries *)
(* ================================================================== *)

(** [Map<T>]: string keys in insertion order; an assignment to a key that
    is present replaces the value where it stands.  Keys are file paths;
    the inherited members of [Object.prototype] are not paths of files. *)
Module JsMap.
Section Dict.
Variable V : Type.

Definition t := list (str * V).

Definition empty : t := [].

(** [m[k]] *)
Fixpoint get (k : str) (m : t) : option V :=
  match m with
  | [] => None
  | (k', v) :: r => if eqb k' k then Some v else get k r
  end.

(** [m[k] = v] *)
Fixpoint set (k : str) (v : V) (m : t) : t :=
  match m with
  | [] => [(k, v)]
  | (k', v') :: r =>
      if eqb k' k then (k', v) :: r else (k', v') :: set k v r
  end.

(** [Object.keys(m)] *)
Definition keys (m : t) : list str := map fst m.

(** [m.hasOwnProperty(k)] *)
Definition hasOwnProperty (k : str) (m : t) : bool :=
  match get k m with
  | Some _ => true
  | None => false
  end.
End Dict.
End JsMap.

(* ================================================================== *)
(** ** Control: state, exceptions and bounded recursion *)
(* ================================================================== *)

(** A computation over a mutable state [S] returns, throws (a
    [TypeError] on [undefined.x]) or, for the one recursive closure of the
    source, exhausts the recursion bound it was given.  The state reached
    is kept in every case: what was pushed before a throw stays pushed. *)
Inductive outcome (A : Type) : Type :=
| Ret (a : A)
| Throw
| OutOfFuel.

Arguments Throw {A}.
Arguments OutOfFuel {A}.

Definition M (S A : Type) : Type := S -> outcome A * S.

Definition ret {S A} (a : A) : M S A := fun s => (Ret a, s).

Definition bind {S A B} (m : M S A) (k : A -> M S B) : M S B :=
  fun s =>
    match m s with
    | (Ret a, s') => k a s'
    | (Throw, s') => (Throw, s')
    | (OutOfFuel, s') => (OutOfFuel, s')
    end.

Definition throw {S A} : M S A := fun s => (Throw, s).
Definition outOfFuel {S A} : M S A := fun s => (OutOfFuel, s).
Definition gets {S A} (f : S -> A) : M S A := fun s => (Ret (f s), s).
Definition modify {S} (f : S -> S) : M S unit := fun s => (Ret tt, f s).

(** [o.x] where [o] may be [undefined]. *)
Definition defined {S A} (o : option A) : M S A :=
  match o with
  | Some a => ret a
  | None => throw
  end.

Declare Scope js_scope.
Delimit Scope js_scope with js.
Notation "x <- m ;; k" := (bind m (fun x => k))
  (at level 61, m at next level, right associativity) : js_scope.
Notation "m ;;; k" := (bind m (fun _ => k))
  (at level 61, right associativity) : js_scope.
Open Scope js_scope.

(** [for (i = 0; i < l.length; i++) body(l[i])]; [continue] is an early
    [ret tt] of the body. *)
Fixpoint for_each {S X} (l : list X) (body : X -> M S unit) : M S unit :=
  match l with
  | [] => ret tt
  | x :: r => body x ;;; for_each r body
  end.

(* ================================================================== *)
(** ** The data of a project *)
(* ================================================================== *)

(** The JSON text of a source-map object. *)
Definition SourceMap := str.

(** [gutil.File] (a vinyl file with its buffer contents). *)
Module File.
Record t := mk {
  path : str;
  contents : str;
  cwd : str;
  base : str;
  sourceMap : option SourceMap
}.
End File.

(** [ts.SourceFile], the parsed unit; [referencedFiles] holds the file
    names of the [<reference>] tags as written. *)
Module SourceFile.
Record t := mk {
  fileName : str;
  text : str;
  version : Z;
  referencedFiles : list str
}.
End SourceFile.

Module FileData.
Record t := mk {
  file : option File.t;
  filename : str;
  originalFilename : str;
  content : str;
  ts : SourceFile.t
}.
End FileData.

(** A value of [additionalFiles] and of the host's file table:
    [Project.unresolvedFile], the shared placeholder whose four fields are
    all [undefined], or a file that was read. *)
Inductive Slot : Type :=
| unresolvedFile
| resolvedFile (d : FileData.t).

Module OutputFile.
Record t := mk {
  filename : str;
  content : str;
  sourcemap : option SourceMap
}.
End OutputFile.

(** The two options [Project] itself reads. *)
Record CompilerOptions := {
  out : option str;
  target : option Z
}.

(** [main.FilterSettings]. *)
Record FilterSettings := { referencedFrom : list str }.

(** [ts.Diagnostic], as far as the project looks at it. *)
Record Diagnostic := {
  code : Z;
  messageText : str;
  diagnosticFile : option str
}.

(** What one run of the engine leaves behind: the diagnostics of
    [tsApi.getDiagnosticsAndEmit], the files written to [host.output] and
    [program.getSourceFile]. *)
Record EngineResult := {
  errors : list Diagnostic;
  output : JsMap.t str;
  getSourceFile : str -> option SourceFile.t
}.

(** What [emit] reads of the value of [JSON.parse(map)]: its [file] when
    that is a string and its [sources] when that is an array.  [None] is
    anything else, on which [parsedMap.file.replace] or
    [parsedMap.sources.map] throws a [TypeError]. *)
Record ParsedMap := {
  mapFile : option str;
  mapSources : option (list str)
}.

(** The collaborators outside [project.ts] and [main.ts]. *)
Class Engine := {
  (** [tsApi.createSourceFile(typescript, filename, content, target,
      version + '')] *)
  createSourceFile : str -> str -> option Z -> Z -> SourceFile.t;
  (** [createProgram(rootFilenames, options, host)] followed by
      [getDiagnosticsAndEmit(program)], for a host built from the working
      directory, the file table and the external-resolve switch *)
  runProgram :
    list str -> CompilerOptions -> str -> JsMap.t Slot -> bool -> EngineResult;
  (** [JSON.parse(map)]; [None] is its [SyntaxError] *)
  JSON_parse : str -> option ParsedMap;
  (** [path.relative] and the [source-map] library: the engine's map for
      [originalName] with the maps of the input files applied to it;
      [None] when one of them throws *)
  composeSourceMap : str -> str -> list SourceMap -> option SourceMap;
  (** [new filter.Filter(project, settings).match(filename)], which reads
      the current files *)
  filterMatch : FilterSettings -> JsMap.t FileData.t -> str -> bool;
  (** [path.dirname] *)
  dirname : str -> str
}.

Record Project := {
  filterSettings : option FilterSettings;
  previousFiles : JsMap.t FileData.t;
  currentFiles : JsMap.t FileData.t;
  additionalFiles : JsMap.t Slot;
  firstFile : option FileData.t;
  isFileChanged : bool;
  previousOutputJS : option (list OutputFile.t);
  previousOutputDts : option (list OutputFile.t);
  noExternalResolve : bool;
  sortOutput : bool;
  version : Z;
  options : CompilerOptions
}.

(** [new Project(options, noExternalResolve, sortOutput)] *)
Definition newProject (o : CompilerOptions) (noExternal sort : bool)
  : Project :=
  {| filterSettings := None;
     previousFiles := JsMap.empty _;
     currentFiles := JsMap.empty _;
     additionalFiles := JsMap.empty _;
     firstFile := None;
     isFileChanged := false;
     previousOutputJS := None;
     previousOutputDts := None;
     noExternalResolve := noExternal;
     sortOutput := sort;
     version := 0;
     options := o |}.

(** [Project.reset] *)
Definition reset (p : Project) : Project :=
  {| filterSettings := filterSettings p;
     previousFiles := currentFiles p;
     currentFiles := JsMap.empty _;
     additionalFiles := JsMap.empty _;
     firstFile := None;
     isFileChanged := false;
     previousOutputJS := previousOutputJS p;
     previousOutputDts := previousOutputDts p;
     noExternalResolve := noExternalResolve p;
     sortOutput := sortOutput p;
     version := version p + 1;
     options := options p |}.

Section WithEngine.
Context {E : Engine}.

(** [Project.getFileData] *)
Definition getFileData (p : Project) (filename content : str) : FileData.t :=
  {| FileData.file := None;
     FileData.filename := normalizePath filename;
     FileData.originalFilename := filename;
     FileData.content := content;
     FileData.ts :=
       createSourceFile filename content (target (options p)) (version p) |}.

(** [Project.getFileDataFromGulpFile] *)
Definition getFileDataFromGulpFile (p : Project) (file : File.t)
  : FileData.t :=
  let str := File.contents file in
  let data := getFileData p (File.path file) str in
  {| FileData.file := Some file;
     FileData.filename := FileData.filename data;
     FileData.originalFilename := FileData.originalFilename data;
     FileData.content := FileData.content data;
     FileData.ts := FileData.ts data |}.

(** The [FileData] that [addFile] stores and whether it marked the build
    as changed. *)
Definition addFile_data (p : Project) (file : File.t) : FileData.t * bool :=
  let filename := normalizePath (File.path file) in
  match JsMap.get filename (previousFiles p) with
  | Some oldFileData =>
      if eqb (FileData.content oldFileData) (File.contents file) then
        ({| FileData.file := Some file;
            FileData.filename := FileData.filename oldFileData;
            FileData.originalFilename := File.path file;
            FileData.content := FileData.content oldFileData;
            FileData.ts := FileData.ts oldFileData |}, false)
      else (getFileDataFromGulpFile p file, true)
  | None => (getFileDataFromGulpFile p file, true)
  end.

(** [Project.addFile] *)
Definition addFile (p : Project) (file : File.t) : Project :=
  let '(fileData, changed) := addFile_data p file in
  {| filterSettings := filterSettings p;
     previousFiles := previousFiles p;
     currentFiles :=
       JsMap.set (normalizePath (File.path file)) fileData (currentFiles p);
     additionalFiles := additionalFiles p;
     firstFile := match firstFile p with
                  | Some f => Some f
                  | None => Some fileData
                  end;
     isFileChanged := if changed then true else isFileChanged p;
     previousOutputJS := previousOutputJS p;
     previousOutputDts := previousOutputDts p;
     noExternalResolve := noExternalResolve p;
     sortOutput := sortOutput p;
     version := version p;
     options := options p |}.

(** One build generation up to the end of the input: [reset] (called by
    the plugin entry point when the stream is created), then [addFile] on
    every buffer file written to the stream. *)
Definition ingest (p : Project) (files : list File.t) : Project :=
  fold_left addFile files (reset p).

(* ------------------------------------------------------------------ *)
(** *** The streams and the replay of the previous build *)
(* ------------------------------------------------------------------ *)

(** The project together with what a build does to the outside: the two
    readable streams, the errors handed to [errorCallback] and the number
    of times the engine was run. *)
Record Run := {
  proj : Project;
  jsStream : list File.t;
  declStream : list File.t;
  ended : bool;
  reported : list Diagnostic;
  engineRuns : nat
}.

Definition startRun (p : Project) : Run :=
  {| proj := p; jsStream := []; declStream := []; ended := false;
     reported := []; engineRuns := 0 |}.

Definition pushJs (f : File.t) (r : Run) : Run :=
  {| proj := proj r; jsStream := jsStream r ++ [f];
     declStream := declStream r; ended := ended r;
     reported := reported r; engineRuns := engineRuns r |}.

Definition pushDecl (f : File.t) (r : Run) : Run :=
  {| proj := proj r; jsStream := jsStream r;
     declStream := declStream r ++ [f]; ended := ended r;
     reported := reported r; engineRuns := engineRuns r |}.

(** [this.js.push(null); this.dts.push(null)] *)
Definition endStreams (r : Run) : Run :=
  {| proj := proj r; jsStream := jsStream r; declStream := declStream r;
     ended := true; reported := reported r; engineRuns := engineRuns r |}.

Definition withProject (f : Project -> Project) (r : Run) : Run :=
  {| proj := f (proj r); jsStream := jsStream r;
     declStream := declStream r; ended := ended r;
     reported := reported r; engineRuns := engineRuns r |}.

(** The test that opens [lazyCompile]. *)
Definition canReplay (p : Project) : bool :=
  negb (isFileChanged p)
  && (length (JsMap.keys (currentFiles p))
      =? length (JsMap.keys (previousFiles p)))%nat
  && match previousOutputJS p with Some _ => true | None => false end
  && match previousOutputDts p with Some _ => true | None => false end.

(** The body of either loop of [lazyCompile] for one cached record. *)
Definition replayOne (p : Project) (ext : str)
    (push : File.t -> Run -> Run) (withMap : bool) (file : OutputFile.t)
  : M Run unit :=
  let originalName :=
    getOriginalName (normalizePath (OutputFile.filename file)) in
  match JsMap.get originalName (currentFiles p) with
  | None => ret tt
  | Some original =>
      let name := FileData.originalFilename original in
      let path := substr name 0 (Some (len name - 3)%Z) ++ ext in
      f <- defined (FileData.file original) ;;
      modify (push {| File.path := path;
                      File.contents := OutputFile.content file;
                      File.cwd := File.cwd f;
                      File.base := File.base f;
                      File.sourceMap :=
                        if withMap then OutputFile.sourcemap file
                        else None |})
  end.

(** [Project.lazyCompile] *)
Definition lazyCompile : M Run bool :=
  p <- gets proj ;;
  if canReplay p then
    for_each (match previousOutputJS p with Some l => l | None => [] end)
             (replayOne p (lit ".js") pushJs true) ;;;
    for_each (match previousOutputDts p with Some l => l | None => [] end)
             (replayOne p (lit ".d.ts") pushDecl false) ;;;
    ret true
  else ret false.

(* ------------------------------------------------------------------ *)
(** *** Compilation *)
(* ------------------------------------------------------------------ *)

Definition setPreviousOutput (js dts : option (list OutputFile.t))
    (p : Project) : Project :=
  {| filterSettings := filterSettings p;
     previousFiles := previousFiles p;
     currentFiles := currentFiles p;
     additionalFiles := additionalFiles p;
     firstFile := firstFile p;
     isFileChanged := isFileChanged p;
     previousOutputJS := js;
     previousOutputDts := dts;
     noExternalResolve := noExternalResolve p;
     sortOutput := sortOutput p;
     version := version p;
     options := options p |}.

(** The variables of [compile] that its loops and closures update. *)
Record Compiling := {
  run : Run;
  outputJS : list File.t;
  sourcemaps : JsMap.t str;
  done : list str
}.

Definition onRun (f : Run -> Run) (c : Compiling) : Compiling :=
  {| run := f (run c); outputJS := outputJS c;
     sourcemaps := sourcemaps c; done := done c |}.

Definition pushOutputJS (f : File.t) (c : Compiling) : Compiling :=
  {| run := run c; outputJS := outputJS c ++ [f];
     sourcemaps := sourcemaps c; done := done c |}.

Definition setSourcemap (k data : str) (c : Compiling) : Compiling :=
  {| run := run c; outputJS := outputJS c;
     sourcemaps := JsMap.set k data (sourcemaps c); done := done c |}.

Definition markDone (k : str) (c : Compiling) : Compiling :=
  {| run := run c; outputJS := outputJS c;
     sourcemaps := sourcemaps c; done := k :: done c |}.

(** [a.indexOf(x) !== -1], and [done[x]] for the names marked. *)
Definition includes (x : str) (a : list str) : bool := existsb (eqb x) a.

(** The root file names and the file table handed to the host. *)
Definition compilerInput (p : Project) : list str * JsMap.t Slot :=
  let passes (filename : str) :=
    match filterSettings p with
    | None => true
    | Some settings => filterMatch settings (currentFiles p) filename
    end in
  let roots := filter (fun kv => passes (fst kv)) (currentFiles p) in
  let files :=
    fold_left (fun m kv => JsMap.set (fst kv) (resolvedFile (snd kv)) m)
              roots (JsMap.empty Slot) in
  (map (fun kv => FileData.originalFilename (snd kv)) roots,
   fold_left (fun m kv => JsMap.set (fst kv) (snd kv) m)
             (additionalFiles p) files).

(** [this.currentFiles[0] ? this.currentFiles[0].file.cwd : ''];
    [None] when [file] is [undefined] and the access throws. *)
Definition hostCwd (p : Project) : option str :=
  match JsMap.get (lit "0") (currentFiles p) with
  | Some d => option_map File.cwd (FileData.file d)
  | None => Some []
  end.

(** The run of the engine that [compile] starts on the project [p]. *)
Definition engineResult (p : Project) : option EngineResult :=
  match hostCwd p with
  | Some cwd =>
      let '(rootFilenames, files) := compilerInput p in
      Some (runProgram rootFilenames (options p) cwd files
                       (negb (noExternalResolve p)))
  | None => None
  end.

Definition appendCache (o : OutputFile.t) (l : option (list OutputFile.t))
  : option (list OutputFile.t) :=
  match l with
  | Some l => Some (l ++ [o])
  | None => None
  end.

(** [fullOriginalNameWithoutExtension]: the name up to its last dot. *)
Definition withoutExtension (fullOriginalName : str) : str :=
  let lastDot := lastIndexOf fullOriginalName dot None in
  let lastDot :=
    if (lastDot =? -1)%Z then len fullOriginalName else lastDot in
  substring fullOriginalName 0 lastDot.

(** The source unit an emitted file is attributed to and the full name
    its artifacts are named after: the first file and the [out] path, or
    the current file of that name.  [None] is the [continue] of the
    loop. *)
Definition findOriginal (p : Project) (originalName : str)
  : M Compiling (option (FileData.t * str)) :=
  match out (options p) with
  | Some o =>
      match firstFile p with
      | None => ret None
      | Some original =>
          f <- defined (FileData.file original) ;;
          ret (Some (original, Path.join2 (File.base f) o))
      end
  | None =>
      match JsMap.get originalName (currentFiles p) with
      | None => ret None
      | Some original =>
          ret (Some (original, FileData.originalFilename original))
      end
  end.

(** The second half of the loop body: the emitted file is a script, a
    declaration or a map, by its suffix. *)
Definition classify (p : Project) (filename data originalName : str)
    (original : FileData.t) (fullOriginalName : str) : M Compiling unit :=
  let fullOriginalNameWithoutExtension :=
    withoutExtension fullOriginalName in
  if eqb (substr filename (-3) None) (lit ".js") then
    f <- defined (FileData.file original) ;;
    modify (pushOutputJS
              {| File.path := fullOriginalNameWithoutExtension ++ lit ".js";
                 File.contents := removeSourceMapComment data;
                 File.cwd := File.cwd f;
                 File.base := File.base f;
                 File.sourceMap := None |})
  else if eqb (substr filename (-5) None) (lit ".d.ts") then
    f <- defined (FileData.file original) ;;
    let file :=
      {| File.path := fullOriginalNameWithoutExtension ++ lit ".d.ts";
         File.contents := data;
         File.cwd := File.cwd f;
         File.base := File.base f;
         File.sourceMap := None |} in
    modify (onRun (withProject (fun p =>
      setPreviousOutput
        (previousOutputJS p)
        (appendCache {| OutputFile.filename := File.path file;
                        OutputFile.content := data;
                        OutputFile.sourcemap := None |}
                     (previousOutputDts p)) p))) ;;;
    modify (onRun (pushDecl file))
  else if eqb (substr filename (-4) None) (lit ".map") then
    modify (setSourcemap
              (match out (options p) with
               | Some _ => []
               | None => originalName
               end) data)
  else ret tt.

(** The body of the loop over [this.host.output]. *)
Definition reconcile (entry : str * str) : M Compiling unit :=
  let '(filename, data) := entry in
  p <- gets (fun c => proj (run c)) ;;
  let originalName := getOriginalName (normalizePath filename) in
  o <- findOriginal p originalName ;;
  match o with
  | None => ret tt
  | Some (original, fullOriginalName) =>
      classify p filename data originalName original fullOriginalName
  end.

(** The maps of the input files that [emit] applies, in order. *)
Definition inputSourceMaps (p : Project) (oldFiles : list str)
  : list SourceMap :=
  flat_map (fun k =>
              match JsMap.get k (currentFiles p) with
              | Some oldFile =>
                  match FileData.file oldFile with
                  | Some f => match File.sourceMap f with
                              | Some m => [m]
                              | None => []
                              end
                  | None => []
                  end
              | None => []
              end) oldFiles.

(** The file as [emit] pushes it: the composed map is attached when the
    engine wrote a non-empty map for it.  [None] is a throw of [emit]
    before anything is pushed: the map text is not JSON, the parsed value
    has no [file] string or no [sources] array, or the library refuses
    it. *)
Definition withSourceMap (p : Project) (maps : JsMap.t str)
    (originalName : str) (file : File.t) : option File.t :=
  let key := match out (options p) with
             | Some _ => []
             | None => originalName
             end in
  match JsMap.get key maps with
  | Some (c :: m) =>
      let oldFiles := match out (options p) with
                      | Some _ => JsMap.keys (currentFiles p)
                      | None => [originalName]
                      end in
      match JSON_parse (c :: m) with
      | None => None
      | Some parsedMap =>
          match mapFile parsedMap, mapSources parsedMap with
          | Some _, Some _ =>
              match composeSourceMap (c :: m) originalName
                                     (inputSourceMaps p oldFiles) with
              | Some map =>
                  Some {| File.path := File.path file;
                          File.contents := File.contents file;
                          File.cwd := File.cwd file;
                          File.base := File.base file;
                          File.sourceMap := Some map |}
              | None => None
              end
          | _, _ => None
          end
      end
  | _ => Some file
  end.

(** The closure [emit] of [compile]. *)
Definition emit (originalName : str) (file : File.t) : M Compiling unit :=
  p <- gets (fun c => proj (run c)) ;;
  maps <- gets sourcemaps ;;
  file <- defined (withSourceMap p maps originalName file) ;;
  modify (onRun (withProject (fun p =>
    setPreviousOutput
      (appendCache {| OutputFile.filename := File.path file;
                      OutputFile.content := File.contents file;
                      OutputFile.sourcemap := File.sourceMap file |}
                   (previousOutputJS p))
      (previousOutputDts p) p))) ;;;
  modify (onRun (pushJs file)).

(** The closure [sortedEmit] of [compile].  [fuel] bounds the depth of the
    recursion; [outs] is [outputJS], which no longer changes.  The map
    that [emit] attaches to a file is never read back by the loop, which
    looks at [other.path] only. *)
Fixpoint sortedEmit (fuel : nat) (res : EngineResult) (outs : list File.t)
    (originalName : str) (file : File.t) : M Compiling unit :=
  match fuel with
  | O => outOfFuel
  | S fuel' =>
      let originalName := normalizePath originalName in
      d <- gets done ;;
      if includes originalName d then ret tt
      else
        modify (markDone originalName) ;;;
        tsFile <- defined (getSourceFile res originalName) ;;
        let references := SourceFile.referencedFiles tsFile in
        for_each outs (fun other =>
          let otherName := getOriginalName (File.path other) in
          if includes otherName references
          then sortedEmit fuel' res outs otherName other
          else ret tt) ;;;
        emit originalName file
  end.

(** The recursion bound that [compile] needs: every nested call marks a
    name of [outputJS] that was not marked before. *)
Definition emitFuel (outs : list File.t) : nat := S (length outs).

(** The emission that ends [compile], in either mode. *)
Definition emitAll (res : EngineResult) : M Compiling unit :=
  p <- gets (fun c => proj (run c)) ;;
  outs <- gets outputJS ;;
  if sortOutput p then
    for_each outs (fun file =>
      sortedEmit (emitFuel outs) res outs
                 (getOriginalName (File.path file)) file)
  else
    for_each outs (fun file =>
      emit (normalizePath (getOriginalName (File.path file))) file).

Definition report (errs : list Diagnostic) (r : Run) : Run :=
  {| proj := proj r; jsStream := jsStream r; declStream := declStream r;
     ended := ended r; reported := reported r ++ errs;
     engineRuns := engineRuns r |}.

Definition countEngineRun (r : Run) : Run :=
  {| proj := proj r; jsStream := jsStream r; declStream := declStream r;
     ended := ended r; reported := reported r;
     engineRuns := S (engineRuns r) |}.

(** [Project.compile], on the variables of one call. *)
Definition compileBody : M Compiling unit :=
  p <- gets (fun c => proj (run c)) ;;
  res <- defined (engineResult p) ;;
  modify (onRun countEngineRun) ;;;
  modify (onRun (report (errors res))) ;;;
  modify (onRun (withProject
    (match errors res with
     | [] => setPreviousOutput (Some []) (Some [])
     | _ :: _ => setPreviousOutput None None
     end))) ;;;
  for_each (output res) reconcile ;;;
  emitAll res.

(** [Project.compile]: the outcome and the run it leaves. *)
Definition compile (r : Run) : outcome unit * Run :=
  let '(o, c) :=
    compileBody {| run := r; outputJS := []; sourcemaps := JsMap.empty _;
                   done := [] |} in
  (o, run c).

(* ------------------------------------------------------------------ *)
(** *** The resolver of external references *)
(* ------------------------------------------------------------------ *)

(** A call of [fs.readFile] whose callback has not run yet, with the two
    variables the callback closes over. *)
Record Read := {
  ref : str;
  normalizedRef : str
}.

(** The project during [resolveAll]: the session counter, the reads in
    flight, how often the callback of [resolveAll] was called (it is the
    caller's, so its calls are counted) and every path ever handed to
    [fs.readFile]. *)
Record Resolving := {
  project : Project;
  tasks : Z;
  pending : list Read;
  callbacks : nat;
  reads : list str
}.

Definition setAdditionalFiles (a : JsMap.t Slot) (p : Project) : Project :=
  {| filterSettings := filterSettings p;
     previousFiles := previousFiles p;
     currentFiles := currentFiles p;
     additionalFiles := a;
     firstFile := firstFile p;
     isFileChanged := isFileChanged p;
     previousOutputJS := previousOutputJS p;
     previousOutputDts := previousOutputDts p;
     noExternalResolve := noExternalResolve p;
     sortOutput := sortOutput p;
     version := version p;
     options := options p |}.

(** The [references] of [resolve]: each reference joined to the directory
    of the referencing file. *)
Definition references (file : FileData.t) : list str :=
  map (fun item =>
         Path.join2 (dirname (SourceFile.fileName (FileData.ts file))) item)
      (SourceFile.referencedFiles (FileData.ts file)).

(** The body of the loop of [resolve], up to the call of [fs.readFile]. *)
Definition resolveRef (s : Resolving) (ref : str) : Resolving :=
  let normalizedRef := normalizePath ref in
  if negb (JsMap.hasOwnProperty normalizedRef (currentFiles (project s)))
     && negb (JsMap.hasOwnProperty normalizedRef
                                   (additionalFiles (project s)))
  then
    {| project :=
         setAdditionalFiles
           (JsMap.set normalizedRef unresolvedFile
                      (additionalFiles (project s)))
           (project s);
       tasks := tasks s + 1;
       pending := pending s ++ [{| ref := ref;
                                   normalizedRef := normalizedRef |}];
       callbacks := callbacks s;
       reads := reads s ++ [ref] |}
  else s.

(** [Project.resolve] *)
Definition resolve (s : Resolving) (file : FileData.t) : Resolving :=
  fold_left resolveRef (references file) s.

(** [session.callback()] *)
Definition callBack (s : Resolving) : Resolving :=
  {| project := project s; tasks := tasks s; pending := pending s;
     callbacks := S (callbacks s); reads := reads s |}.

(** The callback that [resolve] hands to [fs.readFile], run with the
    data read or with [None] for an error. *)
Definition onRead (rd : Read) (data : option str) (s : Resolving)
  : Resolving :=
  let s1 :=
    match data with
    | Some d =>
        let file := getFileData (project s) (ref rd) d in
        resolve
          {| project :=
               setAdditionalFiles
                 (JsMap.set (normalizedRef rd) (resolvedFile file)
                            (additionalFiles (project s)))
                 (project s);
             tasks := tasks s; pending := pending s;
             callbacks := callbacks s; reads := reads s |}
          file
    | None => s
    end in
  let s2 := {| project := project s1; tasks := tasks s1 - 1;
               pending := pending s1; callbacks := callbacks s1;
               reads := reads s1 |} in
  if (tasks s2 =? 0)%Z then callBack s2 else s2.

(** [Project.resolveAll], up to its return. *)
Definition resolveAll (p : Project) : Resolving :=
  let session := {| project := p; tasks := 0; pending := [];
                    callbacks := O; reads := [] |} in
  if noExternalResolve p then callBack session
  else
    let s := fold_left (fun s kv => resolve s (snd kv))
                       (currentFiles p) session in
    if (tasks s =? 0)%Z then callBack s else s.

(** The file system answers a read with an error or with a content the
    disk holds for that path. *)
Definition delivers (disk : list (str * str)) (path : str)
    (data : option str) : Prop :=
  match data with
  | None => True
  | Some d => In (path, d) disk
  end.

(** One turn of the event loop: some read in flight completes. *)
Inductive step (disk : list (str * str)) : Resolving -> Resolving -> Prop :=
| read_completes : forall s before rd after data,
    pending s = before ++ rd :: after ->
    delivers disk (ref rd) data ->
    step disk s
         (onRead rd data
                 {| project := project s; tasks := tasks s;
                    pending := before ++ after;
                    callbacks := callbacks s; reads := reads s |}).

(** [n] turns of the event loop. *)
Inductive steps (disk : list (str * str))
  : nat -> Resolving -> Resolving -> Prop :=
| steps_none : forall s, steps disk O s s
| steps_more : forall n s1 s2 s3,
    steps disk n s1 s2 -> step disk s2 s3 -> steps disk (S n) s1 s3.

(** The first content the disk has for a path. *)
Fixpoint lookupDisk (disk : list (str * str)) (path : str) : option str :=
  match disk with
  | [] => None
  | (k, d) :: rest => if eqb k path then Some d else lookupDisk rest path
  end.

(** The event loop with the reads answered in the order they were
    issued. *)
Fixpoint drain (fuel : nat) (disk : list (str * str)) (s : Resolving)
  : Resolving :=
  match fuel, pending s with
  | S fuel', rd :: after =>
      drain fuel' disk
            (onRead rd (lookupDisk disk (ref rd))
                    {| project := project s; tasks := tasks s;
                       pending := after;
                       callbacks := callbacks s; reads := reads s |})
  | _, _ => s
  end.

(** Every path a run of the resolver can ask for: the references of the
    current files and of the files on the disk. *)
Definition candidates (disk : list (str * str)) (p : Project) : list str :=
  flat_map (fun kv => references (snd kv)) (currentFiles p)
  ++ flat_map (fun kd => references (getFileData p (fst kd) (snd kd))) disk.

(* ------------------------------------------------------------------ *)
(** *** [CompileStream.compile] *)
(* ------------------------------------------------------------------ *)

(** Where [CompileStream.compile] leaves the build when it returns: done,
    or inside [resolveAll], whose callback will compile. *)
Inductive Next : Type :=
| Finished (o : outcome unit) (r : Run)
| Resolve (r : Run).

Definition streamCompile (hasSources : bool) (r : Run) : Next :=
  if negb hasSources then Finished (Ret tt) (endStreams r)
  else
    match lazyCompile r with
    | (Ret true, r') => Finished (Ret tt) (endStreams r')
    | (Ret false, r') => Resolve r'
    | (Throw, r') => Finished Throw r'
    | (OutOfFuel, r') => Finished OutOfFuel r'
    end.

(** The callback [CompileStream.compile] gives to [resolveAll]. *)
Definition compileAndEnd (r : Run) : outcome unit * Run :=
  match compile r with
  | (Ret tt, r') => (Ret tt, endStreams r')
  | other => other
  end.

End WithEngine.

(* ================================================================== *)
(** ** The stream of the plugin ([main.ts]) *)
(* ================================================================== *)

(** What [_write] and [end] are handed: nothing, or a vinyl file that is
    null, a stream or a buffer. *)
Inductive Chunk : Type :=
| noFile
| nullFile
| streamFile
| bufferFile (file : File.t).

(** [CompileStream]: the project with its two readable streams, and
    whether a buffer file was written. *)
Record CompileStream := {
  building : Run;
  _hasSources : bool
}.

Definition setFilterSettings (filters : option FilterSettings) (p : Project)
  : Project :=
  {| filterSettings := filters;
     previousFiles := previousFiles p;
     currentFiles := currentFiles p;
     additionalFiles := additionalFiles p;
     firstFile := firstFile p;
     isFileChanged := isFileChanged p;
     previousOutputJS := previousOutputJS p;
     previousOutputDts := previousOutputDts p;
     noExternalResolve := noExternalResolve p;
     sortOutput := sortOutput p;
     version := version p;
     options := options p |}.

Section WithEngineStream.
Context {E : Engine}.

(** [new CompileStream(proj, theReporter)] *)
Definition newCompileStream (proj : Project) : CompileStream :=
  {| building := startRun proj; _hasSources := false |}.

(** The function [compile] that the module exports, when it is handed a
    project: [proj.reset(); proj.filterSettings = filters] and a new
    stream. *)
Definition main_compile (proj : Project) (filters : option FilterSettings)
  : CompileStream :=
  newCompileStream (setFilterSettings filters (reset proj)).

(** [CompileStream._write]: what the callback [cb] is called with, the
    message of a [PluginError] or nothing, and the stream. *)
Definition _write (file : Chunk) (s : CompileStream)
  : option str * CompileStream :=
  match file with
  | noFile => (None, s)
  | nullFile => (None, s)
  | streamFile => (Some (lit "Streaming not supported"), s)
  | bufferFile f =>
      (None,
       {| building := withProject (fun p => addFile p f) (building s);
          _hasSources := true |})
  end.

(** [CompileStream.end]: the chunk is written, then [compile] runs,
    whatever [_write] told its callback. *)
Definition end_ (chunk : Chunk) (s : CompileStream) : option str * Next :=
  let '(err, s') := _write chunk s in
  (err, streamCompile (_hasSources s') (building s')).

(** The stream after [_write] has taken the chunks, one after the other:
    what [write] calls make of it for chunks that are files and as long
    as [_write] reports no error (what the stream does with an absent
    chunk, or with later chunks once an error was reported, is Node's
    and not modelled). *)
Definition writes (chunks : list Chunk) (s : CompileStream) : CompileStream :=
  fold_left (fun s chunk => snd (_write chunk s)) chunks s.

(** The buffer files among the chunks. *)
Definition buffers (chunks : list Chunk) : list File.t :=
  flat_map (fun chunk => match chunk with
                         | bufferFile f => [f]
                         | _ => []
                         end) chunks.

End WithEngineStream.

(* ================================================================== *)
(** ** The compiler options ([getCompilerOptions] of [main.ts]) *)
(* ================================================================== *)

(** The numbers of JavaScript, as far as the options need them: they
    are copied, never computed with, and the members of the enumerations
    [ts.ScriptTarget] and [ts.ModuleKind] are among them. *)
Class TypeScript := {
  number : Type;
  ES3 : number;
  ES5 : number;
  ES6 : number;
  ModuleNone : number;
  CommonJS : number;
  AMD : number
}.

Section CompilerSettings.
Context {T : TypeScript}.

(** A value of a settings object; an object or a function is a
    reference, known by a name. *)
Inductive Value : Type :=
| VUndefined
| VNull
| VBoolean (b : bool)
| VNumber (n : number)
| VString (s : str)
| VObject (reference : str).

(** [o.k] on a plain object with the own properties [o]: the prototype,
    [Object.prototype], has none of the properties that
    [getCompilerOptions] reads by name. *)
Definition prop (o : JsMap.t Value) (k : str) : Value :=
  match JsMap.get k o with
  | Some v => v
  | None => VUndefined
  end.

(** [langMap[k]] for a lower-case [k]: the three own properties, and the
    two lower-case names that every object inherits. *)
Definition langMap (k : str) : Value :=
  if eqb k (lit "es3") then VNumber ES3
  else if eqb k (lit "es5") then VNumber ES5
  else if eqb k (lit "es6") then VNumber ES6
  else if eqb k (lit "constructor") then VObject (lit "Object")
  else if eqb k (lit "__proto__") then VObject (lit "Object.prototype")
  else VUndefined.

(** [moduleMap[k]] for a lower-case [k]. *)
Definition moduleMap (k : str) : Value :=
  if eqb k (lit "commonjs") then VNumber CommonJS
  else if eqb k (lit "amd") then VNumber AMD
  else if eqb k (lit "none") then VNumber ModuleNone
  else if eqb k (lit "constructor") then VObject (lit "Object")
  else if eqb k (lit "__proto__") then VObject (lit "Object.prototype")
  else VUndefined.

(** The keys that the loop of [getCompilerOptions] skips. *)
Definition skipped (key : str) : bool :=
  eqb key (lit "outDir") || eqb key (lit "noExternalResolve") ||
  eqb key (lit "declarationFiles") || eqb key (lit "sortOutput") ||
  eqb key (lit "typescript") || eqb key (lit "target") ||
  eqb key (lit "module") || eqb key (lit "sourceRoot").

(** The loop over the own enumerable properties of [settings].  An own
    property [__proto__] is outside the model ([None]): its assignment
    would reach the setter of [Object.prototype] and change the
    prototype of [tsSettings]. *)
Fixpoint copySettings (settings tsSettings : JsMap.t Value)
  : option (JsMap.t Value) :=
  match settings with
  | [] => Some tsSettings
  | (key, v) :: rest =>
      if eqb key (lit "__proto__") then None
      else if skipped key then copySettings rest tsSettings
      else copySettings rest (JsMap.set key v tsSettings)
  end.

(** The assignments that follow the loop, one statement each. *)
Definition assignTarget (settings tsSettings : JsMap.t Value)
  : JsMap.t Value :=
  match prop settings (lit "target") with
  | VString s => JsMap.set (lit "target") (langMap (toLowerCase s)) tsSettings
  | VNumber n => JsMap.set (lit "target") (VNumber n) tsSettings
  | _ => tsSettings
  end.

Definition assignModule (settings tsSettings : JsMap.t Value)
  : JsMap.t Value :=
  match prop settings (lit "module") with
  | VString s =>
      JsMap.set (lit "module") (moduleMap (toLowerCase s)) tsSettings
  | VNumber n => JsMap.set (lit "module") (VNumber n) tsSettings
  | _ => tsSettings
  end.

Definition defaultTarget (tsSettings : JsMap.t Value) : JsMap.t Value :=
  match prop tsSettings (lit "target") with
  | VUndefined => JsMap.set (lit "target") (VNumber ES3) tsSettings
  | _ => tsSettings
  end.

Definition defaultModule (tsSettings : JsMap.t Value) : JsMap.t Value :=
  match prop tsSettings (lit "module") with
  | VUndefined => JsMap.set (lit "module") (VNumber ModuleNone) tsSettings
  | _ => tsSettings
  end.

Definition assignSourceRoot (cwd : str) (settings tsSettings : JsMap.t Value)
  : JsMap.t Value :=
  match prop settings (lit "sourceRoot") with
  | VUndefined => JsMap.set (lit "sourceRoot") (VString cwd) tsSettings
  | v => JsMap.set (lit "sourceRoot") v tsSettings
  end.

Definition assignDeclaration (settings tsSettings : JsMap.t Value)
  : JsMap.t Value :=
  match prop settings (lit "declarationFiles") with
  | VUndefined => tsSettings
  | v => JsMap.set (lit "declaration") v tsSettings
  end.

(** [getCompilerOptions(settings)], in the working directory [cwd] that
    [process.cwd()] returns. *)
Definition getCompilerOptions (cwd : str) (settings : JsMap.t Value)
  : option (JsMap.t Value) :=
  match copySettings settings (JsMap.empty Value) with
  | None => None
  | Some tsSettings =>
      let tsSettings := assignTarget settings tsSettings in
      let tsSettings := assignModule settings tsSettings in
      let tsSettings := defaultTarget tsSettings in
      let tsSettings := defaultModule tsSettings in
      let tsSettings := assignSourceRoot cwd settings tsSettings in
      let tsSettings := assignDeclaration settings tsSettings in
      Some (JsMap.set (lit "sourceMap") (VBoolean true) tsSettings)
  end.

End CompilerSettings.

(** The members of the enumerations as TypeScript 1.4 numbers them. *)
Definition numbered : TypeScript :=
  {| number := Z; ES3 := 0%Z; ES5 := 1%Z; ES6 := 2%Z;
     ModuleNone := 0%Z; CommonJS := 1%Z; AMD := 2%Z |}.

(** Settings of a gulp file, and the options made of them in the working
    directory [/work]. *)
Definition someSettings : JsMap.t (@Value numbered) :=
  [(lit "target", VString (lit "ES5"));
   (lit "outDir", VString (lit "release"));
   (lit "declaration", VBoolean false);
   (lit "declarationFiles", VBoolean true);
   (lit "noLib", VBoolean true);
   (lit "sourceMap", VBoolean false)].

Definition someOptions : JsMap.t (@Value numbered) :=
  match getCompilerOptions (lit "/work") someSettings with
  | Some tsSettings => tsSettings
  | None => []
  end.

(* ================================================================== *)
(** ** A small engine to run the model on

    Its language: every non-empty line of a file is the path of a file it
    references, and a file whose text contains [!] has an error.  It
    emits, for every root, the text followed by a source-map comment as
    the script, the text as the declaration and a map; with [out], one
    script and one map.  An output is named after the normalized name of
    its root. *)
Module Demo.

Definition contentOf (files : JsMap.t Slot) (root : str) : str :=
  match JsMap.get (normalizePath root) files with
  | Some (resolvedFile d) => FileData.content d
  | _ => []
  end.

Definition comment : str :=
  newline :: lit "//# sourceMappingURL=out.js.map" ++ [newline].

Definition stem (name : str) : str :=
  substr (Path.normalize name) 0 (Some (len (Path.normalize name) - 3)%Z).

Definition quoted (s : string) : str := "034"%char :: lit s ++ ["034"%char].

(** The map the engine writes: a JSON object with a [file], a
    [sourceRoot] and a [sources] array. *)
Definition mapText : str :=
  lit "{" ++ quoted "version" ++ lit ":3," ++
  quoted "file" ++ lit ":" ++ quoted "out.js" ++ lit "," ++
  quoted "sourceRoot" ++ lit ":" ++ quoted EmptyString ++ lit "," ++
  quoted "sources" ++ lit ":[" ++ quoted "in.ts" ++ lit "]," ++
  quoted "names" ++ lit ":[]," ++
  quoted "mappings" ++ lit ":" ++ quoted EmptyString ++ lit "}".

(** [JSON.parse] on the two texts the examples use: the map of the
    engine and the empty object. *)
Definition parse (text : str) : option ParsedMap :=
  if eqb text mapText then
    Some {| mapFile := Some (lit "out.js");
            mapSources := Some [lit "in.ts"] |}
  else if eqb text (lit "{}") then
    Some {| mapFile := None; mapSources := None |}
  else None.

Definition program (roots : list str) (o : CompilerOptions) (cwd : str)
    (files : JsMap.t Slot) (external : bool) : EngineResult :=
  {| errors :=
       flat_map (fun root =>
                   if existsb (Ascii.eqb "!"%char) (contentOf files root)
                   then [{| code := 1; messageText := lit "error";
                            diagnosticFile := Some root |}]
                   else []) roots;
     output :=
       match out o with
       | Some target =>
           [(target, flat_map (contentOf files) roots ++ comment);
            (target ++ lit ".map", mapText)]
       | None =>
           flat_map (fun root =>
                       [(stem root ++ lit ".js",
                         contentOf files root ++ comment);
                        (stem root ++ lit ".d.ts", contentOf files root);
                        (stem root ++ lit ".js.map", mapText)]) roots
       end;
     getSourceFile := fun name =>
       match JsMap.get name files with
       | Some (resolvedFile d) => Some (FileData.ts d)
       | _ => None
       end |}.

#[local] Instance engine : Engine :=
  {| createSourceFile := fun filename content _ v =>
       {| SourceFile.fileName := filename;
          SourceFile.text := content;
          SourceFile.version := v;
          SourceFile.referencedFiles :=
            filter Path.nonEmpty (Path.split newline content) |};
     runProgram := program;
     JSON_parse := parse;
     composeSourceMap := fun map _ _ => Some map;
     filterMatch := fun _ _ _ => true;
     dirname := fun _ => lit "." |}.

(** [path.dirname] on a path without a trailing or a doubled
    separator, and the engine that has it. *)
Definition directory (path : str) : str :=
  let i := lastIndexOf path slash None in
  if (i <? 0)%Z then lit "."
  else if (i =? 0)%Z then lit "/"
  else substring path 0 i.

Definition located : Engine :=
  {| createSourceFile := createSourceFile;
     runProgram := runProgram;
     JSON_parse := JSON_parse;
     composeSourceMap := composeSourceMap;
     filterMatch := filterMatch;
     dirname := directory |}.

(** A buffer file of the input stream. *)
Definition file (path contents : string) : File.t :=
  {| File.path := lit path; File.contents := lit contents;
     File.cwd := lit "/"; File.base := lit "/";
     File.sourceMap := None |}.

(** A whole build on the files of one generation, the reads answered from
    [disk] in the order they were issued: the outcome and the run. *)
Definition build (p : Project) (disk : list (str * str))
    (files : list File.t) : outcome unit * Run :=
  let p1 := ingest p files in
  match streamCompile (negb (match files with [] => true | _ => false end))
                      (startRun p1) with
  | Finished o r => (o, r)
  | Resolve r =>
      let s := drain (length (candidates disk p1)) disk (resolveAll p1) in
      compileAndEnd (withProject (fun _ => project s) r)
  end.

(** The engine result [compile] works with on [p]. *)
Definition resultOf (p : Project) : EngineResult :=
  match engineResult p with
  | Some res => res
  | None => {| errors := []; output := []; getSourceFile := fun _ => None |}
  end.

(** Projects: one output per input, with the resolver off or on, with
    sorted output, and with a concatenated [App.js]. *)
Definition perFile : Project :=
  newProject {| out := None; target := None |} true false.

Definition resolvingProject : Project :=
  newProject {| out := None; target := None |} false false.

Definition sorted : Project :=
  newProject {| out := None; target := None |} true true.

Definition concatenated : Project :=
  newProject {| out := Some (lit "App.js"); target := None |} true false.

(** Generations of input files. *)
Definition twoFiles : list File.t :=
  [file "/src/A.ts" "let a"; file "/src/b.ts" "let b"].

Definition failing : list File.t := [file "/src/a.ts" "let a = !"].

Definition sameNameSameText : list File.t :=
  [file "/src/A.ts" "x"; file "/src/a.ts" "x"].

Definition sameNameOtherText : list File.t :=
  [file "/src/A.ts" "x"; file "/src/a.ts" "y"].

Definition appAndLib : list File.t :=
  [file "/app.ts" "x"; file "/lib.ts" "y"].

(** [/a.ts] and [/b.ts] refer to each other. *)
Definition cycle : list File.t :=
  [file "/a.ts" "/b.ts"; file "/b.ts" "/a.ts"].

(** [/a.ts] refers to [/b.ts]. *)
Definition chain : list File.t :=
  [file "/a.ts" "/b.ts"; file "/b.ts" EmptyString].

(** [/src/a.ts] refers to its neighbour [/src/b.ts] as [b.ts]. *)
Definition neighbours : list File.t :=
  [file "/src/a.ts" "b.ts"; file "/src/b.ts" EmptyString].

(** [/src/a.ts/.] is another way to write [/src/a.ts]. *)
Definition dotted : list File.t := [file "/src/a.ts/." "let a"].

(** The project after a first build of [twoFiles], and the run in which
    its next generation, of the same files, starts. *)
Definition built : Project := proj (snd (build perFile [] twoFiles)).

Definition secondRun : Run := startRun (ingest built twoFiles).

(** The run in which the only generation of [failing] starts. *)
Definition failingRun : Run := startRun (ingest perFile failing).

(** The scripts of a generation as [compile] holds them when the
    emission starts, and the state of [compile] at that point. *)
Definition script (path contents : string) : File.t :=
  {| File.path := lit path; File.contents := lit contents;
     File.cwd := lit "/"; File.base := lit "/";
     File.sourceMap := None |}.

Definition emission (files : list File.t) (outs : list File.t) : Compiling :=
  {| run := startRun (ingest sorted files); outputJS := outs;
     sourcemaps := JsMap.empty str; done := [] |}.

(** The scripts of [neighbours], in the order of the input. *)
Definition neighbourScripts : list File.t :=
  [script "/src/a.js" "a"; script "/src/b.js" "b"].

(** The state of [compile] when the emission of [neighbourScripts]
    starts. *)
Definition neighbourEmission : Compiling :=
  {| run := startRun (ingest sorted neighbours);
     outputJS := neighbourScripts;
     sourcemaps := JsMap.empty str; done := [] |}.

(** The state of [compile] at the start of an emission for which the
    engine has written the map [text] for [/a.ts]. *)
Definition emissionWithMap (text : str) : Compiling :=
  {| run := startRun (ingest sorted chain);
     outputJS := [script "/a.js" "a"];
     sourcemaps := JsMap.set (lit "/a.ts") text (JsMap.empty str);
     done := [] |}.

(** A disk where [b.ts] refers to [c.ts]. *)
Definition disk : list (str * str) :=
  [(lit "b.ts", lit "c.ts"); (lit "c.ts", [])].

(** The first build of [twoFiles], run by [compile] itself. *)
Definition firstBuild : Run :=
  snd (compile (startRun (setAdditionalFiles (JsMap.empty Slot)
                                              (ingest perFile twoFiles)))).

(** The scripts of [chain] and of [cycle], in the order of the input. *)
Definition scripts : list File.t :=
  [script "/a.js" "a"; script "/b.js" "b"].

(** [/a.ts] refers to [b.ts], which is not an input file; the session of
    the resolver when [resolveAll] returns, the read it has issued, and
    the session after that read has completed. *)
Definition referring : list File.t := [file "/a.ts" "b.ts"].

Definition listening : Resolving :=
  resolveAll (ingest resolvingProject referring).

Definition firstRead : Read :=
  {| ref := lit "b.ts"; normalizedRef := lit "b.ts" |}.

Definition afterFirstRead : Resolving :=
  onRead firstRead (Some (lit "c.ts"))
         {| project := project listening; tasks := tasks listening;
            pending := [] ++ [];
            callbacks := callbacks listening; reads := reads listening |}.

(** The build of [appAndLib] into one script. *)
Definition concatenatedBuild : Run :=
  snd (compile (startRun (setAdditionalFiles (JsMap.empty Slot)
                                              (ingest concatenated appAndLib)))).

(** The state of [compile] when the emission of [scripts] starts in a
    project that does not sort. *)
Definition plainEmission : Compiling :=
  {| run := startRun (ingest perFile chain); outputJS := scripts;
     sourcemaps := JsMap.empty str; done := [] |}.

End Demo.

(* ================================================================== *)
(** ** Vocabulary of the statements *)
(* ================================================================== *)

(** [I] holds after the computation whenever it held before, whatever
    the outcome. *)
Definition preserves {S A : Type} (I : S -> Prop) (m : M S A) : Prop :=
  forall s, I s -> I (snd (m s)).

(** Two computations over related states have the same outcome and leave
    related states. *)
Definition sim {S T A : Type} (R : S -> T -> Prop) (m : M S A) (m' : M T A)
  : Prop :=
  forall s t, R s t ->
    fst (m s) = fst (m' t) /\ R (snd (m s)) (snd (m' t)).

(** A segment that [path.normalize] keeps as it is: not empty, without a
    separator, neither [.] nor [..]. *)
Definition clean (seg : str) : Prop :=
  seg <> [] /\ ~ In slash seg /\ seg <> lit "." /\ seg <> lit "..".

(** A part of a normalized path: not empty and without a separator. *)
Definition part (seg : str) : Prop := seg <> [] /\ ~ In slash seg.

(** The shape of every result of [path.normalize]: an optional root, for
    a relative path some leading [..], clean segments, an optional
    trailing separator. *)
Definition render (isAbs : bool) (ups : nat) (kept : list str)
    (trailing : bool) : str :=
  let parts := (if isAbs then [] else repeat (lit "..") ups) ++ kept in
  let path := Path.join (lit "/") parts in
  let path := if negb (Path.nonEmpty path) && negb isAbs then lit "." else path in
  let path := if Path.nonEmpty path && trailing then path ++ lit "/" else path in
  (if isAbs then lit "/" else []) ++ path.

(** The identity of an input file: its normalized path. *)
Definition key (f : File.t) : str := normalizePath (File.path f).

(** What the current files hold about the files ingested. *)
Definition entriesOf (files : list File.t) (m : JsMap.t FileData.t) : Prop :=
  forall k d, JsMap.get k m = Some d ->
    exists f, In f files /\ k = key f /\
              FileData.originalFilename d = File.path f /\
              FileData.content d = File.contents f /\
              FileData.file d = Some f.

(** What an entry of a file table holds of the input file itself. *)
Definition stored (d : FileData.t) : option File.t * str * str :=
  (FileData.file d, FileData.originalFilename d, FileData.content d).

(** Every current file carries the input file it came from. *)
Definition attached (p : Project) : Prop :=
  forall k d, JsMap.get k (currentFiles p) = Some d ->
              FileData.file d <> None.

(** The four conditions under which [lazyCompile] replays. *)
Definition eligible (p : Project) : Prop :=
  isFileChanged p = false /\
  length (JsMap.keys (currentFiles p)) = length (JsMap.keys (previousFiles p)) /\
  previousOutputJS p <> None /\
  previousOutputDts p <> None.

(** The state of the resolver between two turns of the event loop, [n]
    reads after [resolveAll] was called on [p]; [extra] is [1] while the
    callback of a read runs and [0] otherwise. *)
Record resolving (E : Engine) (disk : list (str * str)) (p : Project)
    (extra n : nat) (s : Resolving) : Prop := {
  same_current : currentFiles (project s) = currentFiles p;
  same_options : options (project s) = options p;
  same_version : version (project s) = version p;
  tasks_pending : tasks s = Z.of_nat (length (pending s) + extra);
  reads_count : length (reads s) = n + length (pending s);
  reads_once : NoDup (map normalizePath (reads s));
  reads_marked : forall r, In r (reads s) ->
    In (normalizePath r) (JsMap.keys (additionalFiles (project s)));
  additional_keys :
    JsMap.keys (additionalFiles (project s))
    = JsMap.keys (additionalFiles p) ++ map normalizePath (reads s);
  pending_read : forall rd, In rd (pending s) ->
    normalizedRef rd = normalizePath (ref rd) /\ In (ref rd) (reads s);
  pending_once : NoDup (map normalizedRef (pending s));
  pending_placeholder : forall rd, In rd (pending s) ->
    JsMap.get (normalizedRef rd) (additionalFiles (project s))
    = Some unresolvedFile;
  reads_known : incl (reads s) (candidates disk p)
}.

(** No key belongs to both the current and the additional files. *)
Definition disjointFiles (p : Project) : Prop :=
  forall k, In k (JsMap.keys (currentFiles p)) ->
            In k (JsMap.keys (additionalFiles p)) -> False.

(** The callback was called once if no read is in flight, and not yet
    otherwise. *)
Definition calledBack (s : Resolving) : Prop :=
  callbacks s = match pending s with [] => 1 | _ :: _ => 0 end.

(** Everything of a project that a build reads and [compile] leaves as it
    is: all fields but the two cached output lists. *)
Definition inputs (p : Project) :=
  (filterSettings p, previousFiles p, currentFiles p, additionalFiles p,
   firstFile p, isFileChanged p, noExternalResolve p, sortOutput p,
   version p, options p).

(** The record that [emit] caches for a pushed script, and the one the
    reconciling loop caches for a declaration. *)
Definition cachedJS (g : File.t) : OutputFile.t :=
  {| OutputFile.filename := File.path g;
     OutputFile.content := File.contents g;
     OutputFile.sourcemap := File.sourceMap g |}.

Definition cachedDts (g : File.t) : OutputFile.t :=
  {| OutputFile.filename := File.path g;
     OutputFile.content := File.contents g;
     OutputFile.sourcemap := None |}.

(** The source unit an emitted file name is attributed to, with the full
    name its artifacts are named after. *)
Definition origin (p : Project) (filename : str) (original : FileData.t)
    (full : str) : Prop :=
  match out (options p) with
  | Some o =>
      firstFile p = Some original /\
      exists f, FileData.file original = Some f /\
                full = Path.join2 (File.base f) o
  | None =>
      JsMap.get (getOriginalName (normalizePath filename)) (currentFiles p)
      = Some original /\
      full = FileData.originalFilename original
  end.

(** A primary-script artifact of the engine result [res]. *)
Definition jsArtifact (p : Project) (res : EngineResult) (g : File.t)
  : Prop :=
  exists filename data original full f,
    In (filename, data) (output res) /\
    eqb (substr filename (-3) None) (lit ".js") = true /\
    origin p filename original full /\
    FileData.file original = Some f /\
    g = {| File.path := withoutExtension full ++ lit ".js";
           File.contents := removeSourceMapComment data;
           File.cwd := File.cwd f;
           File.base := File.base f;
           File.sourceMap := None |}.

(** A declaration artifact of the engine result [res]. *)
Definition dtsArtifact (p : Project) (res : EngineResult) (g : File.t)
  : Prop :=
  exists filename data original full f,
    In (filename, data) (output res) /\
    eqb (substr filename (-5) None) (lit ".d.ts") = true /\
    origin p filename original full /\
    FileData.file original = Some f /\
    g = {| File.path := withoutExtension full ++ lit ".d.ts";
           File.contents := data;
           File.cwd := File.cwd f;
           File.base := File.base f;
           File.sourceMap := None |}.

(** [g] is the file [f] as [emit] pushes it: at most the source map was
    attached. *)
Definition sameFile (g f : File.t) : Prop :=
  File.path g = File.path f /\ File.contents g = File.contents f /\
  File.cwd g = File.cwd f /\ File.base g = File.base f.

(** [l.push(x)] on a list that may be [undefined], for every [x] of
    [more]. *)
Definition appendAll (more : list OutputFile.t)
    (l : option (list OutputFile.t)) : option (list OutputFile.t) :=
  option_map (fun l => l ++ more) l.

(* ------------------------------------------------------------------ *)
(** *** The order of the sorted emission *)
(* ------------------------------------------------------------------ *)

(** The name under which [sortedEmit] marks and emits a script. *)
Definition nameOf (f : File.t) : str :=
  normalizePath (getOriginalName (File.path f)).

(** The unit of [a] refers to the script [b] the way [sortedEmit] sees
    it: its reference list holds, as written, the path of [b] with [.ts]
    for its extension (the test [references.indexOf(otherName) !== -1]).
    A reference written in another way, relative to the directory of the
    file that holds it for one, is not seen. *)
Definition refersTo (res : EngineResult) (a b : File.t) : Prop :=
  exists tsFile,
    getSourceFile res (nameOf a) = Some tsFile /\
    includes (getOriginalName (File.path b))
             (SourceFile.referencedFiles tsFile) = true.

(** The reference list of the unit of [a] names the unit of [b] the way
    [resolve] reads a reference: joined to the directory of the file
    that holds it. *)
Definition resolvesTo {E : Engine} (res : EngineResult) (a b : File.t)
  : Prop :=
  exists tsFile ref,
    getSourceFile res (nameOf a) = Some tsFile /\
    In ref (SourceFile.referencedFiles tsFile) /\
    normalizePath (Path.join2 (dirname (SourceFile.fileName tsFile)) ref)
    = nameOf b.

(** [b] was pushed before [a]. *)
Definition pushedBefore (b a : File.t) (order : list File.t) : Prop :=
  exists l1 l2, order = l1 ++ a :: l2 /\ In b l1.

(** The traversal of [sortedEmit] on its own: the names marked in [done]
    and the files that [emit] pushed, in order.  It is [sortedEmit] with
    the call of [emit] replaced by a note of the file, or by a throw for
    a file that [emits] refuses. *)
Definition Trail : Type := list str * list File.t.

Fixpoint visit (emits : File.t -> bool) (fuel : nat) (res : EngineResult)
    (outs : list File.t) (originalName : str) (file : File.t)
  : M Trail unit :=
  match fuel with
  | O => outOfFuel
  | S fuel' =>
      let originalName := normalizePath originalName in
      d <- gets fst ;;
      if includes originalName d then ret tt
      else
        modify (fun t => (originalName :: fst t, snd t)) ;;;
        tsFile <- defined (getSourceFile res originalName) ;;
        let references := SourceFile.referencedFiles tsFile in
        for_each outs (fun other =>
          let otherName := getOriginalName (File.path other) in
          if includes otherName references
          then visit emits fuel' res outs otherName other
          else ret tt) ;;;
        if emits file then modify (fun t => (fst t, snd t ++ [file]))
        else throw
  end.

(** The body of the loop of [visit]. *)
Definition visitReferences (emits : File.t -> bool) (res : EngineResult)
    (outs : list File.t) (fuel : nat) (tsFile : SourceFile.t)
    (other : File.t) : M Trail unit :=
  if includes (getOriginalName (File.path other))
              (SourceFile.referencedFiles tsFile)
  then visit emits fuel res outs (getOriginalName (File.path other)) other
  else ret tt.

(** What [emit] does to the run; nothing when it throws. *)
Definition emitRun {E : Engine} (maps : JsMap.t str) (originalName : str)
    (file : File.t) (r : Run) : Run :=
  match withSourceMap (proj r) maps originalName file with
  | Some file =>
      pushJs file
        (withProject (fun p =>
           setPreviousOutput
             (appendCache {| OutputFile.filename := File.path file;
                             OutputFile.content := File.contents file;
                             OutputFile.sourcemap := File.sourceMap file |}
                          (previousOutputJS p))
             (previousOutputDts p) p) r)
  | None => r
  end.

(** [emit] pushes the script [f] of a project [p] with the maps [maps]:
    it does not throw. *)
Definition composes {E : Engine} (p : Project) (maps : JsMap.t str)
    (f : File.t) : bool :=
  match withSourceMap p maps (nameOf f) f with
  | Some _ => true
  | None => false
  end.

(** The variables of [compile] follow the trail: [done] holds the names
    marked, and the run is what [emit] made of [r0] with the files noted. *)
Definition follows {E : Engine} (outs : list File.t) (maps : JsMap.t str)
    (r0 : Run) (c : Compiling) (t : Trail) : Prop :=
  done c = fst t /\
  outputJS c = outs /\
  sourcemaps c = maps /\
  run c = fold_left (fun r f => emitRun maps (nameOf f) f r) (snd t) r0.

(** The scripts of [outs] whose name is not marked. *)
Definition unmarked (outs : list File.t) (d : list str) : nat :=
  length (filter (fun f => negb (includes (nameOf f) d)) outs).

(** A name that is marked and not emitted: its call of [sortedEmit] is
    still running. *)
Definition inProgress (t : Trail) (x : str) : Prop :=
  In x (fst t) /\ ~ In x (map nameOf (snd t)).

(** The files emitted are scripts of [outs], each name once, all marked. *)
Definition trailOk (outs : list File.t) (t : Trail) : Prop :=
  incl (snd t) outs /\
  incl (map nameOf (snd t)) (fst t) /\
  NoDup (map nameOf (snd t)).

(** Every script emitted comes after the scripts it refers to. *)
Definition respects (res : EngineResult) (outs : list File.t)
    (order : list File.t) : Prop :=
  forall l1 a l2, order = l1 ++ a :: l2 ->
    forall b, In b outs -> refersTo res a b -> In (nameOf b) (map nameOf l1).

(** The script [f] as [emit] pushes it from the state [c]; [None] when
    [emit] throws on it. *)
Definition emitted {E : Engine} (c : Compiling) (f : File.t)
  : option File.t :=
  withSourceMap (proj (run c)) (sourcemaps c) (nameOf f) f.

(** The loop that ends [compile] when [sortOutput] is set, on the trail. *)
Definition visitAll (emits : File.t -> bool) (res : EngineResult)
    (outs : list File.t) : M Trail unit :=
  for_each outs (fun file =>
    visit emits (emitFuel outs) res outs
          (getOriginalName (File.path file)) file).

(** The target path and the content bytes of an artifact. *)
Definition pathAndBytes (g : File.t) : str * str :=
  (File.path g, File.contents g).

(** What holds of the variables of [compile] while [host.output] is
    walked, for the project [p0] and the run [r0] the loop started with. *)
Definition reconciling (p0 : Project) (res : EngineResult) (r0 : Run)
    (d0 : list str) (c : Compiling) : Prop :=
  inputs (proj (run c)) = inputs p0 /\
  previousOutputJS (proj (run c)) = previousOutputJS (proj r0) /\
  jsStream (run c) = jsStream r0 /\
  reported (run c) = reported r0 /\
  engineRuns (run c) = engineRuns r0 /\
  ended (run c) = ended r0 /\
  done c = d0 /\
  Forall (jsArtifact p0 res) (outputJS c) /\
  exists dts,
    declStream (run c) = declStream r0 ++ dts /\
    Forall (dtsArtifact p0 res) dts /\
    previousOutputDts (proj (run c))
    = appendAll (map cachedDts dts) (previousOutputDts (proj r0)).

(** What holds of the variables of [compile] while the scripts [outs] are
    emitted. *)
Definition emitting (p0 : Project) (outs : list File.t) (maps : JsMap.t str)
    (r0 : Run) (c : Compiling) : Prop :=
  inputs (proj (run c)) = inputs p0 /\
  previousOutputDts (proj (run c)) = previousOutputDts (proj r0) /\
  declStream (run c) = declStream r0 /\
  reported (run c) = reported r0 /\
  engineRuns (run c) = engineRuns r0 /\
  ended (run c) = ended r0 /\
  outputJS c = outs /\
  sourcemaps c = maps /\
  exists js,
    jsStream (run c) = jsStream r0 ++ js /\
    Forall (fun g => exists f, In f outs /\ sameFile g f) js /\
    previousOutputJS (proj (run c))
    = appendAll (map cachedJS js) (previousOutputJS (proj r0)).

(** The cached record belongs to a current file of [p], under the name it
    would be replayed with. *)
Definition replayable (p : Project) (ext : str) (o : OutputFile.t) : Prop :=
  exists original f,
    JsMap.get (getOriginalName (normalizePath (OutputFile.filename o)))
              (currentFiles p) = Some original /\
    FileData.file original = Some f /\
    substr (FileData.originalFilename original) 0
           (Some (len (FileData.originalFilename original) - 3)%Z) ++ ext
    = OutputFile.filename o.

(** The path, as written, ends in [.ts] in some letter case. *)
Definition typescriptPath (path : str) : Prop :=
  exists stem ext, path = stem ++ ext /\ toLowerCase ext = lit ".ts".

(** A string that ends with one line break and no more. *)
Definition endsWithOneNewline (s : str) : Prop :=
  exists pre, s = pre ++ [newline] /\ forall pre', pre <> pre' ++ [newline].

(** The content of a script after the trimming of [compile]: some
    emitted [.js] file with its last line removed. *)
Definition trimmed (res : EngineResult) (bytes : str) : Prop :=
  exists filename data,
    In (filename, data) (output res) /\
    eqb (substr filename (-3) None) (lit ".js") = true /\
    bytes = removeSourceMapComment data.

(* ================================================================== *)
(** ** Further vocabulary *)
(* ================================================================== *)

(** The file that [lazyCompile] pushes for the cached record [o], if it
    pushes one: the record is skipped when no current file has its
    original name. *)
Definition replayOf (p : Project) (ext : str) (withMap : bool)
    (o : OutputFile.t) : option File.t :=
  match JsMap.get (getOriginalName (normalizePath (OutputFile.filename o)))
                  (currentFiles p) with
  | Some original =>
      match FileData.file original with
      | Some f =>
          let name := FileData.originalFilename original in
          Some {| File.path := substr name 0 (Some (len name - 3)%Z) ++ ext;
                  File.contents := OutputFile.content o;
                  File.cwd := File.cwd f;
                  File.base := File.base f;
                  File.sourceMap :=
                    if withMap then OutputFile.sourcemap o else None |}
      | None => None
      end
  | None => None
  end.

(** The files that [lazyCompile] pushes for the cached records [l], in
    order. *)
Definition replays (p : Project) (ext : str) (withMap : bool)
    (l : list OutputFile.t) : list File.t :=
  flat_map (fun o => match replayOf p ext withMap o with
                     | Some g => [g]
                     | None => []
                     end) l.

(** A name whose script the engine knows and whose scripts [emits]
    accepts. *)
Definition emittable (emits : File.t -> bool) (res : EngineResult)
    (x : str) : Prop :=
  getSourceFile res x <> None /\ forall f, nameOf f = x -> emits f = true.

(** A map text on which [emit] does not throw: it parses to an object
    with a [file] string and a [sources] array that the library
    accepts. *)
Definition wellFormedMap {E : Engine} (text : str) : Prop :=
  (exists parsedMap file sources,
     JSON_parse text = Some parsedMap /\
     mapFile parsedMap = Some file /\
     mapSources parsedMap = Some sources) /\
  forall name olds, composeSourceMap text name olds <> None.

(** Every map that [compile] holds is one that the engine wrote to a file
    ending in [.map]. *)
Definition mapsWritten (res : EngineResult) (c : Compiling) : Prop :=
  forall k v, JsMap.get k (sourcemaps c) = Some v ->
    exists filename,
      In (filename, v) (output res) /\
      eqb (substr filename (-4) None) (lit ".map") = true.

(** The cached records of a project, none when the list is
    [undefined]. *)
Definition cached (l : option (list OutputFile.t)) : list OutputFile.t :=
  match l with
  | Some l => l
  | None => []
  end.

(** Everything of a project but its additional files. *)
Definition besidesAdditional (p : Project) :=
  (filterSettings p, previousFiles p, currentFiles p, firstFile p,
   isFileChanged p, previousOutputJS p, previousOutputDts p,
   noExternalResolve p, sortOutput p, version p, options p).

(** Every additional file that is resolved holds what was read from the
    disk for a path handed to [fs.readFile], under the normalized form
    of that path, as [getFileData] makes it for the project [p]. *)
Definition readFromDisk {E : Engine} (disk : list (str * str)) (p : Project)
    (s : Resolving) : Prop :=
  forall k d,
    JsMap.get k (additionalFiles (project s)) = Some (resolvedFile d) ->
    exists r data,
      In r (reads s) /\ k = normalizePath r /\ In (r, data) disk /\
      d = getFileData p r data.

(** What a run of the resolver on [p] keeps true of its state. *)
Definition resolverKeeps {E : Engine} (disk : list (str * str))
    (p : Project) (s : Resolving) : Prop :=
  besidesAdditional (project s) = besidesAdditional p /\
  readFromDisk disk p s.

(** [o[k] = v] if there is a [v] to assign. *)
Definition assignIf {V : Type} (k : str) (v : option V) (o : JsMap.t V)
  : JsMap.t V :=
  match v with
  | Some v => JsMap.set k v o
  | None => o
  end.

(* ================================================================== *)
(** ** Facts about the model *)
(* ================================================================== *)

Ltac split_ands := repeat match goal with |- _ /\ _ => split end.

(** *** Strings *)

Lemma ascii_eqb_eq (a b : ascii) : Ascii.eqb a b = true <-> a = b.
Proof. apply Ascii.eqb_eq. Qed.

Lemma str_eqb_eq (a b : str) : eqb a b = true <-> a = b.
Proof.
  revert b; induction a as [|x a IH]; intros [|y b]; simpl; split;
    try congruence; try reflexivity.
  - intros H; apply andb_true_iff in H as [H1 H2].
    apply Ascii.eqb_eq in H1; apply IH in H2; subst; reflexivity.
  - intros H; injection H as -> ->.
    apply andb_true_iff; split; [apply Ascii.eqb_refl | now apply IH].
Qed.

Lemma str_eqb_refl (a : str) : eqb a a = true.
Proof. now apply str_eqb_eq. Qed.

Lemma str_eqb_neq (a b : str) : eqb a b = false <-> a <> b.
Proof.
  split.
  - intros H Hab; apply str_eqb_eq in Hab; congruence.
  - intros H; destruct (eqb a b) eqn:Heq; [|reflexivity].
    apply str_eqb_eq in Heq; contradiction.
Qed.

(** lastIndexOf *)
Lemma lastIndexOf_scan_spec (c : ascii) (s : str) :
  forall i start acc,
    let r := lastIndexOf_scan c s i start acc in
    (r = acc /\
     forall k, (k < length s)%nat -> (i + Z.of_nat k <= start)%Z ->
               nth k s zero <> c)
    \/ (exists k, (k < length s)%nat /\ r = (i + Z.of_nat k)%Z /\
                  (r <= start)%Z /\ nth k s zero = c /\
                  forall k', (k < k' < length s)%nat ->
                             (i + Z.of_nat k' <= start)%Z ->
                             nth k' s zero <> c).
Proof.
  induction s as [|x t IH]; intros i start acc; simpl.
  - left; split; [reflexivity | intros k Hk; lia].
  - specialize (IH (i + 1)%Z start
                   (if Ascii.eqb x c && (i <=? start)%Z then i else acc)).
    simpl in IH. destruct IH as [[Hr Hno] | (k & Hk & Hr & Hle & Hnth & Hlast)].
    + destruct (Ascii.eqb x c && (i <=? start)%Z) eqn:Hhit.
      * right. apply andb_true_iff in Hhit as [Hx Hi].
        apply Ascii.eqb_eq in Hx; apply Z.leb_le in Hi.
        exists O; repeat split; try lia; try assumption.
        intros k' Hk' Hle'. destruct k' as [|k']; [lia|]. simpl.
        apply Hno; lia.
      * left; split; [assumption|].
        intros [|k] Hk Hle; simpl.
        -- intros ->. rewrite Ascii.eqb_refl in Hhit. simpl in Hhit.
           apply Z.leb_gt in Hhit; lia.
        -- apply Hno; lia.
    + right; exists (S k); repeat split; try lia; try assumption.
      intros k' Hk' Hle'. destruct k' as [|k']; [lia|]. simpl.
      apply Hlast; lia.
Qed.

Lemma substring_0 (s : str) (n : nat) :
  (n <= length s)%nat -> substring s 0 (Z.of_nat n) = firstn n s.
Proof.
  intros Hn. unfold substring, clamp, len.
  match goal with
  | |- firstn (Z.to_nat (?h - ?l)) (skipn (Z.to_nat ?l) s) = _ =>
      replace l with 0%Z by lia; replace h with (Z.of_nat n) by lia
  end.
  rewrite Z.sub_0_r, Nat2Z.id. reflexivity.
Qed.

Lemma substring_0_neg (s : str) (b : Z) : (b <= 0)%Z -> substring s 0 b = [].
Proof.
  intros Hb. unfold substring, clamp, len.
  match goal with
  | |- firstn (Z.to_nat (?h - ?l)) (skipn (Z.to_nat ?l) s) = _ =>
      replace l with 0%Z by lia; replace h with 0%Z by lia
  end.
  reflexivity.
Qed.

Lemma removeSourceMapComment_cut (content : str) (i : nat) :
  (Z.of_nat i <= len content - 2)%Z ->
  nth i content zero = newline ->
  (forall j, (i < j)%nat -> (Z.of_nat j <= len content - 2)%Z ->
             nth j content zero <> newline) ->
  removeSourceMapComment content = firstn i content ++ [newline].
Proof.
  intros Hi Hnl Hlast. unfold removeSourceMapComment, lastIndexOf.
  pose proof (lastIndexOf_scan_spec newline content 0
                (clamp (len content - 2) 0 (len content)) (-1)) as H.
  simpl in H.
  assert (Hc : clamp (len content - 2) 0 (len content)
               = (len content - 2)%Z) by (unfold clamp, len in *; lia).
  rewrite Hc in *.
  destruct H as [[Hr Hno] | (k & Hk & Hr & Hle & Hnth & Hmax)].
  - exfalso. apply (Hno i); [unfold len in *; lia | lia | assumption].
  - rewrite Hr. simpl.
    assert (k = i).
    { destruct (Nat.lt_trichotomy k i) as [Hlt | [Heq | Hgt]]; [|assumption|].
      - exfalso. apply (Hmax i); [unfold len in *; lia | lia | assumption].
      - exfalso. apply (Hlast k); [assumption | lia | assumption]. }
    subst k. rewrite substring_0 by lia. reflexivity.
Qed.

Lemma removeSourceMapComment_single_line (content : str) :
  (forall j, (Z.of_nat j <= len content - 2)%Z ->
             nth j content zero <> newline) ->
  removeSourceMapComment content = [newline].
Proof.
  intros Hno. unfold removeSourceMapComment, lastIndexOf.
  pose proof (lastIndexOf_scan_spec newline content 0
                (clamp (len content - 2) 0 (len content)) (-1)) as H.
  simpl in H.
  destruct H as [[Hr _] | (k & Hk & Hr & Hle & Hnth & _)].
  - rewrite Hr. rewrite substring_0_neg by lia. reflexivity.
  - rewrite Hr. simpl.
    destruct (Z_le_gt_dec (Z.of_nat k) (len content - 2)) as [Hin | Hout].
    + exfalso. apply (Hno k); assumption.
    + unfold clamp, len in *.
      rewrite substring_0_neg by lia. reflexivity.
Qed.

Lemma removeSourceMapComment_prefix (content : str) :
  exists n, removeSourceMapComment content = firstn n content ++ [newline].
Proof.
  unfold removeSourceMapComment, lastIndexOf.
  pose proof (lastIndexOf_scan_spec newline content 0
                (clamp (len content - 2) 0 (len content)) (-1)) as H.
  simpl in H.
  destruct H as [[Hr _] | (k & Hk & Hr & Hle & Hnth & _)].
  - exists O. rewrite Hr, substring_0_neg by lia. reflexivity.
  - exists k. rewrite Hr. simpl. rewrite substring_0 by lia. reflexivity.
Qed.

(** [s.substr(-k)]: the last [k] characters, or all of [s]. *)
Lemma substr_last (s : str) (k : nat) :
  (0 < k)%nat ->
  substr s (- Z.of_nat k) None = skipn (length s - k) s.
Proof.
  intros Hk. unfold substr, len.
  destruct (Z.ltb_spec (- Z.of_nat k) 0) as [_ | Hge]; [|lia].
  replace (Z.max (Z.of_nat (length s) + - Z.of_nat k) 0)
    with (Z.of_nat (length s - k)) by lia.
  replace (Z.min (Z.max (Z.of_nat (length s)) 0)
                 (Z.of_nat (length s) - Z.of_nat (length s - k)))
    with (Z.of_nat (length s - (length s - k))) by lia.
  rewrite !Nat2Z.id.
  destruct (Z.leb_spec (Z.of_nat (length s - (length s - k))) 0) as [Hz | Hpos].
  - assert (length s = O) by lia.
    destruct s; [now rewrite skipn_nil | discriminate].
  - apply firstn_all2. rewrite length_skipn. lia.
Qed.

Lemma substr_suffix (s t : str) :
  t <> [] -> substr (s ++ t) (- Z.of_nat (length t)) None = t.
Proof.
  intros Ht. rewrite substr_last by (destruct t; [congruence | simpl; lia]).
  rewrite length_app, Nat.add_sub, skipn_app, skipn_all, Nat.sub_diag.
  reflexivity.
Qed.

(** A string whose last characters are those of [t] ends in [t]. *)
Lemma substr_last_inv (s t : str) :
  t <> [] -> substr s (- Z.of_nat (length t)) None = t ->
  exists x, s = x ++ t.
Proof.
  intros Ht H. rewrite substr_last in H
    by (destruct t; [congruence | simpl; lia]).
  exists (firstn (length s - length t) s).
  transitivity (firstn (length s - length t) s
                ++ skipn (length s - length t) s);
    [symmetry; apply firstn_skipn | now f_equal].
Qed.

(** [s.substr(0, l)]: the first [l] characters. *)
Lemma substr_first (s : str) (l : Z) :
  substr s 0 (Some l) = firstn (Z.to_nat l) s.
Proof.
  unfold substr. change (0 <? 0)%Z with false. cbv iota.
  assert (H0 : Z.min 0 (len s) = 0%Z) by (unfold len; lia).
  rewrite H0, Z.sub_0_r. change (Z.to_nat 0) with O. rewrite skipn_O.
  destruct (Z.leb_spec (Z.min (Z.max l 0) (len s)) 0) as [Hz | Hpos].
  - destruct (Z_le_gt_dec l 0) as [Hl | Hl].
    + replace (Z.to_nat l) with O by lia. reflexivity.
    + assert (length s = O) by (unfold len in Hz; lia).
      destruct s; [now rewrite firstn_nil | discriminate].
  - destruct (Z_le_gt_dec l (len s)) as [Hl | Hl].
    + now replace (Z.min (Z.max l 0) (len s)) with l by lia.
    + replace (Z.min (Z.max l 0) (len s)) with (len s) by lia.
      unfold len in *. rewrite Nat2Z.id, firstn_all.
      symmetry. apply firstn_all2. lia.
Qed.

(** [s.substr(0, length - k)] drops the last [k] characters. *)
Lemma substr_drop_suffix (s t : str) :
  substr (s ++ t) 0 (Some (len (s ++ t) - Z.of_nat (length t))%Z) = s.
Proof.
  rewrite substr_first. unfold len. rewrite length_app.
  replace (Z.to_nat (Z.of_nat (length s + length t) - Z.of_nat (length t)))
    with (length s) by lia.
  rewrite firstn_app, firstn_all, Nat.sub_diag. simpl. apply app_nil_r.
Qed.

(** *** Characters and case folding *)

Lemma lower_char_idem (c : ascii) : lower_char (lower_char c) = lower_char c.
Proof. destruct c as [[] [] [] [] [] [] [] []]; reflexivity. Qed.

Lemma lower_char_slash (c : ascii) : lower_char c = slash -> c = slash.
Proof. destruct c as [[] [] [] [] [] [] [] []]; vm_compute; congruence. Qed.

Lemma lower_char_dot (c : ascii) : lower_char c = dot -> c = dot.
Proof. destruct c as [[] [] [] [] [] [] [] []]; vm_compute; congruence. Qed.

Lemma toLowerCase_idem (s : str) : toLowerCase (toLowerCase s) = toLowerCase s.
Proof.
  unfold toLowerCase. rewrite map_map. apply map_ext. apply lower_char_idem.
Qed.

Lemma toLowerCase_app (a b : str) :
  toLowerCase (a ++ b) = toLowerCase a ++ toLowerCase b.
Proof. apply map_app. Qed.

Lemma toLowerCase_nonEmpty (s : str) :
  Path.nonEmpty (toLowerCase s) = Path.nonEmpty s.
Proof. destruct s; reflexivity. Qed.

Lemma clean_toLowerCase (seg : str) : clean seg -> clean (toLowerCase seg).
Proof.
  intros (Hne & Hsl & Hd & Hdd). repeat split.
  - destruct seg; [congruence | discriminate].
  - intros Hin. apply in_map_iff in Hin as (c & Hc & Hin).
    apply lower_char_slash in Hc. subst c. contradiction.
  - intros H. apply Hd. destruct seg as [|c [|c' t]]; try discriminate.
    simpl in H. injection H as H. apply lower_char_dot in H. now subst.
  - intros H. apply Hdd. destruct seg as [|c [|c' [|c'' t]]]; try discriminate.
    simpl in H. injection H as H1 H2.
    apply lower_char_dot in H1, H2. now subst.
Qed.

(** *** [split] and [join] *)

Lemma split_not_nil (sep : ascii) (s : str) : Path.split sep s <> [].
Proof.
  destruct s as [|c t]; simpl; [discriminate|].
  destruct (Ascii.eqb c sep); [discriminate|].
  destruct (Path.split sep t); discriminate.
Qed.

Lemma split_no_sep (sep : ascii) (s : str) :
  ~ In sep s -> Path.split sep s = [s].
Proof.
  induction s as [|c t IH]; intros Hno; simpl; [reflexivity|].
  destruct (Ascii.eqb c sep) eqn:Hc.
  - apply Ascii.eqb_eq in Hc. subst. exfalso. apply Hno. now left.
  - rewrite IH; [reflexivity|]. intros Hin. apply Hno. now right.
Qed.

Lemma split_app_sep (sep : ascii) (a b : str) :
  ~ In sep a ->
  Path.split sep (a ++ sep :: b) = a :: Path.split sep b.
Proof.
  induction a as [|c t IH]; intros Hno; simpl.
  - rewrite Ascii.eqb_refl. reflexivity.
  - destruct (Ascii.eqb c sep) eqn:Hc.
    + apply Ascii.eqb_eq in Hc. subst. exfalso. apply Hno. now left.
    + rewrite IH; [reflexivity|]. intros Hin. apply Hno. now right.
Qed.

Lemma split_segments (sep : ascii) (s : str) :
  Forall (fun seg => ~ In sep seg) (Path.split sep s).
Proof.
  induction s as [|c t IH]; simpl.
  - constructor; [intros [] | constructor].
  - destruct (Ascii.eqb c sep) eqn:Hc.
    + constructor; [intros [] | assumption].
    + destruct (Path.split sep t) as [|h r]; simpl.
      * constructor; [|constructor]. intros [H | []]. subst.
        rewrite Ascii.eqb_refl in Hc. discriminate.
      * inversion IH; subst. constructor; [|assumption].
        intros [H | H]; [|contradiction]. subst.
        rewrite Ascii.eqb_refl in Hc. discriminate.
Qed.

Lemma clean_part (seg : str) : clean seg -> part seg.
Proof. intros (H1 & H2 & _). now split. Qed.

Lemma dotdot_part : part (lit "..").
Proof.
  split; [discriminate|]. intros [H | [H | []]]; discriminate.
Qed.

Lemma join_cons (p : str) (rest : list str) :
  rest <> [] ->
  Path.join (lit "/") (p :: rest) = p ++ slash :: Path.join (lit "/") rest.
Proof. destruct rest; [congruence | reflexivity]. Qed.

Lemma segments_of_join (parts : list str) :
  Forall part parts ->
  filter Path.nonEmpty (Path.split slash (Path.join (lit "/") parts)) = parts.
Proof.
  induction parts as [|p rest IH]; intros Hall; [reflexivity|].
  inversion Hall as [|? ? [Hne Hsl] Hrest]; subst.
  destruct rest as [|q rest'].
  - simpl. rewrite split_no_sep by assumption. simpl.
    destruct p; [congruence | reflexivity].
  - rewrite join_cons by discriminate.
    rewrite split_app_sep by assumption. simpl filter.
    destruct p as [|c p']; [congruence|]. simpl Path.nonEmpty. cbv iota.
    f_equal. apply IH. assumption.
Qed.

Lemma split_snoc_sep (sep : ascii) (s : str) :
  Path.split sep (s ++ [sep]) = Path.split sep s ++ [[]].
Proof.
  induction s as [|c t IH]; simpl.
  - rewrite Ascii.eqb_refl. reflexivity.
  - destruct (Ascii.eqb c sep); [now rewrite IH|].
    rewrite IH. pose proof (split_not_nil sep t) as Hne.
    destruct (Path.split sep t); [congruence | reflexivity].
Qed.

Lemma segments_trailing (s : str) :
  filter Path.nonEmpty (Path.split slash (s ++ lit "/"))
  = filter Path.nonEmpty (Path.split slash s).
Proof.
  change (lit "/") with [slash]. rewrite split_snoc_sep, filter_app.
  simpl. apply app_nil_r.
Qed.

Lemma segments_leading (s : str) :
  filter Path.nonEmpty (Path.split slash (lit "/" ++ s))
  = filter Path.nonEmpty (Path.split slash s).
Proof. reflexivity. Qed.

(** *** [normalizeArray] *)

Lemma scan_cons (p : str) (rest : list str) :
  Path.normalizeArray_scan (p :: rest)
  = let '(kept, up) := Path.normalizeArray_scan rest in
    if eqb p (lit ".") then (kept, up)
    else if eqb p (lit "..") then (kept, S up)
    else match up with
         | O => (p :: kept, O)
         | S up' => (kept, up')
         end.
Proof. reflexivity. Qed.

Lemma scan_clean (kept : list str) :
  Forall clean kept -> Path.normalizeArray_scan kept = (kept, O).
Proof.
  induction 1 as [|p rest (Hne & Hsl & Hd & Hdd) _ IH]; [reflexivity|].
  rewrite scan_cons, IH.
  apply str_eqb_neq in Hd, Hdd. rewrite Hd, Hdd. reflexivity.
Qed.

Lemma scan_ups (ups : nat) (kept : list str) :
  Forall clean kept ->
  Path.normalizeArray_scan (repeat (lit "..") ups ++ kept) = (kept, ups).
Proof.
  intros Hk. induction ups as [|n IH].
  - now apply scan_clean.
  - change (repeat (lit "..") (S n) ++ kept)
      with (lit ".." :: (repeat (lit "..") n ++ kept)).
    rewrite scan_cons, IH. reflexivity.
Qed.

Lemma scan_keeps_clean (parts : list str) :
  Forall part parts ->
  Forall clean (fst (Path.normalizeArray_scan parts)).
Proof.
  induction 1 as [|p rest [Hne Hsl] _ IH]; [constructor|].
  rewrite scan_cons.
  destruct (Path.normalizeArray_scan rest) as [kept up]. simpl in IH.
  destruct (eqb p (lit ".")) eqn:Hd; [assumption|].
  destruct (eqb p (lit "..")) eqn:Hdd; [assumption|].
  destruct up; [|assumption].
  simpl. constructor; [|assumption].
  apply str_eqb_neq in Hd, Hdd. now repeat split.
Qed.

Lemma segments_are_parts (p : str) :
  Forall part (filter Path.nonEmpty (Path.split slash p)).
Proof.
  apply Forall_forall. intros seg Hin. apply filter_In in Hin as [Hin Hne].
  pose proof (split_segments slash p) as H.
  rewrite Forall_forall in H. split; [|now apply H].
  destruct seg; [discriminate | discriminate].
Qed.

(** *** [normalize] *)

Lemma normalize_render (p : str) :
  exists ups kept,
    Forall clean kept /\
    Path.normalize p
    = render (Path.isAbsolute p) ups kept (Path.trailingSlash p).
Proof.
  unfold Path.normalize, Path.normalizeArray.
  pose proof (scan_keeps_clean (segments_are_parts p)) as Hc.
  destruct (Path.normalizeArray_scan
              (filter Path.nonEmpty (Path.split slash p))) as [kept up].
  exists up, kept. split; [exact Hc|].
  unfold render. destruct (Path.isAbsolute p); reflexivity.
Qed.

Lemma join_nonEmpty (parts : list str) :
  Forall part parts -> parts <> [] ->
  Path.nonEmpty (Path.join (lit "/") parts) = true.
Proof.
  intros Hall Hne. destruct parts as [|p rest]; [congruence|].
  inversion Hall as [|? ? [Hp _] _]; subst.
  destruct p as [|c p']; [congruence|].
  destruct rest; reflexivity.
Qed.

Lemma join_head (parts : list str) :
  Forall part parts -> Path.isAbsolute (Path.join (lit "/") parts) = false.
Proof.
  intros Hall. destruct parts as [|p rest]; [reflexivity|].
  inversion Hall as [|? ? [Hp Hs] _]; subst.
  destruct p as [|c p']; [congruence|].
  assert (Hc : Ascii.eqb c slash = false).
  { apply Ascii.eqb_neq. intros ->. apply Hs. now left. }
  destruct rest; simpl; exact Hc.
Qed.

Lemma last_of_join (parts : list str) :
  Forall part parts -> parts <> [] ->
  exists s c, Path.join (lit "/") parts = s ++ [c] /\ c <> slash.
Proof.
  induction parts as [|p rest IH]; intros Hall Hne; [congruence|].
  inversion Hall as [|? ? [Hp Hs] Hrest]; subst.
  destruct rest as [|q rest'].
  - simpl. destruct (exists_last Hp) as (s & c & ->).
    exists s, c. split; [reflexivity|].
    intros ->. apply Hs. apply in_or_app. right. now left.
  - destruct (IH Hrest) as (s & c & Hj & Hc); [discriminate|].
    rewrite join_cons by discriminate. rewrite Hj.
    exists (p ++ slash :: s), c. split; [|assumption].
    now rewrite <- app_assoc.
Qed.

Lemma trailingSlash_snoc (s : str) (c : ascii) :
  Path.trailingSlash (s ++ [c]) = Ascii.eqb c slash.
Proof.
  unfold Path.trailingSlash.
  change (-1)%Z with (- Z.of_nat (length [c]))%Z.
  rewrite substr_suffix by discriminate. simpl. apply andb_true_r.
Qed.

Lemma normalize_of_render (isAbs : bool) (ups : nat) (kept : list str)
    (trailing : bool) :
  Forall clean kept ->
  Path.normalize (render isAbs ups kept trailing)
  = render isAbs ups kept trailing.
Proof.
  intros Hk.
  set (parts := (if isAbs then [] else repeat (lit "..") ups) ++ kept).
  assert (Hparts : Forall part parts).
  { apply Forall_app. split.
    - destruct isAbs; [constructor|]. apply Forall_forall.
      intros x Hx. apply repeat_spec in Hx. subst. apply dotdot_part.
    - eapply Forall_impl; [|exact Hk]. apply clean_part. }
  assert (Hscan : Path.normalizeArray parts (negb isAbs) = parts).
  { unfold Path.normalizeArray, parts. destruct isAbs; simpl.
    - now rewrite scan_clean.
    - now rewrite scan_ups. }
  destruct parts as [|p0 rest] eqn:Eparts.
  - (* nothing is left: the path is the root or the current directory *)
    unfold render. fold parts. rewrite Eparts.
    destruct isAbs, trailing; reflexivity.
  - assert (Hne : p0 :: rest <> []) by discriminate.
    pose proof (join_nonEmpty Hparts Hne) as Hj.
    pose proof (join_head Hparts) as Hh.
    destruct (last_of_join Hparts Hne) as (s & c & Hs & Hc).
    assert (Hr : render isAbs ups kept trailing
                 = (if isAbs then lit "/" else [])
                   ++ Path.join (lit "/") (p0 :: rest)
                   ++ (if trailing then lit "/" else [])).
    { unfold render. fold parts. rewrite Eparts, Hj. cbn [negb andb].
      rewrite Hj. cbn [andb].
      destruct trailing; [reflexivity | now rewrite app_nil_r]. }
    rewrite Hr. unfold Path.normalize.
    assert (Habs : Path.isAbsolute
                     ((if isAbs then lit "/" else [])
                      ++ Path.join (lit "/") (p0 :: rest)
                      ++ (if trailing then lit "/" else [])) = isAbs).
    { destruct isAbs; [reflexivity|].
      change ([] ++ ?x) with x.
      assert (Happ : forall a b : str,
                 Path.nonEmpty a = true ->
                 Path.isAbsolute (a ++ b) = Path.isAbsolute a)
        by (intros [|] ? ?; [discriminate | reflexivity]).
      rewrite Happ by exact Hj. exact Hh. }
    assert (Htr : Path.trailingSlash
                     ((if isAbs then lit "/" else [])
                      ++ Path.join (lit "/") (p0 :: rest)
                      ++ (if trailing then lit "/" else [])) = trailing).
    { destruct trailing.
      - rewrite app_assoc.
        change (Path.trailingSlash
                  (((if isAbs then lit "/" else [])
                    ++ Path.join (lit "/") (p0 :: rest)) ++ [slash]) = true).
        rewrite trailingSlash_snoc. apply Ascii.eqb_refl.
      - rewrite app_nil_r, Hs, app_assoc, trailingSlash_snoc.
        now apply Ascii.eqb_neq. }
    assert (Hseg : filter Path.nonEmpty
                     (Path.split slash
                        ((if isAbs then lit "/" else [])
                         ++ Path.join (lit "/") (p0 :: rest)
                         ++ (if trailing then lit "/" else [])))
                   = p0 :: rest).
    { assert (Hin : filter Path.nonEmpty
                      (Path.split slash
                         (Path.join (lit "/") (p0 :: rest)
                          ++ (if trailing then lit "/" else [])))
                    = p0 :: rest).
      { destruct trailing.
        - rewrite segments_trailing. now apply segments_of_join.
        - rewrite app_nil_r. now apply segments_of_join. }
      destruct isAbs; [rewrite segments_leading|]; exact Hin. }
    rewrite Habs, Htr, Hseg, Hscan, Hj. cbn [negb andb].
    rewrite Hj. cbn [andb].
    destruct trailing; [reflexivity | now rewrite app_nil_r].
Qed.

Lemma render_toLowerCase (isAbs : bool) (ups : nat) (kept : list str)
    (trailing : bool) :
  toLowerCase (render isAbs ups kept trailing)
  = render isAbs ups (map toLowerCase kept) trailing.
Proof.
  assert (Hjoin : forall parts,
            toLowerCase (Path.join (lit "/") parts)
            = Path.join (lit "/") (map toLowerCase parts)).
  { induction parts as [|p [|q rest] IH]; [reflexivity | reflexivity |].
    change (Path.join (lit "/") (p :: q :: rest))
      with (p ++ lit "/" ++ Path.join (lit "/") (q :: rest)).
    rewrite !toLowerCase_app, IH. reflexivity. }
  assert (Hrep : map toLowerCase (repeat (lit "..") ups)
                 = repeat (lit "..") ups).
  { induction ups; simpl; [reflexivity | now f_equal]. }
  assert (Hparts : (if isAbs then [] else repeat (lit "..") ups)
                   ++ map toLowerCase kept
                   = map toLowerCase
                       ((if isAbs then [] else repeat (lit "..") ups) ++ kept)).
  { rewrite map_app. destruct isAbs; [reflexivity | now rewrite Hrep]. }
  unfold render. cbv zeta. rewrite Hparts, <- Hjoin.
  generalize (Path.join (lit "/")
                ((if isAbs then [] else repeat (lit "..") ups) ++ kept)).
  intros [|c J]; destruct isAbs, trailing; simpl;
    unfold toLowerCase; rewrite ?map_app; reflexivity.
Qed.

Lemma normalizePath_idempotent (p : str) :
  normalizePath (normalizePath p) = normalizePath p.
Proof.
  unfold normalizePath.
  destruct (normalize_render p) as (ups & kept & Hk & ->).
  rewrite render_toLowerCase, normalize_of_render.
  - rewrite <- render_toLowerCase. apply toLowerCase_idem.
  - apply Forall_forall. intros x Hx. apply in_map_iff in Hx as (y & <- & Hy).
    apply clean_toLowerCase. rewrite Forall_forall in Hk. now apply Hk.
Qed.

(** *** Dictionaries *)

Section DictFacts.
Variable V : Type.
Implicit Types (m : JsMap.t V) (k : str) (v : V).

Lemma get_set_same m k v : JsMap.get k (JsMap.set k v m) = Some v.
Proof.
  induction m as [|[k' v'] r IH]; simpl.
  - now rewrite str_eqb_refl.
  - destruct (eqb k' k) eqn:Hk; simpl; rewrite Hk; [reflexivity | exact IH].
Qed.

Lemma get_set_other m k k' v :
  k <> k' -> JsMap.get k' (JsMap.set k v m) = JsMap.get k' m.
Proof.
  intros Hne. induction m as [|[k0 v0] r IH]; simpl.
  - apply str_eqb_neq in Hne. now rewrite Hne.
  - destruct (eqb k0 k) eqn:Hk; simpl.
    + apply str_eqb_eq in Hk. subst k0.
      apply str_eqb_neq in Hne. now rewrite Hne.
    + destruct (eqb k0 k'); [reflexivity | exact IH].
Qed.

Lemma get_in_keys m k :
  JsMap.get k m <> None <-> In k (JsMap.keys m).
Proof.
  induction m as [|[k' v'] r IH]; simpl.
  - split; [congruence | intros []].
  - destruct (eqb k' k) eqn:Hk.
    + apply str_eqb_eq in Hk. subst. split; [now left | discriminate].
    + apply str_eqb_neq in Hk. rewrite IH. split; [now right|].
      intros [H | H]; [contradiction | assumption].
Qed.

Lemma hasOwnProperty_keys m k :
  JsMap.hasOwnProperty k m = true <-> In k (JsMap.keys m).
Proof.
  rewrite <- get_in_keys. unfold JsMap.hasOwnProperty.
  destruct (JsMap.get k m); split; congruence.
Qed.

Lemma keys_set m k v :
  JsMap.keys (JsMap.set k v m)
  = if JsMap.hasOwnProperty k m then JsMap.keys m
    else JsMap.keys m ++ [k].
Proof.
  unfold JsMap.hasOwnProperty.
  induction m as [|[k' v'] r IH]; simpl; [reflexivity|].
  destruct (eqb k' k) eqn:Hk; simpl; [reflexivity|].
  rewrite IH. destruct (JsMap.get k r); reflexivity.
Qed.

Lemma get_in m k v : JsMap.get k m = Some v -> In (k, v) m.
Proof.
  induction m as [|[k' v'] r IH]; simpl; [discriminate|].
  destruct (eqb k' k) eqn:Hk.
  - apply str_eqb_eq in Hk. intros [= ->]. subst. now left.
  - intros H. right. now apply IH.
Qed.
End DictFacts.

(** *** Invariants of computations *)

Lemma preserves_ret {S A} (I : S -> Prop) (a : A) : preserves I (ret a).
Proof. intros s H. exact H. Qed.

Lemma preserves_throw {S A} (I : S -> Prop) : preserves I (@throw S A).
Proof. intros s H. exact H. Qed.

Lemma preserves_outOfFuel {S A} (I : S -> Prop) :
  preserves I (@outOfFuel S A).
Proof. intros s H. exact H. Qed.

Lemma preserves_gets {S A} (I : S -> Prop) (f : S -> A) :
  preserves I (gets f).
Proof. intros s H. exact H. Qed.

Lemma preserves_defined {S A} (I : S -> Prop) (o : option A) :
  preserves I (defined o).
Proof. destruct o; intros s H; exact H. Qed.

Lemma preserves_modify {S} (I : S -> Prop) (f : S -> S) :
  (forall s, I s -> I (f s)) -> preserves I (modify f).
Proof. intros Hf s H. now apply Hf. Qed.

Lemma preserves_bind {S A B} (I : S -> Prop) (m : M S A) (k : A -> M S B) :
  preserves I m -> (forall a, preserves I (k a)) -> preserves I (bind m k).
Proof.
  intros Hm Hk s H. unfold bind. specialize (Hm s H).
  destruct (m s) as [[a | |] s']; simpl in *; try assumption.
  now apply Hk.
Qed.

Lemma preserves_for_each {S X} (I : S -> Prop) (l : list X)
    (body : X -> M S unit) :
  (forall x, In x l -> preserves I (body x)) -> preserves I (for_each l body).
Proof.
  induction l as [|x r IH]; intros Hbody; simpl.
  - apply preserves_ret.
  - apply preserves_bind.
    + apply Hbody. now left.
    + intros _. apply IH. intros y Hy. apply Hbody. now right.
Qed.

(** A loop whose body always returns. *)
Lemma for_each_returns {S X} (I : S -> Prop) (l : list X)
    (body : X -> M S unit) :
  (forall x, In x l -> preserves I (body x)) ->
  (forall x s, In x l -> I s -> fst (body x s) = Ret tt) ->
  forall s, I s -> fst (for_each l body s) = Ret tt.
Proof.
  induction l as [|x r IH]; intros Hpres Hret s Hs; [reflexivity|].
  simpl. unfold bind.
  pose proof (Hret x s (or_introl eq_refl) Hs) as Hx.
  pose proof (Hpres x (or_introl eq_refl) s Hs) as Hs'.
  destruct (body x s) as [o s']. simpl in *. subst o.
  apply IH; [| | assumption].
  - intros y Hy. apply Hpres. now right.
  - intros y s0 Hy Hs0. apply Hret; [now right | assumption].
Qed.

Section Ingestion.
Context {E : Engine}.

Lemma addFile_data_fields (p : Project) (f : File.t) :
  let d := fst (addFile_data p f) in
  FileData.originalFilename d = File.path f /\
  FileData.content d = File.contents f /\
  FileData.file d = Some f.
Proof.
  unfold addFile_data.
  destruct (JsMap.get (normalizePath (File.path f)) (previousFiles p))
    as [old|]; [|now repeat split].
  destruct (eqb (FileData.content old) (File.contents f)) eqn:Hc;
    [|now repeat split].
  apply str_eqb_eq in Hc. now repeat split.
Qed.

Lemma addFile_current (p : Project) (f : File.t) :
  currentFiles (addFile p f)
  = JsMap.set (key f) (fst (addFile_data p f)) (currentFiles p).
Proof. unfold addFile. now destruct (addFile_data p f). Qed.

Lemma addFile_frame (p : Project) (f : File.t) :
  previousFiles (addFile p f) = previousFiles p /\
  additionalFiles (addFile p f) = additionalFiles p /\
  previousOutputJS (addFile p f) = previousOutputJS p /\
  previousOutputDts (addFile p f) = previousOutputDts p /\
  options (addFile p f) = options p /\
  version (addFile p f) = version p /\
  noExternalResolve (addFile p f) = noExternalResolve p /\
  sortOutput (addFile p f) = sortOutput p /\
  filterSettings (addFile p f) = filterSettings p.
Proof. unfold addFile. destruct (addFile_data p f). now repeat split. Qed.

Lemma addFile_changed (p : Project) (f : File.t) :
  isFileChanged (addFile p f)
  = if snd (addFile_data p f) then true else isFileChanged p.
Proof. unfold addFile. now destruct (addFile_data p f). Qed.

Lemma fold_addFile_frame (files : list File.t) (q : Project) :
  previousFiles (fold_left addFile files q) = previousFiles q /\
  additionalFiles (fold_left addFile files q) = additionalFiles q /\
  previousOutputJS (fold_left addFile files q) = previousOutputJS q /\
  previousOutputDts (fold_left addFile files q) = previousOutputDts q /\
  options (fold_left addFile files q) = options q /\
  version (fold_left addFile files q) = version q /\
  noExternalResolve (fold_left addFile files q) = noExternalResolve q /\
  sortOutput (fold_left addFile files q) = sortOutput q /\
  filterSettings (fold_left addFile files q) = filterSettings q.
Proof.
  revert q. induction files as [|f r IH]; intros q; [now repeat split|].
  simpl. specialize (IH (addFile q f)).
  pose proof (addFile_frame q f) as H.
  repeat match goal with H : _ /\ _ |- _ => destruct H end.
  repeat split; congruence.
Qed.

Lemma ingest_frame (p : Project) (files : list File.t) :
  previousFiles (ingest p files) = currentFiles p /\
  additionalFiles (ingest p files) = JsMap.empty Slot /\
  previousOutputJS (ingest p files) = previousOutputJS p /\
  previousOutputDts (ingest p files) = previousOutputDts p /\
  options (ingest p files) = options p /\
  noExternalResolve (ingest p files) = noExternalResolve p /\
  sortOutput (ingest p files) = sortOutput p.
Proof.
  unfold ingest. pose proof (fold_addFile_frame files (reset p)) as H.
  repeat match goal with H : _ /\ _ |- _ => destruct H end.
  repeat split; assumption.
Qed.

Lemma fold_addFile_entries (files seen : list File.t) (q : Project) :
  entriesOf seen (currentFiles q) ->
  entriesOf (seen ++ files) (currentFiles (fold_left addFile files q)).
Proof.
  revert seen q. induction files as [|f r IH]; intros seen q Hq.
  - now rewrite app_nil_r.
  - simpl. replace (seen ++ f :: r) with ((seen ++ [f]) ++ r)
      by now rewrite <- app_assoc.
    apply IH. intros k d Hget. rewrite addFile_current in Hget.
    destruct (list_eq_dec ascii_dec (key f) k) as [Heq | Hne].
    + subst k. rewrite get_set_same in Hget. injection Hget as <-.
      exists f. split; [apply in_or_app; right; now left|].
      split; [reflexivity | apply addFile_data_fields].
    + rewrite get_set_other in Hget by assumption.
      destruct (Hq k d Hget) as (f' & Hin & Hrest).
      exists f'. split; [apply in_or_app; now left | exact Hrest].
Qed.

Lemma ingest_entries (p : Project) (files : list File.t) :
  entriesOf files (currentFiles (ingest p files)).
Proof.
  unfold ingest. apply (@fold_addFile_entries files [] (reset p)).
  intros k d H. discriminate H.
Qed.

Lemma ingest_attached (p : Project) (files : list File.t) :
  attached (ingest p files).
Proof.
  intros k d Hg. destruct (ingest_entries p files _ Hg) as (f & _ & _ & _ & _ & Hf).
  congruence.
Qed.

Lemma fold_addFile_keys (files : list File.t) (q : Project) :
  NoDup (JsMap.keys (currentFiles q) ++ map key files) ->
  JsMap.keys (currentFiles (fold_left addFile files q))
  = JsMap.keys (currentFiles q) ++ map key files.
Proof.
  revert q. induction files as [|f r IH]; intros q Hnd; simpl.
  - now rewrite app_nil_r.
  - assert (Hfresh : JsMap.hasOwnProperty (key f) (currentFiles q) = false).
    { destruct (JsMap.hasOwnProperty (key f) (currentFiles q)) eqn:Hh;
        [|reflexivity].
      apply hasOwnProperty_keys in Hh. exfalso.
      apply NoDup_remove_2 in Hnd. apply Hnd.
      apply in_or_app. now left. }
    assert (Hk : JsMap.keys (currentFiles (addFile q f))
                 = JsMap.keys (currentFiles q) ++ [key f]).
    { now rewrite addFile_current, keys_set, Hfresh. }
    rewrite IH; rewrite Hk, <- app_assoc; [reflexivity | exact Hnd].
Qed.

Lemma ingest_keys (p : Project) (files : list File.t) :
  NoDup (map key files) ->
  JsMap.keys (currentFiles (ingest p files)) = map key files.
Proof.
  intros Hnd. unfold ingest. now rewrite fold_addFile_keys.
Qed.

Lemma NoDup_map_injective {A B} (g : A -> B) (l : list A) (x y : A) :
  NoDup (map g l) -> In x l -> In y l -> g x = g y -> x = y.
Proof.
  induction l as [|a r IH]; intros Hnd Hx Hy Hg; [destruct Hx|].
  simpl in Hnd. inversion Hnd as [|? ? Hnotin Hnd']; subst.
  destruct Hx as [-> | Hx], Hy as [-> | Hy]; auto.
  - exfalso. apply Hnotin. rewrite Hg. now apply in_map.
  - exfalso. apply Hnotin. rewrite <- Hg. now apply in_map.
Qed.

Lemma ingest_get (p : Project) (files : list File.t) (f : File.t) :
  NoDup (map key files) -> In f files ->
  exists d, JsMap.get (key f) (currentFiles (ingest p files)) = Some d /\
            FileData.originalFilename d = File.path f /\
            FileData.content d = File.contents f /\
            FileData.file d = Some f.
Proof.
  intros Hnd Hin.
  destruct (JsMap.get (key f) (currentFiles (ingest p files))) as [d|] eqn:Hg.
  - exists d. split; [reflexivity|].
    destruct (ingest_entries p files _ Hg) as (f' & Hin' & Hk & Hd).
    assert (f' = f) by (eapply NoDup_map_injective; eauto).
    now subst f'.
  - exfalso. assert (Hk : In (key f) (JsMap.keys (currentFiles (ingest p files)))).
    { rewrite ingest_keys by assumption. now apply in_map. }
    apply get_in_keys in Hk. contradiction.
Qed.

Lemma fold_addFile_unchanged (files : list File.t) (q : Project) :
  isFileChanged q = false ->
  (forall f, In f files ->
     exists old, JsMap.get (key f) (previousFiles q) = Some old /\
                 FileData.content old = File.contents f) ->
  isFileChanged (fold_left addFile files q) = false.
Proof.
  revert q. induction files as [|f r IH]; intros q Hq Hall; [exact Hq|].
  simpl. apply IH.
  - rewrite addFile_changed. destruct (Hall f (or_introl eq_refl))
      as (old & Hget & Hc).
    unfold addFile_data. fold (key f). rewrite Hget.
    apply str_eqb_eq in Hc. now rewrite Hc.
  - intros f' Hf'. destruct (addFile_frame q f) as (-> & _).
    apply Hall. now right.
Qed.

(** What the current files hold of the input files does not depend on the
    project the generation started in. *)
Lemma fold_addFile_stored (files : list File.t) :
  forall q q',
    (forall k, option_map stored (JsMap.get k (currentFiles q))
               = option_map stored (JsMap.get k (currentFiles q'))) ->
    forall k,
      option_map stored
        (JsMap.get k (currentFiles (fold_left addFile files q)))
      = option_map stored
          (JsMap.get k (currentFiles (fold_left addFile files q'))).
Proof.
  induction files as [|f r IH]; intros q q' H; [exact H|].
  simpl. apply IH. intros k. rewrite !addFile_current.
  destruct (list_eq_dec ascii_dec (key f) k) as [<- | Hne].
  - rewrite !get_set_same. simpl. unfold stored.
    destruct (addFile_data_fields q f) as (-> & -> & ->).
    destruct (addFile_data_fields q' f) as (-> & -> & ->).
    reflexivity.
  - rewrite !get_set_other by exact Hne. apply H.
Qed.

Lemma ingest_stored (p q : Project) (files : list File.t) (k : str) :
  option_map stored (JsMap.get k (currentFiles (ingest p files)))
  = option_map stored (JsMap.get k (currentFiles (ingest q files))).
Proof. unfold ingest. now apply fold_addFile_stored. Qed.

Lemma fold_addFile_keeps (files : list File.t) (k : str) :
  forall q,
    JsMap.get k (currentFiles q) <> None ->
    JsMap.get k (currentFiles (fold_left addFile files q)) <> None.
Proof.
  induction files as [|f r IH]; intros q H; [exact H|].
  simpl. apply IH. rewrite addFile_current.
  destruct (list_eq_dec ascii_dec (key f) k) as [<- | Hne].
  - now rewrite get_set_same.
  - now rewrite get_set_other.
Qed.

(** Every input file finds an entry under its key: its own, or that of a
    later file with the same key. *)
Lemma ingest_get_some (p : Project) (files : list File.t) (f : File.t) :
  In f files ->
  exists d g,
    JsMap.get (key f) (currentFiles (ingest p files)) = Some d /\
    In g files /\ key g = key f /\
    FileData.content d = File.contents g.
Proof.
  intros Hin.
  assert (Hsome : JsMap.get (key f) (currentFiles (ingest p files)) <> None).
  { unfold ingest. apply in_split in Hin as (l1 & l2 & ->).
    rewrite fold_left_app. simpl. apply fold_addFile_keeps.
    now rewrite addFile_current, get_set_same. }
  destruct (JsMap.get (key f) (currentFiles (ingest p files))) as [d|] eqn:Hg;
    [|congruence].
  destruct (ingest_entries p files _ Hg) as (g & Hg' & Hk & _ & Hc & _).
  exists d, g. now split_ands.
Qed.

(** The keys of the current files depend on the paths added only. *)
Lemma hasOwnProperty_same (m m' : JsMap.t FileData.t) (k : str) :
  (In k (JsMap.keys m) <-> In k (JsMap.keys m')) ->
  JsMap.hasOwnProperty k m = JsMap.hasOwnProperty k m'.
Proof.
  intros H. rewrite <- !hasOwnProperty_keys in H.
  destruct (JsMap.hasOwnProperty k m), (JsMap.hasOwnProperty k m');
    intuition congruence.
Qed.

Lemma fold_addFile_keys_same (files : list File.t) :
  forall q q',
    JsMap.keys (currentFiles q) = JsMap.keys (currentFiles q') ->
    JsMap.keys (currentFiles (fold_left addFile files q))
    = JsMap.keys (currentFiles (fold_left addFile files q')).
Proof.
  induction files as [|f r IH]; intros q q' H; [exact H|].
  simpl. apply IH. rewrite !addFile_current, !keys_set, H.
  rewrite (hasOwnProperty_same (currentFiles q) (currentFiles q') (key f))
    by now rewrite H.
  reflexivity.
Qed.

(** A key that no later file has stays where it is, and the other keys
    are what they would be without it. *)
Lemma fold_addFile_keys_skip (k : str) (K1 : list str) (files : list File.t) :
  (forall g, In g files -> key g <> k) ->
  forall q q' K2,
    JsMap.keys (currentFiles q) = K1 ++ k :: K2 ->
    JsMap.keys (currentFiles q') = K1 ++ K2 ->
    exists K2',
      JsMap.keys (currentFiles (fold_left addFile files q)) = K1 ++ k :: K2' /\
      JsMap.keys (currentFiles (fold_left addFile files q')) = K1 ++ K2'.
Proof.
  induction files as [|f r IH]; intros Hne q q' K2 Hq Hq'.
  - now exists K2.
  - simpl.
    assert (Hf : key f <> k) by (apply Hne; now left).
    assert (Hsame : JsMap.hasOwnProperty (key f) (currentFiles q)
                    = JsMap.hasOwnProperty (key f) (currentFiles q')).
    { apply hasOwnProperty_same. rewrite Hq, Hq', !in_app_iff. simpl.
      intuition congruence. }
    assert (Hr : forall g, In g r -> key g <> k)
      by (intros g Hg; apply Hne; now right).
    destruct (JsMap.hasOwnProperty (key f) (currentFiles q')) eqn:Hh.
    + apply (IH Hr _ _ K2);
        rewrite addFile_current, keys_set; [now rewrite Hsame | now rewrite Hh].
    + apply (IH Hr _ _ (K2 ++ [key f]));
        rewrite addFile_current, keys_set.
      * rewrite Hsame, Hq, <- app_assoc. reflexivity.
      * rewrite Hh, Hq', <- app_assoc. reflexivity.
Qed.

(** Taking out of a generation a file whose key no other file has takes
    one key out of the current files. *)
Lemma ingest_keys_removed (p p' : Project) (before after : list File.t)
    (f : File.t) :
  (forall g, In g (before ++ after) -> key g <> key f) ->
  length (JsMap.keys (currentFiles (ingest p (before ++ f :: after))))
  = S (length (JsMap.keys (currentFiles (ingest p' (before ++ after))))).
Proof.
  intros Hne. unfold ingest. rewrite !fold_left_app. simpl.
  set (q := fold_left addFile before (reset p)).
  set (q' := fold_left addFile before (reset p')).
  assert (Hk : JsMap.keys (currentFiles q) = JsMap.keys (currentFiles q'))
    by (apply fold_addFile_keys_same; reflexivity).
  assert (Hfresh : JsMap.hasOwnProperty (key f) (currentFiles q) = false).
  { destruct (JsMap.hasOwnProperty (key f) (currentFiles q)) eqn:Hh;
      [|reflexivity].
    exfalso. apply hasOwnProperty_keys, get_in_keys in Hh.
    destruct (JsMap.get (key f) (currentFiles q)) as [d|] eqn:Hg;
      [|congruence].
    destruct (@fold_addFile_entries before [] (reset p)) with (k := key f)
                                                                (d := d)
      as (g & Hg' & Hkey & _); [intros ? ? H; discriminate H | exact Hg |].
    apply (Hne g); [apply in_or_app; now left | now symmetry]. }
  destruct (@fold_addFile_keys_skip (key f) (JsMap.keys (currentFiles q'))
              after) with (q := addFile q f) (q' := q') (K2 := @nil str)
    as (K2' & H1 & H2).
  - intros g Hg. apply Hne. apply in_or_app. now right.
  - now rewrite addFile_current, keys_set, Hfresh, Hk.
  - now rewrite app_nil_r.
  - rewrite H1, H2, !length_app. simpl. lia.
Qed.

(** *** [lazyCompile] *)

Lemma canReplay_eligible (p : Project) : canReplay p = true <-> eligible p.
Proof.
  unfold canReplay, eligible. rewrite !andb_true_iff, negb_true_iff,
    Nat.eqb_eq.
  destruct (previousOutputJS p), (previousOutputDts p);
    intuition (try congruence; try discriminate).
Qed.

Lemma lazyCompile_ineligible (r : Run) :
  canReplay (proj r) = false -> lazyCompile r = (Ret false, r).
Proof. intros H. unfold lazyCompile, bind, gets. now rewrite H. Qed.

Lemma replayOne_returns (p : Project) (ext : str)
    (push : File.t -> Run -> Run) (withMap : bool) (o : OutputFile.t)
    (r : Run) :
  attached p -> fst (replayOne p ext push withMap o r) = Ret tt.
Proof.
  intros Hat. unfold replayOne.
  destruct (JsMap.get _ (currentFiles p)) as [d|] eqn:Hg; [|reflexivity].
  specialize (Hat _ _ Hg).
  destruct (FileData.file d); [reflexivity | congruence].
Qed.

Lemma replay_returns (p : Project) (ext : str)
    (push : File.t -> Run -> Run) (withMap : bool)
    (l : list OutputFile.t) (r : Run) :
  attached p -> fst (for_each l (replayOne p ext push withMap) r) = Ret tt.
Proof.
  intros Hat. apply for_each_returns with (I := fun _ => True); auto.
  - intros x _ s _. exact I.
  - intros x s _ _. now apply replayOne_returns.
Qed.

Lemma lazyCompile_eligible (r : Run) :
  canReplay (proj r) = true -> attached (proj r) ->
  fst (lazyCompile r) = Ret true.
Proof.
  intros Hc Hat. unfold lazyCompile, bind, gets. rewrite Hc.
  pose proof (replay_returns (lit ".js") pushJs true
                (match previousOutputJS (proj r) with Some l => l | None => [] end)
                r Hat) as H1.
  destruct (for_each _ (replayOne (proj r) (lit ".js") pushJs true) r)
    as [o1 r1]. simpl in H1. subst o1.
  pose proof (replay_returns (lit ".d.ts") pushDecl false
                (match previousOutputDts (proj r) with Some l => l | None => [] end)
                r1 Hat) as H2.
  destruct (for_each _ (replayOne (proj r) (lit ".d.ts") pushDecl false) r1)
    as [o2 r2]. simpl in H2. subst o2. reflexivity.
Qed.

Lemma lazyCompile_true_inv (r : Run) :
  fst (lazyCompile r) = Ret true -> canReplay (proj r) = true.
Proof.
  intros H. destruct (canReplay (proj r)) eqn:Hc; [reflexivity|].
  rewrite lazyCompile_ineligible in H by assumption. discriminate.
Qed.

End Ingestion.

Section Resolver.
Context {E : Engine}.
Variable disk : list (str * str).
Variable p : Project.

Lemma resolveRef_cases (s : Resolving) (r : str) :
  (resolveRef s r = s /\
   (In (normalizePath r) (JsMap.keys (currentFiles (project s))) \/
    In (normalizePath r) (JsMap.keys (additionalFiles (project s)))))
  \/ (~ In (normalizePath r) (JsMap.keys (currentFiles (project s))) /\
      ~ In (normalizePath r) (JsMap.keys (additionalFiles (project s))) /\
      resolveRef s r
      = {| project :=
             setAdditionalFiles
               (JsMap.set (normalizePath r) unresolvedFile
                          (additionalFiles (project s)))
               (project s);
           tasks := tasks s + 1;
           pending := pending s ++ [{| ref := r;
                                       normalizedRef := normalizePath r |}];
           callbacks := callbacks s;
           reads := reads s ++ [r] |}).
Proof.
  unfold resolveRef.
  destruct (JsMap.hasOwnProperty (normalizePath r)
                                 (currentFiles (project s))) eqn:Hc.
  - left. split; [reflexivity|]. left. now apply hasOwnProperty_keys.
  - destruct (JsMap.hasOwnProperty (normalizePath r)
                                   (additionalFiles (project s))) eqn:Ha.
    + left. split; [reflexivity|]. right. now apply hasOwnProperty_keys.
    + right. simpl. repeat split.
      * intros H. apply hasOwnProperty_keys in H. congruence.
      * intros H. apply hasOwnProperty_keys in H. congruence.
Qed.

Lemma keys_set_incl {V} (m : JsMap.t V) (k : str) (v : V) (x : str) :
  In x (JsMap.keys m) -> In x (JsMap.keys (JsMap.set k v m)).
Proof.
  intros H. rewrite keys_set.
  destruct (JsMap.hasOwnProperty k m); [assumption|].
  apply in_or_app. now left.
Qed.

Lemma keys_set_inv {V} (m : JsMap.t V) (k : str) (v : V) (x : str) :
  In x (JsMap.keys (JsMap.set k v m)) -> x = k \/ In x (JsMap.keys m).
Proof.
  rewrite keys_set. destruct (JsMap.hasOwnProperty k m); [now right|].
  intros H. apply in_app_or in H as [H | [H | []]]; auto.
Qed.

Lemma resolveRef_resolving (extra n : nat) (s : Resolving) (r : str) :
  resolving E disk p extra n s -> In r (candidates disk p) ->
  resolving E disk p extra n (resolveRef s r).
Proof.
  intros Hs Hr.
  destruct (resolveRef_cases s r) as [[-> _] | (Hnc & Hna & ->)];
    [assumption|].
  destruct Hs as [Hcur Hopt Hver Htasks Hcount Honce Hmarked Hkeys Hpr Hponce Hph Hknown]. constructor; simpl; try assumption.
  - rewrite Htasks, !length_app. simpl. lia.
  - rewrite !length_app, Hcount. simpl. lia.
  - rewrite map_app. simpl. apply NoDup_app; [assumption| |].
    + constructor; [intros [] | constructor].
    + intros x Hx [<- | []]. apply Hna.
      apply in_map_iff in Hx as (r' & <- & Hr').
      now apply Hmarked.
  - intros r' Hr'. apply in_app_or in Hr' as [Hr' | [<- | []]].
    + apply keys_set_incl. now apply Hmarked.
    + apply get_in_keys. rewrite get_set_same. discriminate.
  - rewrite keys_set, map_app, app_assoc, <- Hkeys.
    destruct (JsMap.hasOwnProperty (normalizePath r)
                (additionalFiles (project s))) eqn:Hh; [|reflexivity].
    apply hasOwnProperty_keys in Hh. contradiction.
  - intros rd Hrd. apply in_app_or in Hrd as [Hrd | [<- | []]].
    + destruct (Hpr rd Hrd). split; [assumption|].
      apply in_or_app. now left.
    + simpl. split; [reflexivity|]. apply in_or_app. right. now left.
  - rewrite map_app. simpl. apply NoDup_app; [assumption| |].
    + constructor; [intros [] | constructor].
    + intros x Hx [<- | []]. apply Hna.
      apply in_map_iff in Hx as (rd & <- & Hrd).
      destruct (Hpr rd Hrd) as [-> Hin].
      now apply Hmarked.
  - intros rd Hrd. apply in_app_or in Hrd as [Hrd | [<- | []]].
    + rewrite get_set_other; [now apply Hph|].
      intros Heq. apply Hna. rewrite Heq.
      destruct (Hpr rd Hrd) as [-> Hin].
      now apply Hmarked.
    + simpl. apply get_set_same.
  - intros x Hx. apply in_app_or in Hx as [Hx | [<- | []]];
      [now apply Hknown | assumption].
Qed.

Lemma resolveRef_callbacks (s : Resolving) (r : str) :
  callbacks (resolveRef s r) = callbacks s.
Proof.
  destruct (resolveRef_cases s r) as [[-> _] | (_ & _ & ->)]; reflexivity.
Qed.

Lemma resolveRef_disjoint (s : Resolving) (r : str) :
  disjointFiles (project s) -> disjointFiles (project (resolveRef s r)).
Proof.
  intros Hd.
  destruct (resolveRef_cases s r) as [[-> _] | (Hnc & Hna & ->)];
    [assumption|].
  intros k Hc Ha. simpl in *.
  apply keys_set_inv in Ha as [-> | Ha]; [contradiction | eauto].
Qed.

Lemma resolve_resolving (extra n : nat) (file : FileData.t) (s : Resolving) :
  resolving E disk p extra n s ->
  incl (references file) (candidates disk p) ->
  resolving E disk p extra n (resolve s file).
Proof.
  unfold resolve. generalize (references file) as refs.
  intros refs. revert s. induction refs as [|r rest IH]; intros s Hs Hin;
    [assumption|].
  simpl. apply IH.
  - apply resolveRef_resolving; [assumption | apply Hin; now left].
  - intros x Hx. apply Hin. now right.
Qed.

Lemma resolve_callbacks (file : FileData.t) (s : Resolving) :
  callbacks (resolve s file) = callbacks s.
Proof.
  unfold resolve. generalize (references file) as refs.
  intros refs. revert s. induction refs as [|r rest IH]; intros s;
    [reflexivity|].
  simpl. now rewrite IH, resolveRef_callbacks.
Qed.

Lemma resolve_disjoint (file : FileData.t) (s : Resolving) :
  disjointFiles (project s) -> disjointFiles (project (resolve s file)).
Proof.
  unfold resolve. generalize (references file) as refs.
  intros refs. revert s. induction refs as [|r rest IH]; intros s Hd;
    [assumption|].
  simpl. apply IH. now apply resolveRef_disjoint.
Qed.

(** What [resolveAll] leaves when it returns. *)
Lemma resolveAll_resolving :
  resolving E disk p 0 0 (resolveAll p) /\ calledBack (resolveAll p).
Proof.
  assert (H0 : resolving E disk p 0 0
                 {| project := p; tasks := 0; pending := [];
                    callbacks := O; reads := [] |}).
  { constructor; simpl; try reflexivity; try (now constructor);
      try (intros ? []). now rewrite app_nil_r. }
  unfold resolveAll. destruct (noExternalResolve p).
  - split; [destruct H0 as [Hcur Hopt Hver Htasks Hcount Honce Hmarked Hkeys Hpr Hponce Hph Hknown]; constructor; assumption | reflexivity].
  - set (session := {| project := p; tasks := 0; pending := [];
                       callbacks := O; reads := [] |}) in *.
    assert (H : forall (l : list (str * FileData.t)) s,
               incl l (currentFiles p) ->
               resolving E disk p 0 0 s -> callbacks s = O ->
               resolving E disk p 0 0
                 (fold_left (fun s kv => resolve s (snd kv)) l s) /\
               callbacks (fold_left (fun s kv => resolve s (snd kv)) l s) = O).
    { induction l as [|kv l IH]; intros s Hl Hs Hc; [now split|].
      simpl. apply IH.
      - intros x Hx. apply Hl. now right.
      - apply resolve_resolving; [assumption|].
        intros x Hx. unfold candidates. apply in_or_app. left.
        apply in_flat_map. exists kv. split; [apply Hl; now left | assumption].
      - now rewrite resolve_callbacks. }
    destruct (H (currentFiles p) session (incl_refl _) H0 eq_refl)
      as [Hs Hc].
    set (s := fold_left _ (currentFiles p) session) in *.
    pose proof (tasks_pending Hs) as Ht.
    destruct (Z.eqb_spec (tasks s) 0) as [Hz | Hnz].
    + split.
      * destruct Hs as [Hcur Hopt Hver Htasks Hcount Honce Hmarked Hkeys Hpr Hponce Hph Hknown]. constructor; assumption.
      * unfold calledBack. simpl. rewrite Hc.
        destruct (pending s); [reflexivity | simpl in Ht; lia].
    + split; [assumption|]. unfold calledBack. rewrite Hc.
      destruct (pending s); [simpl in Ht; lia | reflexivity].
Qed.

Lemma getFileData_settings (q : Project) (path data : str) :
  options q = options p -> version q = version p ->
  getFileData q path data = getFileData p path data.
Proof. intros Ho Hv. unfold getFileData. now rewrite Ho, Hv. Qed.

(** One turn of the event loop keeps the resolver well formed. *)
Lemma step_resolving (n : nat) (s s' : Resolving) :
  resolving E disk p 0 n s -> calledBack s -> step disk s s' ->
  resolving E disk p 0 (S n) s' /\ calledBack s'.
Proof.
  intros Hs Hcb Hstep. destruct Hstep as [s before rd after data Hp Hdel].
  assert (Hcb0 : callbacks s = O).
  { unfold calledBack in Hcb. rewrite Hp in Hcb.
    destruct before; exact Hcb. }
  assert (Hrd : In rd (pending s)).
  { rewrite Hp. apply in_or_app. right. now left. }
  set (mid := {| project := project s; tasks := tasks s;
                 pending := before ++ after;
                 callbacks := callbacks s; reads := reads s |}).
  assert (Hmid : resolving E disk p 1 (S n) mid).
  { destruct Hs as [Hcur Hopt Hver Htasks Hcount Honce Hmarked Hkeys Hpr Hponce Hph Hknown]. rewrite Hp in *.
    constructor; simpl; try assumption.
    - rewrite Htasks, !length_app. simpl. f_equal. lia.
    - rewrite Hcount, !length_app. simpl. lia.
    - intros x Hx. apply Hpr.
      apply in_app_or in Hx as [Hx | Hx]; apply in_or_app;
        [now left | right; now right].
    - rewrite map_app in *. simpl in Hponce.
      now apply NoDup_remove_1 in Hponce.
    - intros x Hx. apply Hph.
      apply in_app_or in Hx as [Hx | Hx]; apply in_or_app;
        [now left | right; now right]. }
  assert (Hs1 : exists s1,
             resolving E disk p 1 (S n) s1 /\ callbacks s1 = O /\
             onRead rd data mid
             = (let s2 := {| project := project s1; tasks := tasks s1 - 1;
                             pending := pending s1;
                             callbacks := callbacks s1;
                             reads := reads s1 |} in
                if (tasks s2 =? 0)%Z then callBack s2 else s2)).
  { destruct data as [d|].
    - eexists. split; [|split; [|reflexivity]].
      + apply resolve_resolving.
        * destruct Hmid as [Hcur Hopt Hver Htasks Hcount Honce Hmarked Hkeys Hpr Hponce Hph Hknown].
          constructor; simpl in *; try assumption.
          -- intros r Hr. apply keys_set_incl. now apply Hmarked.
          -- rewrite keys_set, <- Hkeys.
             assert (Hh : JsMap.hasOwnProperty (normalizedRef rd)
                            (additionalFiles (project s)) = true).
             { unfold JsMap.hasOwnProperty.
               now rewrite (pending_placeholder Hs rd Hrd). }
             now rewrite Hh.
          -- intros x Hx. rewrite get_set_other;
               [now apply Hph|].
             intros Heq. pose proof (pending_once Hs) as Hnd.
             rewrite Hp, map_app in Hnd. simpl in Hnd.
             apply NoDup_remove_2 in Hnd. apply Hnd.
             rewrite <- map_app, Heq. now apply in_map.
        * simpl. rewrite (getFileData_settings (project s) (ref rd) d
                            (same_options Hs) (same_version Hs)).
          intros x Hx. unfold candidates. apply in_or_app. right.
          apply in_flat_map. exists (ref rd, d). split; [exact Hdel | exact Hx].
      + rewrite resolve_callbacks. exact Hcb0.
    - exists mid. split; [assumption | split; [exact Hcb0 | reflexivity]]. }
  destruct Hs1 as (s1 & Hs1 & Hc1 & ->). cbv zeta.
  pose proof (tasks_pending Hs1) as Ht. simpl.
  assert (Hdone : resolving E disk p 0 (S n)
                    {| project := project s1; tasks := tasks s1 - 1;
                       pending := pending s1; callbacks := callbacks s1;
                       reads := reads s1 |}).
  { destruct Hs1 as [Hcur Hopt Hver Htasks Hcount Honce Hmarked Hkeys Hpr Hponce Hph Hknown]. constructor; simpl; try assumption.
    rewrite Htasks. lia. }
  destruct (Z.eqb_spec (tasks s1 - 1) 0) as [Hz | Hnz].
  - split.
    + destruct Hdone as [Hcur Hopt Hver Htasks Hcount Honce Hmarked Hkeys Hpr Hponce Hph Hknown]. constructor; assumption.
    + unfold calledBack. simpl. rewrite Hc1.
      destruct (pending s1); [reflexivity | simpl in Ht; lia].
  - split; [assumption|]. unfold calledBack. simpl. rewrite Hc1.
    destruct (pending s1); [simpl in Ht; lia | reflexivity].
Qed.

Lemma steps_resolving (n : nat) (s : Resolving) :
  steps disk n (resolveAll p) s ->
  resolving E disk p 0 n s /\ calledBack s.
Proof.
  intros H. remember (resolveAll p) as s0 eqn:Hs0.
  induction H as [s | n s1 s2 s3 H12 IH H23].
  - subst. apply resolveAll_resolving.
  - destruct (IH Hs0) as [Hs Hc]. eapply step_resolving; eassumption.
Qed.

(** The reads issued are bounded by the paths that can be asked for. *)
Lemma resolving_bound (extra n : nat) (s : Resolving) :
  resolving E disk p extra n s -> n + length (pending s) <= length (candidates disk p).
Proof.
  intros Hs. rewrite <- (reads_count Hs).
  apply NoDup_incl_length.
  - apply (NoDup_map_inv normalizePath). apply (reads_once Hs).
  - apply (reads_known Hs).
Qed.

Lemma step_disjoint (s s' : Resolving) (n : nat) :
  resolving E disk p 0 n s -> step disk s s' ->
  disjointFiles (project s) -> disjointFiles (project s').
Proof.
  intros Hs Hstep Hd. destruct Hstep as [s before rd after data Hp Hdel].
  assert (Hrd : In rd (pending s)).
  { rewrite Hp. apply in_or_app. right. now left. }
  assert (Hin : In (normalizedRef rd)
                   (JsMap.keys (additionalFiles (project s)))).
  { destruct (pending_read Hs rd Hrd) as [-> Hr].
    now apply (reads_marked Hs). }
  assert (Hmid : forall s1, disjointFiles (project s1) ->
            disjointFiles
              (project
                 (let s2 := {| project := project s1; tasks := tasks s1 - 1;
                               pending := pending s1;
                               callbacks := callbacks s1;
                               reads := reads s1 |} in
                  if (tasks s2 =? 0)%Z then callBack s2 else s2))).
  { intros s1 H1. cbv zeta. simpl. destruct (tasks s1 - 1 =? 0)%Z; exact H1. }
  unfold onRead. destruct data as [d|].
  - apply Hmid. apply resolve_disjoint. simpl.
    intros k Hc Ha. simpl in *.
    apply keys_set_inv in Ha as [-> | Ha]; eauto.
  - apply Hmid. exact Hd.
Qed.

End Resolver.

Section Compilation.
Context {E : Engine}.

Lemma appendCache_appendAll (o : OutputFile.t) (more : list OutputFile.t)
    (l : option (list OutputFile.t)) :
  appendCache o (appendAll more l) = appendAll (more ++ [o]) l.
Proof. destruct l; simpl; [now rewrite app_assoc | reflexivity]. Qed.

Lemma appendAll_nil (l : option (list OutputFile.t)) : appendAll [] l = l.
Proof. destruct l; simpl; [now rewrite app_nil_r | reflexivity]. Qed.

Lemma withSourceMap_sameFile (p : Project) (maps : JsMap.t str)
    (name : str) (f g : File.t) :
  withSourceMap p maps name f = Some g -> sameFile g f.
Proof.
  unfold withSourceMap, sameFile.
  destruct (JsMap.get _ maps) as [[|c m]|];
    try (intros [= <-]; now repeat split).
  destruct (JSON_parse (c :: m)) as [parsedMap|]; [|discriminate].
  destruct (mapFile parsedMap); [|discriminate].
  destruct (mapSources parsedMap); [|discriminate].
  destruct (composeSourceMap _ _ _); [|discriminate].
  intros [= <-]. now repeat split.
Qed.

(** [emit] throws before it pushes, or caches and pushes one file. *)
Lemma emit_cases (name : str) (file : File.t) (c : Compiling) :
  match withSourceMap (proj (run c)) (sourcemaps c) name file with
  | Some g =>
      emit name file c
      = (Ret tt,
         onRun (fun r =>
                  pushJs g
                    (withProject (fun p =>
                       setPreviousOutput
                         (appendCache (cachedJS g) (previousOutputJS p))
                         (previousOutputDts p) p) r)) c)
  | None => emit name file c = (Throw, c)
  end.
Proof.
  unfold emit, bind, gets, modify, defined. simpl.
  destruct (withSourceMap _ _ name file); reflexivity.
Qed.

(** *** The loop over the engine's output *)

Section Reconciling.
Variable p0 : Project.
Variable res : EngineResult.
Variable r0 : Run.
Variable d0 : list str.

Lemma findOriginal_origin (p : Project) (filename : str) (c : Compiling) :
  options p = options p0 -> firstFile p = firstFile p0 ->
  currentFiles p = currentFiles p0 ->
  snd (findOriginal p (getOriginalName (normalizePath filename)) c) = c /\
  forall original full,
    fst (findOriginal p (getOriginalName (normalizePath filename)) c)
    = Ret (Some (original, full)) ->
    origin p0 filename original full.
Proof.
  intros Hopt Hff Hcur. unfold findOriginal, origin.
  rewrite Hopt, Hff, Hcur.
  destruct (out (options p0)) as [o|].
  - destruct (firstFile p0) as [original|];
      [|split; [reflexivity | discriminate]].
    unfold bind, defined.
    destruct (FileData.file original) as [f|] eqn:Hf;
      [|split; [reflexivity | discriminate]].
    simpl. split; [reflexivity|]. intros ? ? [= <- <-].
    split; [reflexivity|]. now exists f.
  - destruct (JsMap.get _ (currentFiles p0)) as [original|];
      [|split; [reflexivity | discriminate]].
    simpl. split; [reflexivity|]. now intros ? ? [= <- <-].
Qed.

Lemma classify_reconciling (p : Project) (filename data : str)
    (original : FileData.t) (full : str) :
  In (filename, data) (output res) ->
  origin p0 filename original full ->
  preserves (reconciling p0 res r0 d0)
    (classify p filename data (getOriginalName (normalizePath filename))
              original full).
Proof.
  intros Hin Hor c Hc.
  assert (Hsame : (reconciling p0 res r0 d0) c) by exact Hc.
  destruct Hc as (Hi & Hpj & Hjs & Hrep & Her & Hend & Hd & Hout & dts
                  & Hdecl & Hdts & Hpd).
  unfold classify. cbv zeta.
  destruct (eqb (substr filename (-3) None) (lit ".js")) eqn:Hjs3.
  - unfold bind, defined.
    destruct (FileData.file original) as [f|] eqn:Hf; [|exact Hsame].
    simpl. unfold reconciling. simpl. split_ands; try assumption.
    + apply Forall_app. split; [assumption|].
      constructor; [|constructor].
      exists filename, data, original, full, f. now repeat split.
    + now exists dts.
  - destruct (eqb (substr filename (-5) None) (lit ".d.ts")) eqn:Hd5.
    + unfold bind, defined.
      destruct (FileData.file original) as [f|] eqn:Hf; [|exact Hsame].
      simpl. unfold reconciling. simpl. split_ands; try assumption.
      eexists (dts ++ [_]). split; [|split].
      * rewrite Hdecl, <- app_assoc. reflexivity.
      * apply Forall_app. split; [assumption|].
        constructor; [|constructor].
        exists filename, data, original, full, f. now repeat split.
      * rewrite Hpd, appendCache_appendAll, map_app. reflexivity.
    + destruct (eqb (substr filename (-4) None) (lit ".map"));
        [|exact Hsame].
      simpl. unfold reconciling. simpl. split_ands; try assumption. now exists dts.
Qed.

Lemma reconcile_reconciling (entry : str * str) :
  In entry (output res) -> preserves (reconciling p0 res r0 d0) (reconcile entry).
Proof.
  intros Hin c Hc. destruct entry as [filename data].
  assert (Hi : inputs (proj (run c)) = inputs p0) by apply Hc.
  unfold inputs in Hi.
  unfold reconcile, bind at 1, gets. cbv zeta. unfold bind.
  destruct (@findOriginal_origin (proj (run c)) filename c)
    as [Hst Hor]; try congruence.
  destruct (findOriginal (proj (run c))
              (getOriginalName (normalizePath filename)) c)
    as [[[[original full]|] | |] c'] eqn:Hfind; simpl in Hst; subst c';
    try exact Hc.
  apply classify_reconciling; [assumption | | assumption].
  now apply Hor.
Qed.

Lemma reconcile_loop :
  preserves (reconciling p0 res r0 d0) (for_each (output res) reconcile).
Proof.
  apply preserves_for_each. intros x Hx. now apply reconcile_reconciling.
Qed.
End Reconciling.

(** *** The emission *)

Section Emitting.
Variable p0 : Project.
Variable outs : list File.t.
Variable maps : JsMap.t str.
Variable r0 : Run.

Lemma emit_emitting (name : str) (file : File.t) :
  In file outs -> preserves (emitting p0 outs maps r0) (emit name file).
Proof.
  intros Hin c Hc. pose proof (emit_cases name file c) as He.
  destruct (withSourceMap _ _ name file) as [g|] eqn:Hg;
    rewrite He; [|exact Hc].
  destruct Hc as (Hi & Hpd & Hdecl & Hrep & Her & Hend & Hout & Hmaps & js
                  & Hjs & Hall & Hpj).
  unfold emitting. simpl.
  split_ands; try assumption.
  eexists (js ++ [_]). split; [|split].
  - rewrite Hjs, <- app_assoc. reflexivity.
  - apply Forall_app. split; [assumption|].
    constructor; [|constructor].
    exists file. split; [assumption|].
    exact (withSourceMap_sameFile _ _ _ _ Hg).
  - rewrite Hpj, appendCache_appendAll, map_app. reflexivity.
Qed.

Lemma markDone_emitting (k : str) : preserves (emitting p0 outs maps r0) (modify (markDone k)).
Proof. apply preserves_modify. intros c Hc. exact Hc. Qed.

Lemma sortedEmit_emitting (res : EngineResult) (fuel : nat) :
  forall name file,
    In file outs ->
    preserves (emitting p0 outs maps r0) (sortedEmit fuel res outs name file).
Proof.
  induction fuel as [|fuel IH]; intros name file Hin.
  - apply preserves_outOfFuel.
  - simpl. apply preserves_bind; [apply preserves_gets|].
    intros d. destruct (includes (normalizePath name) d);
      [apply preserves_ret|].
    apply preserves_bind; [apply markDone_emitting|]. intros _.
    apply preserves_bind; [apply preserves_defined|]. intros tsFile.
    apply preserves_bind; [|intros _; now apply emit_emitting].
    apply preserves_for_each. intros other Hother.
    destruct (includes _ _); [now apply IH | apply preserves_ret].
Qed.

Lemma emitAll_emitting (res : EngineResult) :
  preserves (emitting p0 outs maps r0) (emitAll res).
Proof.
  intros c Hc. assert (Hout : outputJS c = outs) by apply Hc.
  unfold emitAll, bind at 1, gets. unfold bind at 1. rewrite Hout.
  destruct (sortOutput (proj (run c))).
  - apply preserves_for_each; [|exact Hc].
    intros file Hf. now apply sortedEmit_emitting.
  - apply preserves_for_each; [|exact Hc].
    intros file Hf. now apply emit_emitting.
Qed.
End Emitting.

(** *** [compile] as a whole *)

Lemma compile_throws_early (r : Run) :
  engineResult (proj r) = None -> compile r = (Throw, r).
Proof.
  intros H. unfold compile, compileBody, bind, gets. simpl. now rewrite H.
Qed.

Lemma setPreviousOutput_inputs (js dts : option (list OutputFile.t))
    (p : Project) :
  inputs (setPreviousOutput js dts p) = inputs p.
Proof. reflexivity. Qed.

(** What a call of [compile] that reached the engine has done when it
    returns or throws: the scripts pushed are artifacts of the engine's
    output, the declarations too, and both are what the cache holds when
    there was no diagnostic. *)
Lemma compile_spec (r r' : Run) (o : outcome unit) (res : EngineResult) :
  compile r = (o, r') ->
  engineResult (proj r) = Some res ->
  exists outs js dts,
    Forall (jsArtifact (proj r) res) outs /\
    Forall (fun g => exists f, In f outs /\ sameFile g f) js /\
    Forall (dtsArtifact (proj r) res) dts /\
    jsStream r' = jsStream r ++ js /\
    declStream r' = declStream r ++ dts /\
    previousOutputJS (proj r')
    = match errors res with [] => Some (map cachedJS js) | _ :: _ => None end /\
    previousOutputDts (proj r')
    = match errors res with [] => Some (map cachedDts dts) | _ :: _ => None end /\
    inputs (proj r') = inputs (proj r) /\
    reported r' = reported r ++ errors res /\
    engineRuns r' = S (engineRuns r) /\
    ended r' = ended r.
Proof.
  intros Hc Hres.
  set (cache := match errors res with
                | [] => Some (@nil OutputFile.t)
                | _ :: _ => None
                end).
  set (r1 := withProject
               match errors res with
               | [] => setPreviousOutput (Some []) (Some [])
               | _ :: _ => setPreviousOutput None None
               end (report (errors res) (countEngineRun r))).
  set (c1 := {| run := r1; outputJS := []; sourcemaps := JsMap.empty str;
                done := [] |}).
  assert (Hbody : compileBody {| run := r; outputJS := [];
                                 sourcemaps := JsMap.empty str; done := [] |}
                  = (for_each (output res) reconcile ;;; emitAll res) c1).
  { unfold compileBody, bind at 1, gets. cbn [run proj].
    unfold bind at 1. rewrite Hres. reflexivity. }
  unfold compile in Hc. rewrite Hbody in Hc. clear Hbody.
  assert (Hr1 : inputs (proj r1) = inputs (proj r) /\
                previousOutputJS (proj r1) = cache /\
                previousOutputDts (proj r1) = cache /\
                jsStream r1 = jsStream r /\ declStream r1 = declStream r /\
                reported r1 = reported r ++ errors res /\
                engineRuns r1 = S (engineRuns r) /\ ended r1 = ended r).
  { unfold r1, cache. destruct (errors res); now split_ands. }
  destruct Hr1 as (Hi1 & Hpj1 & Hpd1 & Hjs1 & Hdecl1 & Hrep1 & Her1 & Hend1).
  assert (H1 : reconciling (proj r) res r1 [] c1).
  { unfold reconciling, c1. simpl. split_ands; try reflexivity;
      try assumption; try constructor.
    exists []. rewrite app_nil_r. split; [reflexivity|].
    split; [constructor | now rewrite appendAll_nil]. }
  pose proof (@reconcile_loop (proj r) res r1 [] c1 H1) as H2.
  unfold bind at 1 in Hc.
  destruct (for_each (output res) reconcile c1) as [o2 c2] eqn:Hloop.
  simpl in H2.
  destruct H2 as (Hi2 & Hpj2 & Hjs2 & Hrep2 & Her2 & Hend2 & Hd2 & Hout2 & dts
                  & Hdecl2 & Hdts2 & Hpd2).
  assert (Hcache : forall l,
            appendAll l cache
            = match errors res with [] => Some l | _ :: _ => None end).
  { intros l. unfold cache. destruct (errors res); reflexivity. }
  assert (H3 : emitting (proj r) (outputJS c2) (sourcemaps c2) (run c2) c2).
  { unfold emitting. split_ands; try reflexivity; try assumption.
    exists []. rewrite app_nil_r. split; [reflexivity|].
    split; [constructor | now rewrite appendAll_nil]. }
  assert (Hfinal : forall c3,
            emitting (proj r) (outputJS c2) (sourcemaps c2) (run c2) c3 ->
            r' = run c3 ->
            exists outs js dts,
              Forall (jsArtifact (proj r) res) outs /\
              Forall (fun g => exists f, In f outs /\ sameFile g f) js /\
              Forall (dtsArtifact (proj r) res) dts /\
              jsStream r' = jsStream r ++ js /\
              declStream r' = declStream r ++ dts /\
              previousOutputJS (proj r')
              = match errors res with
                | [] => Some (map cachedJS js) | _ :: _ => None end /\
              previousOutputDts (proj r')
              = match errors res with
                | [] => Some (map cachedDts dts) | _ :: _ => None end /\
              inputs (proj r') = inputs (proj r) /\
              reported r' = reported r ++ errors res /\
              engineRuns r' = S (engineRuns r) /\
              ended r' = ended r).
  { intros c3 (Hi3 & Hpd3 & Hdecl3 & Hrep3 & Her3 & Hend3 & Hout3 & Hmaps3
               & js & Hjs3 & Hall3 & Hpj3) ->.
    exists (outputJS c2), js, dts. split_ands; try assumption.
    - rewrite Hjs3, Hjs2, Hjs1. reflexivity.
    - rewrite Hdecl3, Hdecl2, Hdecl1. reflexivity.
    - rewrite Hpj3, Hpj2, Hpj1. apply Hcache.
    - rewrite Hpd3, Hpd2, Hpd1. apply Hcache.
    - congruence.
    - congruence.
    - congruence. }
  destruct o2; try (injection Hc as <- <-; now apply (Hfinal c2)).
  destruct (emitAll res c2) as [o3 c3] eqn:Hemit.
  injection Hc as <- <-.
  apply (Hfinal c3); [|reflexivity].
  pose proof (@emitAll_emitting (proj r) (outputJS c2) (sourcemaps c2)
                (run c2) res c2 H3) as H4.
  now rewrite Hemit in H4.
Qed.

End Compilation.

(** *** Simulations *)

Lemma sim_ret {S T A} (R : S -> T -> Prop) (a : A) : sim R (ret a) (ret a).
Proof. intros s t H. now split. Qed.

Lemma sim_outOfFuel {S T A} (R : S -> T -> Prop) :
  sim R (@outOfFuel S A) (@outOfFuel T A).
Proof. intros s t H. now split. Qed.

Lemma sim_defined {S T A} (R : S -> T -> Prop) (o : option A) :
  sim R (defined o) (defined o).
Proof. destruct o; intros s t H; now split. Qed.

Lemma sim_gets {S T A} (R : S -> T -> Prop) (f : S -> A) (g : T -> A) :
  (forall s t, R s t -> f s = g t) -> sim R (gets f) (gets g).
Proof. intros Hfg s t H. simpl. split; [f_equal; now apply Hfg | exact H]. Qed.

Lemma sim_modify {S T} (R : S -> T -> Prop) (f : S -> S) (g : T -> T) :
  (forall s t, R s t -> R (f s) (g t)) -> sim R (modify f) (modify g).
Proof. intros Hfg s t H. simpl. split; [reflexivity | now apply Hfg]. Qed.

Lemma sim_bind {S T A B} (R : S -> T -> Prop) (m : M S A) (m' : M T A)
    (k : A -> M S B) (k' : A -> M T B) :
  sim R m m' -> (forall a, sim R (k a) (k' a)) -> sim R (bind m k) (bind m' k').
Proof.
  intros Hm Hk s t H. unfold bind. destruct (Hm s t H) as [Ho Hr].
  destruct (m s) as [o s1], (m' t) as [o' t1]. simpl in *. subst o'.
  destruct o as [a | |]; [now apply Hk | now split | now split].
Qed.

Lemma sim_for_each {S T X} (R : S -> T -> Prop) (l : list X)
    (b : X -> M S unit) (b' : X -> M T unit) :
  (forall x, In x l -> sim R (b x) (b' x)) ->
  sim R (for_each l b) (for_each l b').
Proof.
  induction l as [|x r IH]; intros Hb; simpl.
  - apply sim_ret.
  - apply sim_bind; [apply Hb; now left|].
    intros _. apply IH. intros y Hy. apply Hb. now right.
Qed.

(** A rule for a computation that starts by reading the state. *)
Lemma preserves_gets_bind {S A B} (I : S -> Prop) (f : S -> A)
    (k : A -> M S B) :
  (forall s, I s -> I (snd (k (f s) s))) -> preserves I (bind (gets f) k).
Proof. intros H s Hs. unfold bind, gets. now apply H. Qed.

Section Simulation.
Context {E : Engine}.
Variable res : EngineResult.
Variable outs : list File.t.
Variable maps : JsMap.t str.
Variable r0 : Run.

(** *** [sortedEmit] follows [visit] *)

Lemma withSourceMap_inputs (p p' : Project) (name : str) (f : File.t) :
  inputs p = inputs p' ->
  withSourceMap p maps name f = withSourceMap p' maps name f.
Proof.
  intros H. unfold inputs in H. unfold withSourceMap, inputSourceMaps.
  assert (Ho : options p = options p') by congruence.
  assert (Hc : currentFiles p = currentFiles p') by congruence.
  now rewrite Ho, Hc.
Qed.

Lemma emitRun_inputs (name : str) (f : File.t) (r : Run) :
  inputs (proj (emitRun maps name f r)) = inputs (proj r).
Proof. unfold emitRun. destruct (withSourceMap _ _ name f); reflexivity. Qed.

Lemma fold_emitRun_inputs (l : list File.t) :
  forall r,
    inputs (proj (fold_left (fun r f => emitRun maps (nameOf f) f r) l r))
    = inputs (proj r).
Proof.
  induction l as [|f l IH]; intros r; [reflexivity|].
  simpl. rewrite IH. apply emitRun_inputs.
Qed.

Lemma emit_follows (file : File.t) :
  sim (follows outs maps r0) (emit (nameOf file) file)
      (if composes (proj r0) maps file
       then modify (fun t => (fst t, snd t ++ [file]))
       else throw).
Proof.
  intros c t (Hd & Ho & Hm & Hr).
  assert (Hw : withSourceMap (proj (run c)) (sourcemaps c) (nameOf file) file
               = withSourceMap (proj r0) maps (nameOf file) file).
  { rewrite Hm. apply withSourceMap_inputs. rewrite Hr.
    apply fold_emitRun_inputs. }
  pose proof (emit_cases (nameOf file) file c) as He.
  unfold composes. rewrite Hw in He.
  destruct (withSourceMap (proj r0) maps (nameOf file) file) as [g|] eqn:Hg;
    rewrite He.
  - split; [reflexivity|]. unfold follows, modify. simpl.
    split_ands; try assumption.
    rewrite fold_left_app. simpl. rewrite <- Hr. unfold emitRun.
    rewrite <- Hm, Hw. reflexivity.
  - split; [reflexivity|]. unfold follows, throw. simpl. now split_ands.
Qed.

Lemma sortedEmit_follows (fuel : nat) :
  forall file,
    sim (follows outs maps r0)
        (sortedEmit fuel res outs (getOriginalName (File.path file)) file)
        (visit (composes (proj r0) maps) fuel res outs
               (getOriginalName (File.path file)) file).
Proof.
  induction fuel as [|fuel IH]; intros file; [apply sim_outOfFuel|].
  simpl. apply sim_bind.
  - apply sim_gets. intros c t H. apply H.
  - intros d. destruct (includes _ d); [apply sim_ret|].
    apply sim_bind.
    { apply sim_modify. intros c t (Hd & Ho & Hm & Hr).
      unfold follows. simpl. split_ands; try assumption. now f_equal. }
    intros _. apply sim_bind; [apply sim_defined|]. intros tsFile.
    apply sim_bind.
    { apply sim_for_each. intros other _.
      destruct (includes _ _); [apply IH | apply sim_ret]. }
    intros _. apply emit_follows.
Qed.

End Simulation.

Section SortedEmission.
Variable emits : File.t -> bool.
Variable res : EngineResult.
Variable outs : list File.t.

(** *** The names marked only grow *)

Lemma includes_In (x : str) (l : list str) : includes x l = true <-> In x l.
Proof.
  unfold includes. rewrite existsb_exists. split.
  - intros (y & Hy & Heq). apply str_eqb_eq in Heq. now subst.
  - intros H. exists x. split; [assumption | apply str_eqb_refl].
Qed.

Lemma includes_not_In (x : str) (l : list str) :
  includes x l = false <-> ~ In x l.
Proof.
  rewrite <- includes_In. destruct (includes x l); split; congruence.
Qed.

Lemma visit_marks_more (d : list str) (fuel : nat) :
  forall name file,
    preserves (fun t : Trail => incl d (fst t)) (visit emits fuel res outs name file).
Proof.
  induction fuel as [|fuel IH]; intros name file; [apply preserves_outOfFuel|].
  simpl. apply preserves_bind; [apply preserves_gets|].
  intros d'. destruct (includes _ d'); [apply preserves_ret|].
  apply preserves_bind.
  { apply preserves_modify. intros t H x Hx. right. now apply H. }
  intros _. apply preserves_bind; [apply preserves_defined|]. intros tsFile.
  apply preserves_bind.
  { apply preserves_for_each. intros other _.
    destruct (includes _ _); [apply IH | apply preserves_ret]. }
  intros _. destruct (emits file); [|apply preserves_throw].
  apply preserves_modify. intros t H. exact H.
Qed.

(** Every file of the trail is one that [emits] accepts. *)
Lemma visit_emits (fuel : nat) :
  forall name file,
    preserves (fun t : Trail => forall f, In f (snd t) -> emits f = true)
              (visit emits fuel res outs name file).
Proof.
  induction fuel as [|fuel IH]; intros name file; [apply preserves_outOfFuel|].
  simpl. apply preserves_bind; [apply preserves_gets|].
  intros d'. destruct (includes _ d'); [apply preserves_ret|].
  apply preserves_bind.
  { apply preserves_modify. intros t H. exact H. }
  intros _. apply preserves_bind; [apply preserves_defined|]. intros tsFile.
  apply preserves_bind.
  { apply preserves_for_each. intros other _.
    destruct (includes _ _); [apply IH | apply preserves_ret]. }
  intros _. destruct (emits file) eqn:He; [|apply preserves_throw].
  apply preserves_modify. intros t H f Hf. simpl in Hf.
  apply in_app_or in Hf as [Hf | [<- | []]]; [now apply H | exact He].
Qed.

(** *** Termination *)

Lemma unmarked_antitone (l : list File.t) (d d' : list str) :
  incl d d' -> unmarked l d' <= unmarked l d.
Proof.
  intros Hincl. unfold unmarked.
  induction l as [|f r IH]; simpl; [lia|].
  destruct (includes (nameOf f) d') eqn:H'; simpl.
  - destruct (includes (nameOf f) d); simpl; lia.
  - apply includes_not_In in H'.
    assert (H : includes (nameOf f) d = false).
    { apply includes_not_In. intros Hin. apply H'. now apply Hincl. }
    rewrite H. simpl. lia.
Qed.

Lemma unmarked_mark (l : list File.t) (d : list str) (file : File.t) :
  In file l -> ~ In (nameOf file) d ->
  unmarked l (nameOf file :: d) < unmarked l d.
Proof.
  intros Hin Hn. unfold unmarked.
  induction l as [|f r IH]; [destruct Hin|].
  pose proof (@unmarked_antitone r d (nameOf file :: d)
                (fun x Hx => or_intror Hx)) as Hle.
  unfold unmarked in Hle.
  apply includes_not_In in Hn. unfold includes in *.
  destruct Hin as [-> | Hin].
  - simpl. rewrite str_eqb_refl. simpl. rewrite Hn. simpl.
    simpl in Hle. lia.
  - specialize (IH Hin). simpl in *.
    destruct (eqb (nameOf f) (nameOf file)) eqn:Heq; simpl;
      destruct (existsb (eqb (nameOf f)) d); simpl; lia.
Qed.

Lemma visit_step (fuel : nat) (name : str) (file : File.t) (t : Trail) :
  visit emits (S fuel) res outs name file t
  = if includes (normalizePath name) (fst t) then (Ret tt, t)
    else
      match getSourceFile res (normalizePath name) with
      | None => (Throw, (normalizePath name :: fst t, snd t))
      | Some tsFile =>
          match for_each outs (visitReferences emits res outs fuel tsFile)
                         (normalizePath name :: fst t, snd t) with
          | (Ret _, u) =>
              if emits file then (Ret tt, (fst u, snd u ++ [file]))
              else (Throw, u)
          | (Throw, u) => (Throw, u)
          | (OutOfFuel, u) => (OutOfFuel, u)
          end
      end.
Proof.
  cbn [visit]. unfold bind, gets, modify, defined, throw. simpl.
  destruct (includes (normalizePath name) (fst t)); [reflexivity|].
  destruct (getSourceFile res (normalizePath name)) as [tsFile|];
    [|reflexivity].
  simpl. fold (visitReferences emits res outs fuel tsFile).
  destruct (for_each outs (visitReferences emits res outs fuel tsFile) _)
    as [[[]| |] u]; try reflexivity.
  destruct (emits file); reflexivity.
Qed.

Lemma for_each_step {S X} (x : X) (l : list X) (b : X -> M S unit) (s : S) :
  for_each (x :: l) b s
  = match b x s with
    | (Ret _, s') => for_each l b s'
    | (Throw, s') => (Throw, s')
    | (OutOfFuel, s') => (OutOfFuel, s')
    end.
Proof. reflexivity. Qed.

(** With more fuel than unmarked scripts a call of [visit] ends, and it
    returns when the engine knows every script. *)
Lemma visit_ends (fuel : nat) :
  forall file t,
    In file outs -> unmarked outs (fst t) < fuel ->
    fst (visit emits fuel res outs (getOriginalName (File.path file)) file t)
    <> OutOfFuel /\
    ((forall f, In f outs ->
        getSourceFile res (nameOf f) <> None /\ emits f = true) ->
     fst (visit emits fuel res outs (getOriginalName (File.path file)) file t)
     = Ret tt).
Proof.
  induction fuel as [|fuel IH]; intros file t Hin Hfuel; [lia|].
  rewrite visit_step. fold (nameOf file).
  destruct (includes (nameOf file) (fst t)) eqn:Hd;
    [split; [discriminate | reflexivity]|].
  apply includes_not_In in Hd.
  set (t1 := (nameOf file :: fst t, snd t)).
  assert (Hfuel1 : unmarked outs (fst t1) < fuel).
  { pose proof (@unmarked_mark outs (fst t) file Hin Hd). simpl. lia. }
  destruct (getSourceFile res (nameOf file)) as [tsFile|] eqn:Hts.
  2:{ simpl. split; [discriminate|]. intros Hall.
      now destruct (Hall _ Hin). }
  assert (Hloop : forall l u,
            incl l outs -> unmarked outs (fst u) < fuel ->
            fst (for_each l (visitReferences emits res outs fuel tsFile) u)
            <> OutOfFuel /\
            ((forall f, In f outs ->
                getSourceFile res (nameOf f) <> None /\ emits f = true) ->
             fst (for_each l (visitReferences emits res outs fuel tsFile) u)
             = Ret tt)).
  { induction l as [|x l IHl]; intros u Hl Hu;
      [split; [discriminate | reflexivity]|].
    rewrite for_each_step.
    assert (Hx : In x outs) by (apply Hl; now left).
    assert (Hl' : incl l outs) by (intros y Hy; apply Hl; now right).
    destruct (includes (getOriginalName (File.path x))
                       (SourceFile.referencedFiles tsFile)) eqn:Hedge.
    - assert (Hbody : visitReferences emits res outs fuel tsFile x u
                      = visit emits fuel res outs
                              (getOriginalName (File.path x)) x u)
        by (unfold visitReferences; now rewrite Hedge).
      rewrite Hbody. clear Hbody.
      destruct (IH x u Hx Hu) as [Hne Hret].
      pose proof (@visit_marks_more (fst u) fuel
                    (getOriginalName (File.path x)) x u (incl_refl _)) as Hm.
      destruct (visit emits fuel res outs (getOriginalName (File.path x)) x u)
        as [[[] | |] u']; simpl in *.
      + apply IHl; [assumption|].
        pose proof (@unmarked_antitone outs (fst u) (fst u') Hm). lia.
      + split; [discriminate|]. intros Hall. now apply Hret in Hall.
      + congruence.
    - assert (Hbody : visitReferences emits res outs fuel tsFile x u = (Ret tt, u))
        by (unfold visitReferences; now rewrite Hedge).
      rewrite Hbody. now apply IHl. }
  destruct (Hloop outs t1 (incl_refl _) Hfuel1) as [Hne Hret].
  destruct (for_each outs (visitReferences emits res outs fuel tsFile) t1)
    as [[[] | |] u']; simpl in *.
  - destruct (emits file) eqn:He; simpl;
      (split; [discriminate|]); [reflexivity|].
    intros Hall. destruct (Hall _ Hin). congruence.
  - split; [discriminate|]. intros Hall. now apply Hret in Hall.
  - congruence.
Qed.

(** *** Each script at most once *)

Lemma visit_keeps_inProgress (x : str) (fuel : nat) :
  forall file,
    preserves (fun t => inProgress t x)
              (visit emits fuel res outs (getOriginalName (File.path file)) file).
Proof.
  induction fuel as [|fuel IH]; intros file t Hx; [exact Hx|].
  rewrite visit_step. fold (nameOf file).
  destruct (includes (nameOf file) (fst t)) eqn:Hd; [exact Hx|].
  apply includes_not_In in Hd.
  assert (Hne : x <> nameOf file) by (intros ->; apply Hd, Hx).
  assert (H1 : inProgress (nameOf file :: fst t, snd t) x).
  { destruct Hx as [Hin Hnot]. split; [now right | exact Hnot]. }
  destruct (getSourceFile res (nameOf file)) as [tsFile|]; [|exact H1].
  assert (Hloop : preserves (fun t => inProgress t x)
                            (for_each outs (visitReferences emits res outs fuel tsFile))).
  { apply preserves_for_each. intros other _. unfold visitReferences.
    destruct (includes _ _); [apply IH | apply preserves_ret]. }
  specialize (Hloop _ H1).
  destruct (for_each outs (visitReferences emits res outs fuel tsFile) _)
    as [[[] | |] u]; simpl in *; try exact Hloop.
  destruct (emits file); [|exact Hloop].
  destruct Hloop as [Hin Hnot]. split; [exact Hin|].
  simpl. rewrite map_app. intros H. apply in_app_or in H as [H | [H | []]];
    [contradiction | congruence].
Qed.

Lemma visit_trailOk (fuel : nat) :
  forall file,
    In file outs ->
    preserves (trailOk outs)
              (visit emits fuel res outs (getOriginalName (File.path file)) file).
Proof.
  induction fuel as [|fuel IH]; intros file Hfile t Ht; [exact Ht|].
  rewrite visit_step. fold (nameOf file).
  destruct (includes (nameOf file) (fst t)) eqn:Hd; [exact Ht|].
  apply includes_not_In in Hd.
  destruct Ht as (Hincl & Hnames & Hnd).
  set (t1 := (nameOf file :: fst t, snd t)).
  assert (H1 : trailOk outs t1 /\ inProgress t1 (nameOf file)).
  { split; [unfold trailOk, t1; simpl; split_ands; try assumption|].
    - intros y Hy. right. now apply Hnames.
    - split; [now left|]. intros H. apply Hd. now apply Hnames. }
  destruct (getSourceFile res (nameOf file)) as [tsFile|]; [|apply H1].
  assert (Hloop : preserves
                    (fun t => trailOk outs t /\ inProgress t (nameOf file))
                    (for_each outs (visitReferences emits res outs fuel tsFile))).
  { apply preserves_for_each. intros other Hother u [Hu Hp].
    unfold visitReferences.
    destruct (includes _ _); [|now split].
    split; [now apply IH | now apply visit_keeps_inProgress]. }
  specialize (Hloop _ H1).
  destruct (for_each outs (visitReferences emits res outs fuel tsFile) t1)
    as [[[] | |] u]; simpl in *; try apply Hloop.
  destruct (emits file); [|apply Hloop].
  destruct Hloop as [(Hincl' & Hnames' & Hnd') [Hin Hnot]].
  unfold trailOk. simpl. split_ands.
  - intros y Hy. apply in_app_or in Hy as [Hy | [<- | []]]; auto.
  - rewrite map_app. intros y Hy.
    apply in_app_or in Hy as [Hy | [<- | []]]; auto.
  - rewrite map_app. apply NoDup_app; [assumption | |].
    + constructor; [intros [] | constructor].
    + intros y Hy [<- | []]. contradiction.
Qed.

(** *** The order, when no script refers back to itself *)

Lemma snoc_split {A} (l l1 l2 : list A) (x a : A) :
  l ++ [x] = l1 ++ a :: l2 ->
  (l1 = l /\ a = x /\ l2 = []) \/
  (exists l2', l2 = l2' ++ [x] /\ l = l1 ++ a :: l2').
Proof.
  intros H. destruct (@exists_last _ (a :: l2)) as (l2' & y & Hy);
    [discriminate|].
  rewrite Hy, app_assoc in H. apply app_inj_tail in H as [Hl Hx]. subst y.
  destruct l2' as [|b l2'].
  - left. simpl in Hy. injection Hy as -> <-. rewrite app_nil_r in Hl.
    now split_ands.
  - right. simpl in Hy. injection Hy as <- ->. exists l2'. now split.
Qed.

Section Acyclic.
Variable rank : str -> nat.
Hypothesis rank_decreases :
  forall a b, In a outs -> In b outs -> refersTo res a b ->
              rank (nameOf b) < rank (nameOf a).

Lemma visit_order (fuel : nat) :
  forall file t,
    In file outs -> trailOk outs t -> respects res outs (snd t) ->
    (forall x, inProgress t x -> rank (nameOf file) < rank x) ->
    respects res outs
      (snd (snd (visit emits fuel res outs (getOriginalName (File.path file))
                       file t))) /\
    (fst (visit emits fuel res outs (getOriginalName (File.path file)) file t)
     = Ret tt ->
     (forall x,
        inProgress
          (snd (visit emits fuel res outs (getOriginalName (File.path file))
                      file t)) x
        <-> inProgress t x) /\
     In (nameOf file)
        (fst (snd (visit emits fuel res outs
                         (getOriginalName (File.path file)) file t)))).
Proof.
  induction fuel as [|fuel IH]; intros file t Hfile Ht Hres Hrank;
    [split; [exact Hres | discriminate]|].
  rewrite visit_step. fold (nameOf file).
  destruct (includes (nameOf file) (fst t)) eqn:Hd.
  { apply includes_In in Hd. split; [exact Hres|]. intros _.
    split; [reflexivity | exact Hd]. }
  apply includes_not_In in Hd.
  set (n := nameOf file) in *.
  set (t1 := (n :: fst t, snd t)).
  assert (Hn : ~ In n (map nameOf (snd t))).
  { intros H. apply Hd. now apply Ht. }
  destruct (getSourceFile res n) as [tsFile|] eqn:Hts;
    [|split; [exact Hres | discriminate]].
  assert (Hloop : forall l u,
    incl l outs -> trailOk outs u -> respects res outs (snd u) ->
    (forall x, inProgress u x <-> inProgress t x \/ x = n) ->
    respects res outs
      (snd (snd (for_each l (visitReferences emits res outs fuel tsFile) u))) /\
    (fst (for_each l (visitReferences emits res outs fuel tsFile) u) = Ret tt ->
     (forall x,
        inProgress (snd (for_each l (visitReferences emits res outs fuel tsFile) u)) x
        <-> inProgress t x \/ x = n) /\
     incl (fst u) (fst (snd (for_each l (visitReferences emits res outs fuel tsFile) u))) /\
     forall b, In b l ->
       includes (getOriginalName (File.path b))
                (SourceFile.referencedFiles tsFile) = true ->
       In (nameOf b)
          (fst (snd (for_each l (visitReferences emits res outs fuel tsFile) u))))).
  { induction l as [|b l IHl]; intros u Hl Hu Hru Hpu.
    { split; [exact Hru|]. intros _. split; [exact Hpu|].
      split; [apply incl_refl | intros ? []]. }
    assert (Hb : In b outs) by (apply Hl; now left).
    assert (Hl' : incl l outs) by (intros y Hy; apply Hl; now right).
    rewrite for_each_step.
    destruct (includes (getOriginalName (File.path b))
                       (SourceFile.referencedFiles tsFile)) eqn:Hedge.
    - assert (Hbody : visitReferences emits res outs fuel tsFile b u
                      = visit emits fuel res outs
                              (getOriginalName (File.path b)) b u)
        by (unfold visitReferences; now rewrite Hedge).
      rewrite Hbody. clear Hbody.
      assert (Hrb : rank (nameOf b) < rank n).
      { apply rank_decreases; [assumption | assumption|].
        exists tsFile. now split. }
      destruct (IH b u Hb Hu Hru) as [Hr' Hret].
      { intros x Hx. apply Hpu in Hx as [Hx | ->]; [|exact Hrb].
        specialize (Hrank x Hx). lia. }
      pose proof (@visit_trailOk fuel b Hb u Hu) as Hu'.
      pose proof (@visit_marks_more (fst u) fuel
                    (getOriginalName (File.path b)) b u (incl_refl _))
        as Hm.
      destruct (visit emits fuel res outs (getOriginalName (File.path b)) b u)
        as [[[] | |] u']; simpl in *;
        try (split; [exact Hr' | discriminate]).
      destruct (Hret eq_refl) as [Hp' Hin'].
      destruct (IHl u' Hl' Hu' Hr') as [Hr'' Hret''].
      { intros x. rewrite Hp'. apply Hpu. }
      split; [exact Hr''|]. intros Hok.
      destruct (Hret'' Hok) as (Hp'' & Hm'' & Hall'').
      split; [exact Hp''|]. split.
      + intros y Hy. apply Hm'', Hm, Hy.
      + intros b' [<- | Hb'] Hinc; [now apply Hm'' | now apply Hall''].
    - assert (Hbody : visitReferences emits res outs fuel tsFile b u = (Ret tt, u))
        by (unfold visitReferences; now rewrite Hedge).
      rewrite Hbody. clear Hbody.
      destruct (IHl u Hl' Hu Hru Hpu) as [Hr'' Hret''].
      split; [exact Hr''|]. intros Hok.
      destruct (Hret'' Hok) as (Hp'' & Hm'' & Hall'').
      split; [exact Hp''|]. split; [exact Hm''|].
      intros b' [<- | Hb'] Hinc; [congruence | now apply Hall'']. }
  destruct (Hloop outs t1 (incl_refl _)) as [Hr Hret].
  { destruct Ht as (H1 & H2 & H3). unfold trailOk, t1. simpl.
    split_ands; try assumption. intros y Hy. right. now apply H2. }
  { exact Hres. }
  { intros x. unfold inProgress, t1. simpl. split.
    - intros [[<- | Hin] Hnot]; [now right | left; now split].
    - intros [[Hin Hnot] | ->]; (split; [auto | assumption]). }
  pose proof (@preserves_for_each _ _ (trailOk outs) outs
                (visitReferences emits res outs fuel tsFile)) as Hok.
  assert (Hu : trailOk outs
                 (snd (for_each outs (visitReferences emits res outs fuel tsFile) t1))).
  { apply Hok.
    - intros other Hother. unfold visitReferences.
      destruct (includes _ _); [now apply visit_trailOk | apply preserves_ret].
    - destruct Ht as (H1 & H2 & H3). unfold trailOk, t1. simpl.
      split_ands; try assumption. intros y Hy. right. now apply H2. }
  destruct (for_each outs (visitReferences emits res outs fuel tsFile) t1)
    as [[[] | |] u]; simpl in *;
    try (split; [exact Hr | discriminate]).
  destruct (emits file); [|split; [exact Hr | discriminate]].
  destruct (Hret eq_refl) as (Hp & Hm & Hall).
  assert (Hnu : In n (fst u)) by (apply Hm; now left).
  split.
  - (* the new order respects the references *)
    intros l1 a l2 Heq b Hb Hab.
    apply snoc_split in Heq as [(-> & -> & ->) | (l2' & -> & Heq)].
    + destruct Hab as (ts' & Hts' & Hinc).
      fold n in Hts'. rewrite Hts in Hts'. injection Hts' as <-.
      pose proof (Hall b Hb Hinc) as Hbu.
      destruct (in_dec (list_eq_dec ascii_dec) (nameOf b)
                       (map nameOf (snd u))) as [Hyes | Hno];
        [exact Hyes|].
      exfalso.
      assert (Hrb : rank (nameOf b) < rank n).
      { apply rank_decreases; [assumption | assumption|].
        exists tsFile. now split. }
      destruct (proj1 (Hp (nameOf b)) (conj Hbu Hno)) as [Hx | Hx].
      * specialize (Hrank _ Hx). lia.
      * rewrite Hx in Hrb. lia.
    + now apply (Hr l1 a l2' Heq b).
  - intros _. split; [|exact Hnu].
    intros x. unfold inProgress at 1. simpl. rewrite map_app. simpl.
    split.
    + intros [Hin Hnot].
      assert (Hx : inProgress u x).
      { split; [exact Hin|]. intros H. apply Hnot.
        apply in_or_app. now left. }
      apply Hp in Hx as [Hx | ->]; [exact Hx|].
      exfalso. apply Hnot. apply in_or_app. right. now left.
    + intros Hx. assert (Hne : x <> n) by (intros ->; apply Hd, Hx).
      destruct (proj2 (Hp x) (or_introl Hx)) as [Hin Hnot].
      split; [exact Hin|]. intros H.
      apply in_app_or in H as [H | [H | []]];
        [contradiction | apply Hne; symmetry; exact H].
Qed.
End Acyclic.

(** *** The whole loop *)

Lemma unmarked_bound (l : list File.t) (d : list str) :
  unmarked l d < emitFuel l.
Proof.
  unfold unmarked, emitFuel.
  pose proof (filter_length_le (fun f => negb (includes (nameOf f) d)) l).
  lia.
Qed.

Lemma visitAll_ends (l : list File.t) :
  forall t,
    incl l outs ->
    fst (for_each l (fun file =>
           visit emits (emitFuel outs) res outs
                 (getOriginalName (File.path file)) file) t) <> OutOfFuel /\
    ((forall f, In f outs ->
        getSourceFile res (nameOf f) <> None /\ emits f = true) ->
     fst (for_each l (fun file =>
            visit emits (emitFuel outs) res outs
                  (getOriginalName (File.path file)) file) t) = Ret tt).
Proof.
  induction l as [|x l IH]; intros t Hl;
    [split; [discriminate | reflexivity]|].
  rewrite for_each_step.
  assert (Hx : In x outs) by (apply Hl; now left).
  assert (Hl' : incl l outs) by (intros y Hy; apply Hl; now right).
  destruct (@visit_ends (emitFuel outs) x t Hx (unmarked_bound outs (fst t)))
    as [Hne Hret].
  destruct (visit emits (emitFuel outs) res outs (getOriginalName (File.path x)) x t)
    as [[[] | |] t']; simpl in *.
  - now apply IH.
  - split; [discriminate|]. intros Hall. now apply Hret in Hall.
  - congruence.
Qed.

Lemma visitAll_trailOk (t : Trail) :
  trailOk outs t -> trailOk outs (snd (visitAll emits res outs t)).
Proof.
  apply preserves_for_each. intros file Hfile. now apply visit_trailOk.
Qed.

Section AcyclicLoop.
Variable rank : str -> nat.
Hypothesis rank_decreases :
  forall a b, In a outs -> In b outs -> refersTo res a b ->
              rank (nameOf b) < rank (nameOf a).

Lemma visitAll_order (l : list File.t) :
  forall t,
    incl l outs -> trailOk outs t -> respects res outs (snd t) ->
    (forall x, ~ inProgress t x) ->
    respects res outs
      (snd (snd (for_each l (fun file =>
         visit emits (emitFuel outs) res outs
               (getOriginalName (File.path file)) file) t))) /\
    (fst (for_each l (fun file =>
            visit emits (emitFuel outs) res outs
                  (getOriginalName (File.path file)) file) t) = Ret tt ->
     (forall x,
        ~ inProgress
            (snd (for_each l (fun file =>
               visit emits (emitFuel outs) res outs
                     (getOriginalName (File.path file)) file) t)) x) /\
     forall b, In b l ->
       In (nameOf b)
          (fst (snd (for_each l (fun file =>
             visit emits (emitFuel outs) res outs
                   (getOriginalName (File.path file)) file) t)))).
Proof.
  induction l as [|b l IH]; intros t Hl Ht Hr Hp.
  { split; [exact Hr|]. intros _. split; [exact Hp | intros ? []]. }
  assert (Hb : In b outs) by (apply Hl; now left).
  assert (Hl' : incl l outs) by (intros y Hy; apply Hl; now right).
  rewrite for_each_step.
  destruct (@visit_order rank rank_decreases (emitFuel outs) b t Hb Ht Hr)
    as [Hr' Hret].
  { intros x Hx. now apply Hp in Hx. }
  pose proof (@visit_trailOk (emitFuel outs) b Hb t Ht) as Ht'.
  destruct (visit emits (emitFuel outs) res outs
                  (getOriginalName (File.path b)) b t)
    as [[[] | |] t'] eqn:Hv; simpl in *;
    try (split; [exact Hr' | discriminate]).
  destruct (Hret eq_refl) as [Hp' Hin'].
  destruct (IH t' Hl' Ht' Hr') as [Hr'' Hret''].
  { intros x Hx. apply Hp' in Hx. now apply Hp in Hx. }
  split; [exact Hr''|]. intros Hok.
  destruct (Hret'' Hok) as [Hp'' Hall''].
  split; [exact Hp''|].
  intros b' [<- | Hb']; [|now apply Hall''].
  pose proof (@preserves_for_each _ _ (fun u : Trail => incl (fst t') (fst u))
                l (fun file =>
                     visit emits (emitFuel outs) res outs
                           (getOriginalName (File.path file)) file)) as Hm.
  apply Hm; [|apply incl_refl | exact Hin'].
  intros file _. apply visit_marks_more.
Qed.
End AcyclicLoop.

End SortedEmission.

Section EmitAll.
Context {E : Engine}.

Lemma fold_emitRun (maps : JsMap.t str) (order : list File.t) :
  forall r,
    (forall f, In f order -> composes (proj r) maps f = true) ->
    exists js,
      jsStream (fold_left (fun r f => emitRun maps (nameOf f) f r) order r)
      = jsStream r ++ js /\
      map Some js
      = map (fun f => withSourceMap (proj r) maps (nameOf f) f) order.
Proof.
  induction order as [|f order IH]; intros r Hall.
  - exists []. simpl. now rewrite app_nil_r.
  - pose proof (Hall f (or_introl eq_refl)) as Hf. unfold composes in Hf.
    destruct (withSourceMap (proj r) maps (nameOf f) f) as [g|] eqn:Hg;
      [|discriminate].
    pose proof (emitRun_inputs maps (nameOf f) f r) as Hi.
    destruct (IH (emitRun maps (nameOf f) f r)) as (js & Hjs & Hmap).
    { intros f' Hf'. unfold composes.
      rewrite (withSourceMap_inputs maps (nameOf f') f' Hi).
      apply Hall. now right. }
    exists (g :: js). simpl. rewrite Hjs. split.
    + unfold emitRun. rewrite Hg. simpl. rewrite <- app_assoc. reflexivity.
    + rewrite Hg, Hmap. f_equal. apply map_ext. intros f'.
      apply (withSourceMap_inputs maps (nameOf f') f' Hi).
Qed.

Lemma NoDup_names_paths (l : list File.t) :
  NoDup (map nameOf l) -> NoDup (map File.path l).
Proof.
  intros H. apply (NoDup_map_inv (fun p => normalizePath (getOriginalName p))).
  now rewrite map_map.
Qed.

Lemma emitAll_unfold (res : EngineResult) (c : Compiling) :
  emitAll res c
  = if sortOutput (proj (run c)) then
      for_each (outputJS c) (fun file =>
        sortedEmit (emitFuel (outputJS c)) res (outputJS c)
                   (getOriginalName (File.path file)) file) c
    else
      for_each (outputJS c) (fun file =>
        emit (normalizePath (getOriginalName (File.path file))) file) c.
Proof.
  unfold emitAll, bind, gets. simpl.
  destruct (sortOutput (proj (run c))); reflexivity.
Qed.

(** The sorted emission of [compile], in terms of the files that [emit]
    pushed. *)
Lemma emitAll_sorted (res : EngineResult) (c : Compiling) :
  sortOutput (proj (run c)) = true ->
  fst (emitAll res c)
  = fst (visitAll (composes (proj (run c)) (sourcemaps c)) res (outputJS c)
                  (done c, [])) /\
  exists js,
    jsStream (run (snd (emitAll res c))) = jsStream (run c) ++ js /\
    map Some js
    = map (emitted c)
          (snd (snd (visitAll (composes (proj (run c)) (sourcemaps c)) res
                              (outputJS c) (done c, [])))).
Proof.
  intros Hsort. rewrite emitAll_unfold, Hsort.
  set (emits := composes (proj (run c)) (sourcemaps c)).
  pose proof (@sim_for_each _ _ _
                (follows (outputJS c) (sourcemaps c) (run c)) (outputJS c)
                (fun file => sortedEmit (emitFuel (outputJS c)) res (outputJS c)
                               (getOriginalName (File.path file)) file)
                (fun file => visit emits (emitFuel (outputJS c)) res
                               (outputJS c)
                               (getOriginalName (File.path file)) file))
    as Hsim.
  destruct (Hsim (fun x _ => @sortedEmit_follows E res (outputJS c)
                               (sourcemaps c) (run c)
                               (emitFuel (outputJS c)) x)
                 c (done c, [])) as [Ho (_ & _ & _ & Hrun)].
  { unfold follows. now split_ands. }
  unfold visitAll. split; [exact Ho|].
  rewrite Hrun. apply fold_emitRun.
  apply (@preserves_for_each _ _
           (fun t : Trail => forall f, In f (snd t) -> emits f = true)
           (outputJS c)
           (fun file => visit emits (emitFuel (outputJS c)) res (outputJS c)
                          (getOriginalName (File.path file)) file)).
  - intros file _. apply visit_emits.
  - intros f [].
Qed.

End EmitAll.

(** *** Paths with an extension *)

Lemma split_last (sep : ascii) (x : str) :
  exists init lst,
    Path.split sep x = init ++ [lst] /\
    forall e, ~ In sep e -> Path.split sep (x ++ e) = init ++ [lst ++ e].
Proof.
  induction x as [|c x (init & lst & Hs & He)].
  - exists [], []. split; [reflexivity|]. intros e Hne. now apply split_no_sep.
  - simpl. destruct (Ascii.eqb c sep).
    + exists ([] :: init), lst. split; [now rewrite Hs|].
      intros e Hne. now rewrite He.
    + rewrite Hs. destruct init as [|h t].
      * exists [], (c :: lst). split; [reflexivity|].
        intros e Hne. now rewrite He.
      * exists ((c :: h) :: t), lst. split; [reflexivity|].
        intros e Hne. now rewrite He.
Qed.

Lemma scan_snoc (parts : list str) (t : str) :
  t <> lit "." -> t <> lit ".." ->
  Path.normalizeArray_scan (parts ++ [t])
  = (fst (Path.normalizeArray_scan parts) ++ [t],
     snd (Path.normalizeArray_scan parts)).
Proof.
  intros Hd Hdd. apply str_eqb_neq in Hd, Hdd.
  induction parts as [|a parts IH].
  - simpl app. rewrite scan_cons. simpl Path.normalizeArray_scan.
    now rewrite Hd, Hdd.
  - change ((a :: parts) ++ [t]) with (a :: (parts ++ [t])).
    rewrite !scan_cons, IH.
    destruct (Path.normalizeArray_scan parts) as [k u]. cbn [fst snd].
    destruct (eqb a (lit ".")); [reflexivity|].
    destruct (eqb a (lit "..")); [reflexivity|].
    destruct u; reflexivity.
Qed.

Lemma join_snoc (parts : list str) (t : str) :
  Path.join (lit "/") (parts ++ [t])
  = flat_map (fun b => b ++ lit "/") parts ++ t.
Proof.
  induction parts as [|b parts IH]; [reflexivity|].
  change ((b :: parts) ++ [t]) with (b :: (parts ++ [t])).
  rewrite join_cons by (destruct parts; discriminate).
  rewrite IH. simpl. now rewrite <- !app_assoc.
Qed.

(** The normalized form of a path that ends in an extension ends in the
    same extension, after a prefix that does not depend on it. *)
Lemma normalize_extension (x : str) :
  exists y, forall e,
    3 <= length e -> ~ In slash e -> Path.normalize (x ++ e) = y ++ e.
Proof.
  destruct (split_last slash x) as (init & lst & Hs & He).
  exists ((if Path.isAbsolute x then lit "/" else [])
          ++ flat_map (fun b => b ++ lit "/")
               (Path.normalizeArray (filter Path.nonEmpty init)
                                    (negb (Path.isAbsolute x)))
          ++ lst).
  intros e Hlen Hne.
  assert (Hnil : e <> []) by (intros ->; simpl in Hlen; lia).
  assert (Habs : Path.isAbsolute (x ++ e) = Path.isAbsolute x).
  { destruct x as [|c x]; [|reflexivity]. simpl.
    destruct e as [|c e]; [congruence|]. simpl.
    apply Ascii.eqb_neq. intros ->. apply Hne. now left. }
  assert (Htr : Path.trailingSlash (x ++ e) = false).
  { destruct (exists_last Hnil) as (e' & c & ->).
    rewrite app_assoc, trailingSlash_snoc. apply Ascii.eqb_neq.
    intros ->. apply Hne. apply in_or_app. right. now left. }
  assert (Hseg : filter Path.nonEmpty (Path.split slash (x ++ e))
                 = filter Path.nonEmpty init ++ [lst ++ e]).
  { rewrite He by assumption. rewrite filter_app. simpl.
    destruct (lst ++ e) eqn:Hle; [|reflexivity].
    apply app_eq_nil in Hle as [_ Hle]. congruence. }
  assert (Hlong : forall s : str, 3 <= length (lst ++ e) ->
                    length s <= 2 -> lst ++ e <> s).
  { intros s H1 H2 Heq. rewrite Heq in H1. lia. }
  assert (Hl : 3 <= length (lst ++ e)) by (rewrite length_app; lia).
  assert (Harr : Path.normalizeArray
                   (filter Path.nonEmpty init ++ [lst ++ e])
                   (negb (Path.isAbsolute x))
                 = Path.normalizeArray (filter Path.nonEmpty init)
                                       (negb (Path.isAbsolute x))
                   ++ [lst ++ e]).
  { unfold Path.normalizeArray. rewrite scan_snoc.
    - destruct (Path.normalizeArray_scan (filter Path.nonEmpty init))
        as [k u]. simpl.
      destruct (negb (Path.isAbsolute x)); [now rewrite app_assoc | reflexivity].
    - apply Hlong; [assumption | simpl; lia].
    - apply Hlong; [assumption | simpl; lia]. }
  unfold Path.normalize. rewrite Habs, Htr, Hseg, Harr, join_snoc.
  set (n := flat_map (fun b => b ++ lit "/") _).
  assert (Hnon : Path.nonEmpty (n ++ lst ++ e) = true).
  { destruct (n ++ lst ++ e) eqn:Hq; [|reflexivity].
    apply app_eq_nil in Hq as [_ Hq]. apply app_eq_nil in Hq as [_ Hq].
    congruence. }
  rewrite Hnon. cbn [negb andb]. rewrite Hnon. cbn [andb].
  now rewrite <- !app_assoc.
Qed.

Lemma normalizePath_extension (x : str) :
  exists y, forall e,
    3 <= length e -> ~ In slash e ->
    normalizePath (x ++ e) = y ++ toLowerCase e.
Proof.
  destruct (normalize_extension x) as (y & Hy).
  exists (toLowerCase y). intros e H1 H2. unfold normalizePath.
  now rewrite Hy, toLowerCase_app.
Qed.

(** *** [getOriginalName] on the artifact names *)

Lemma rev_eq_app {A} (l : list A) (a b c : A) (t : list A) :
  rev (l ++ [a; b; c]) = rev t -> l ++ [a; b; c] = t.
Proof. intros H. rewrite <- (rev_involutive t), <- H. now rewrite rev_involutive. Qed.

Lemma map_alternative (t : str) :
  match t with
  | [c1; c2; c3; c; c5; c6; c7] =>
      eqb [c1; c2; c3] (lit ".js") && negb (is_line_terminator c) &&
      eqb [c5; c6; c7] (lit "map")
  | _ => false
  end = true ->
  exists t', t = t' ++ ["p"%char].
Proof.
  destruct t as [|c1 [|c2 [|c3 [|c [|c5 [|c6 [|c7 [|c8 t]]]]]]]];
    try discriminate.
  intros H. apply andb_true_iff in H as [_ H]. apply str_eqb_eq in H.
  injection H as -> -> ->. now exists [c1; c2; c3; c; "m"%char; "a"%char].
Qed.

Lemma extension_matches_long (c : ascii) (y e : str) :
  e = lit ".js" \/ e = lit ".d.ts" ->
  extension_matches (c :: y ++ e) = false.
Proof.
  intros He. unfold extension_matches.
  assert (Hlen : 3 <= length e) by (destruct He as [-> | ->]; simpl; lia).
  assert (Hs : exists e', e = e' ++ ["s"%char]).
  { destruct He as [-> | ->];
      [now exists (lit ".j") | now exists (lit ".d.t")]. }
  assert (H5 : eqb (c :: y ++ e) (lit ".d.ts") = false).
  { apply str_eqb_neq. intros H. apply (f_equal (@rev ascii)) in H.
    change (c :: y ++ e) with ((c :: y) ++ e) in H. rewrite rev_app_distr in H.
    destruct He as [-> | ->]; simpl in H; [discriminate|].
    injection H as H. apply (f_equal (@length ascii)) in H.
    rewrite length_app, length_rev in H. simpl in H. lia. }
  assert (H3 : eqb (c :: y ++ e) (lit ".js") = false).
  { apply str_eqb_neq. intros H. apply (f_equal (@length ascii)) in H.
    simpl in H. rewrite length_app in H. lia. }
  rewrite H5, H3. cbn [orb].
  match goal with |- ?m = false => destruct m eqn:Hm; [|reflexivity] end.
  exfalso. apply (map_alternative (c :: y ++ e)) in Hm as (t' & Ht').
  destruct Hs as (e' & ->).
  change (c :: y ++ e' ++ ["s"%char]) with ((c :: y) ++ e' ++ ["s"%char]) in Ht'.
  rewrite app_assoc in Ht'. apply app_inj_tail in Ht' as [_ Ht'].
  discriminate.
Qed.

Lemma getOriginalName_artifact (y e : str) :
  e = lit ".js" \/ e = lit ".d.ts" ->
  getOriginalName (y ++ e) = y ++ lit ".ts".
Proof.
  intros He. induction y as [|c y IH].
  - destruct He as [-> | ->]; reflexivity.
  - change ((c :: y) ++ e) with (c :: y ++ e).
    cbn [getOriginalName]. rewrite extension_matches_long by assumption.
    now rewrite IH.
Qed.

(** *** Names without their extension *)

Lemma lastIndexOf_extension (x e : str) :
  ~ In dot e ->
  lastIndexOf (x ++ dot :: e) dot None = Z.of_nat (length x).
Proof.
  intros He. unfold lastIndexOf.
  pose proof (lastIndexOf_scan_spec dot (x ++ dot :: e) 0
                (len (x ++ dot :: e)) (-1)) as H.
  simpl in H. unfold len in *.
  assert (Hnth : nth (length x) (x ++ dot :: e) zero = dot).
  { rewrite app_nth2, Nat.sub_diag by lia. reflexivity. }
  assert (Hlen : length (x ++ dot :: e) = length x + S (length e)).
  { rewrite length_app. reflexivity. }
  destruct H as [[Hr Hno] | (k & Hk & Hr & Hle & Hk' & Hmax)].
  - exfalso. apply (Hno (length x)); [lia | lia | assumption].
  - rewrite Hr. simpl. f_equal.
    destruct (Nat.lt_trichotomy k (length x)) as [Hlt | [Heq | Hgt]];
      [|assumption|].
    + exfalso. apply (Hmax (length x)); [lia | lia | assumption].
    + exfalso. apply He. rewrite app_nth2 in Hk' by lia.
      destruct (k - length x) as [|j] eqn:Hj; [lia|]. simpl in Hk'.
      rewrite <- Hk'. apply nth_In. lia.
Qed.

Lemma withoutExtension_extension (x e : str) :
  ~ In dot e -> withoutExtension (x ++ dot :: e) = x.
Proof.
  intros He. unfold withoutExtension.
  rewrite lastIndexOf_extension by assumption.
  destruct (Z.eqb_spec (Z.of_nat (length x)) (-1)) as [H | _]; [lia|].
  rewrite substring_0 by (rewrite length_app; lia).
  rewrite firstn_app, firstn_all, Nat.sub_diag. simpl. apply app_nil_r.
Qed.

Lemma ts_no_dot : ~ In dot (lit "ts").
Proof. intros [H | [H | []]]; discriminate. Qed.

(** An extension that is [.ts] in some letter case: a dot and two
    letters. *)
Lemma typescript_extension (ext : str) :
  toLowerCase ext = lit ".ts" ->
  exists c2 c3,
    ext = dot :: [c2; c3] /\ ~ In dot [c2; c3] /\
    ~ In slash (dot :: [c2; c3]).
Proof.
  destruct ext as [|c1 [|c2 [|c3 [|c4 ext]]]]; try discriminate.
  intros H. injection H as H1 H2 H3. apply lower_char_dot in H1. subst c1.
  exists c2, c3. split; [reflexivity|].
  assert (H2' : c2 <> dot /\ c2 <> slash)
    by (split; intros ->; discriminate H2).
  assert (H3' : c3 <> dot /\ c3 <> slash)
    by (split; intros ->; discriminate H3).
  split.
  - intros [H | [H | []]]; [now apply H2' | now apply H3'].
  - intros [H | [H | [H | []]]];
      [discriminate H | now apply H2' | now apply H3'].
Qed.

(** *** The replay of cached records *)

Lemma for_each_step_run {X} (x : X) (l : list X) (b : X -> M Run unit)
    (r : Run) :
  for_each (x :: l) b r
  = match b x r with
    | (Ret _, r') => for_each l b r'
    | (Throw, r') => (Throw, r')
    | (OutOfFuel, r') => (OutOfFuel, r')
    end.
Proof. reflexivity. Qed.

Section Replay.
Context {E : Engine}.
Variable p : Project.
Variable ext : str.
Variable push : File.t -> Run -> Run.
Variable withMap : bool.
Variable stream other : Run -> list File.t.
Hypothesis push_stream : forall f r, stream (push f r) = stream r ++ [f].
Hypothesis push_other : forall f r, other (push f r) = other r.
Hypothesis push_frame :
  forall f r, proj (push f r) = proj r /\
              engineRuns (push f r) = engineRuns r /\
              reported (push f r) = reported r.

Lemma replay_all (l : list OutputFile.t) :
  Forall (replayable p ext) l ->
  forall r,
    exists r',
      for_each l (replayOne p ext push withMap) r = (Ret tt, r') /\
      map pathAndBytes (stream r')
      = map pathAndBytes (stream r)
        ++ map (fun o => (OutputFile.filename o, OutputFile.content o)) l /\
      other r' = other r /\ proj r' = proj r /\
      engineRuns r' = engineRuns r /\ reported r' = reported r.
Proof.
  induction 1 as [|o l (original & f & Hget & Hf & Hname) _ IH]; intros r.
  - exists r. simpl. rewrite app_nil_r. now split_ands.
  - rewrite for_each_step_run.
    unfold replayOne at 1. rewrite Hget. unfold bind, defined.
    rewrite Hf. simpl.
    match goal with
    | |- context [for_each l _ (push ?g r)] =>
        destruct (IH (push g r)) as (r' & Hloop & Hs & Ho & Hp & He & Hrep);
        pose proof (push_frame g r) as (Hp1 & He1 & Hr1);
        exists r'; rewrite Hloop
    end.
    split; [reflexivity|]. rewrite Hs, push_stream, map_app, Ho, push_other.
    simpl. unfold pathAndBytes at 3. simpl. rewrite Hname, <- app_assoc.
    split_ands; try reflexivity; congruence.
Qed.
End Replay.

(** *** Replay after an unchanged generation *)

Section Idempotence.
Context {E : Engine}.

Lemma lazyCompile_unfold (r : Run) :
  canReplay (proj r) = true ->
  lazyCompile r
  = match for_each (match previousOutputJS (proj r) with
                    | Some l => l | None => [] end)
                   (replayOne (proj r) (lit ".js") pushJs true) r with
    | (Ret _, r1) =>
        match for_each (match previousOutputDts (proj r) with
                        | Some l => l | None => [] end)
                       (replayOne (proj r) (lit ".d.ts") pushDecl false) r1
        with
        | (Ret _, r2) => (Ret true, r2)
        | (Throw, r2) => (Throw, r2)
        | (OutOfFuel, r2) => (OutOfFuel, r2)
        end
    | (Throw, r1) => (Throw, r1)
    | (OutOfFuel, r1) => (OutOfFuel, r1)
    end.
Proof.
  intros H. unfold lazyCompile, bind, gets. rewrite H.
  destruct (for_each _ (replayOne (proj r) (lit ".js") pushJs true) r)
    as [[[] | |] r1]; reflexivity.
Qed.

Variable p0 : Project.
Variable files : list File.t.
Hypothesis per_file : out (options p0) = None.
Hypothesis same_content :
  forall f g, In f files -> In g files -> key f = key g ->
              File.contents f = File.contents g.
Hypothesis typescript :
  forall f, In f files -> (exists y, key f = y ++ lit ".ts") ->
            typescriptPath (File.path f).

(** The current file an artifact of the first generation is named after:
    its path ends in [.ts] as written, and any later generation of the
    same files holds the same file under its key. *)
Lemma artifact_original (p1 q : Project) (ext : str) (full : str)
    (original : FileData.t) (filename x : str) :
  ext = lit ".js" \/ ext = lit ".d.ts" ->
  filename = x ++ ext ->
  currentFiles p1 = currentFiles (ingest p0 files) ->
  options p1 = options p0 ->
  origin p1 filename original full ->
  exists fa stem e d,
    FileData.file original = Some fa /\
    full = stem ++ e /\ File.path fa = stem ++ e /\
    withoutExtension full = stem /\ length e = 3 /\
    JsMap.get (getOriginalName (normalizePath (stem ++ ext)))
              (currentFiles (ingest q files)) = Some d /\
    FileData.file d = Some fa /\
    FileData.originalFilename d = stem ++ e.
Proof.
  intros Hext Hx Hcur Hopt Hor. unfold origin in Hor.
  rewrite Hopt, per_file, Hcur in Hor. destruct Hor as [Hget ->].
  destruct (ingest_entries p0 files _ Hget)
    as (fa & Hfa & Hkey & Hname & _ & Hfile).
  assert (Hext' : forall y, getOriginalName (y ++ ext) = y ++ lit ".ts")
    by (intros y; now apply getOriginalName_artifact).
  assert (Hlow : toLowerCase ext = ext /\ 3 <= length ext /\
                 ~ In slash ext).
  { destruct Hext as [-> | ->]; (split; [reflexivity|]);
      (split; [simpl; lia|]).
    - intros [H | [H | [H | []]]]; discriminate.
    - intros [H | [H | [H | [H | [H | []]]]]]; discriminate. }
  destruct Hlow as (Hlow & Hlen & Hslash).
  assert (Hts : exists y, key fa = y ++ lit ".ts").
  { destruct (normalizePath_extension x) as (y0 & Hy0).
    exists y0. rewrite <- Hkey, Hx, (Hy0 ext Hlen Hslash), Hlow.
    apply Hext'. }
  destruct (typescript fa Hfa Hts) as (stem & e & Hstem & Hlowe).
  destruct (typescript_extension e Hlowe) as (c2 & c3 & -> & Hdot & Hsl).
  destruct (normalizePath_extension stem) as (y & Hy).
  assert (Hk : key fa = y ++ lit ".ts").
  { unfold key. rewrite Hstem, <- Hlowe.
    apply (Hy [dot; c2; c3]); [simpl; lia | exact Hsl]. }
  assert (Hfound : getOriginalName (normalizePath (stem ++ ext)) = key fa).
  { rewrite (Hy ext Hlen Hslash), Hlow, Hext'. now symmetry. }
  pose proof (ingest_stored q p0 files (key fa)) as Hst.
  rewrite <- Hkey, Hget in Hst. rewrite Hkey in Hst.
  destruct (JsMap.get (key fa) (currentFiles (ingest q files))) as [d|] eqn:Hd;
    [|discriminate].
  simpl in Hst. injection Hst as Hf Hn _.
  exists fa, stem, [dot; c2; c3], d. split_ands.
  - exact Hfile.
  - now rewrite Hname.
  - exact Hstem.
  - rewrite Hname, Hstem. now apply withoutExtension_extension.
  - reflexivity.
  - now rewrite Hfound.
  - now rewrite Hf.
  - now rewrite Hn, Hname.
Qed.

(** An artifact named after a current file of the first generation is
    found again, under the same name, in any later generation made of the
    same files. *)
Lemma artifact_replayable (p1 q : Project) (ext : str) (full : str)
    (original : FileData.t) (filename x : str) :
  ext = lit ".js" \/ ext = lit ".d.ts" ->
  filename = x ++ ext ->
  currentFiles p1 = currentFiles (ingest p0 files) ->
  options p1 = options p0 ->
  origin p1 filename original full ->
  replayable (ingest q files) ext
    {| OutputFile.filename := withoutExtension full ++ ext;
       OutputFile.content := [];
       OutputFile.sourcemap := None |}.
Proof.
  intros Hext Hx Hcur Hopt Hor.
  destruct (@artifact_original p1 q ext full original filename x
              Hext Hx Hcur Hopt Hor)
    as (fa & stem & e & d & _ & _ & _ & Hwo & Hlen & Hd & Hdf & Hdn).
  exists d, fa. simpl. rewrite Hwo. split_ands; [exact Hd | exact Hdf|].
  rewrite Hdn. replace 3%Z with (Z.of_nat (length e)) by (rewrite Hlen; lia).
  now rewrite substr_drop_suffix.
Qed.

Lemma replayable_content (q : Project) (ext : str) (o o' : OutputFile.t) :
  OutputFile.filename o = OutputFile.filename o' ->
  replayable q ext o -> replayable q ext o'.
Proof. intros H (d & f & H1 & H2 & H3). exists d, f. now rewrite <- H. Qed.

(** The next generation of the same files can be replayed. *)
Lemma unchanged_generation_eligible (p1 : Project) :
  currentFiles p1 = currentFiles (ingest p0 files) ->
  previousOutputJS p1 <> None -> previousOutputDts p1 <> None ->
  canReplay (ingest p1 files) = true.
Proof.
  intros Hcur Hjs Hdts.
  destruct (ingest_frame p1 files) as (Hprev2 & _ & Hpj2 & Hpd2 & _).
  apply canReplay_eligible. unfold eligible. split_ands.
  - unfold ingest. apply fold_addFile_unchanged; [reflexivity|].
    intros f Hf. simpl. rewrite Hcur.
    destruct (@ingest_get_some E p0 files f Hf) as (d & g & Hd & Hg & Hk & Hc).
    exists d. split; [exact Hd|]. rewrite Hc. now apply same_content.
  - rewrite Hprev2, Hcur. unfold ingest. f_equal.
    now apply fold_addFile_keys_same.
  - now rewrite Hpj2.
  - now rewrite Hpd2.
Qed.

Lemma artifact_filename (filename ext : str) :
  ext = lit ".js" \/ ext = lit ".d.ts" ->
  eqb (substr filename (- Z.of_nat (length ext)) None) ext = true ->
  exists x, filename = x ++ ext.
Proof.
  intros Hext H. apply str_eqb_eq in H. apply substr_last_inv in H;
    [exact H|]. destruct Hext as [-> | ->]; discriminate.
Qed.

Lemma unchanged_generation_replays (adds : JsMap.t Slot) (r1 : Run)
    (res : EngineResult) :
  engineResult (setAdditionalFiles adds (ingest p0 files)) = Some res ->
  errors res = [] ->
  compile (startRun (setAdditionalFiles adds (ingest p0 files)))
  = (Ret tt, r1) ->
  exists r2,
    streamCompile true (startRun (ingest (proj r1) files))
    = Finished (Ret tt) (endStreams r2) /\
    engineRuns r2 = 0 /\
    map pathAndBytes (jsStream r2) = map pathAndBytes (jsStream r1) /\
    map pathAndBytes (declStream r2) = map pathAndBytes (declStream r1).
Proof.
  intros Hres Herr Hc.
  set (p1 := setAdditionalFiles adds (ingest p0 files)) in *.
  assert (Hcur1 : currentFiles p1 = currentFiles (ingest p0 files))
    by reflexivity.
  assert (Hopt1 : options p1 = options p0).
  { unfold p1. simpl. apply (ingest_frame p0 files). }
  destruct (compile_spec _ Hc Hres)
    as (outs & js & dts & Houts & Hjs & Hdts & Hjs1 & Hdecl1 & Hpj & Hpd
        & Hin & _).
  rewrite Herr in Hpj, Hpd. simpl in Hjs1, Hdecl1.
  assert (Hcur : currentFiles (proj r1) = currentFiles (ingest p0 files)).
  { unfold inputs in Hin. change (proj (startRun p1)) with p1 in Hin.
    congruence. }
  set (p2 := ingest (proj r1) files).
  destruct (ingest_frame (proj r1) files)
    as (Hprev2 & _ & Hpj2 & Hpd2 & _).
  fold p2 in Hprev2, Hpj2, Hpd2.
  assert (Hcan : canReplay p2 = true).
  { apply unchanged_generation_eligible; [exact Hcur | |].
    - rewrite Hpj. discriminate.
    - rewrite Hpd. discriminate. }
  assert (Hrjs : Forall (replayable p2 (lit ".js")) (map cachedJS js)).
  { apply Forall_forall. intros o Ho. apply in_map_iff in Ho as (g & <- & Hg).
    rewrite Forall_forall in Hjs, Houts.
    destruct (Hjs g Hg) as (f & Hf & Hpath & _).
    destruct (Houts f Hf)
      as (filename & data & original & full & gf & _ & Hx & Hor & _ & ->).
    destruct (@artifact_filename filename (lit ".js") (or_introl eq_refl) Hx)
      as (x & Hfx).
    eapply replayable_content;
      [|eapply (@artifact_replayable p1 (proj r1) (lit ".js"));
        [now left | exact Hfx | exact Hcur1 | exact Hopt1 | exact Hor]].
    simpl. now rewrite Hpath. }
  assert (Hrdts : Forall (replayable p2 (lit ".d.ts")) (map cachedDts dts)).
  { apply Forall_forall. intros o Ho. apply in_map_iff in Ho as (g & <- & Hg).
    rewrite Forall_forall in Hdts.
    destruct (Hdts g Hg)
      as (filename & data & original & full & gf & _ & Hx & Hor & _ & ->).
    destruct (@artifact_filename filename (lit ".d.ts") (or_intror eq_refl) Hx)
      as (x & Hfx).
    eapply replayable_content;
      [|eapply (@artifact_replayable p1 (proj r1) (lit ".d.ts"));
        [now right | exact Hfx | exact Hcur1 | exact Hopt1 | exact Hor]].
    reflexivity. }
  destruct (@replay_all p2 (lit ".js") pushJs true jsStream declStream
              (fun f r => eq_refl) (fun f r => eq_refl)
              (fun f r => conj eq_refl (conj eq_refl eq_refl))
              _ Hrjs (startRun p2))
    as (ra & Hla & Hsa & Hoa & Hpa & Hea & _).
  destruct (@replay_all p2 (lit ".d.ts") pushDecl false declStream jsStream
              (fun f r => eq_refl) (fun f r => eq_refl)
              (fun f r => conj eq_refl (conj eq_refl eq_refl))
              _ Hrdts ra)
    as (rb & Hlb & Hsb & Hob & Hpb & Heb & _).
  exists rb.
  assert (Hlazy : lazyCompile (startRun p2) = (Ret true, rb)).
  { rewrite lazyCompile_unfold by exact Hcan.
    change (proj (startRun p2)) with p2.
    rewrite Hpj2, Hpj, Hpd2, Hpd, Hla, Hlb. reflexivity. }
  split_ands.
  - unfold streamCompile. simpl negb. cbv iota. fold p2. now rewrite Hlazy.
  - rewrite Heb, Hea. reflexivity.
  - rewrite Hob, Hsa, Hjs1. simpl. rewrite map_map. reflexivity.
  - rewrite Hsb, Hoa, Hdecl1. simpl. rewrite map_map. reflexivity.
Qed.

End Idempotence.

(** *** What a replay pushes *)

Section ReplayPushes.
Variable p : Project.
Variable ext : str.
Variable push : File.t -> Run -> Run.
Variable withMap : bool.
Variable stream : Run -> list File.t.
Variable rest : Run -> Project * list File.t * bool * list Diagnostic * nat.
Hypothesis push_stream : forall f r, stream (push f r) = stream r ++ [f].
Hypothesis push_rest : forall f r, rest (push f r) = rest r.
Hypothesis attached_p : attached p.

Lemma replay_pushes (l : list OutputFile.t) :
  forall r,
    exists r',
      for_each l (replayOne p ext push withMap) r = (Ret tt, r') /\
      stream r' = stream r ++ replays p ext withMap l /\
      rest r' = rest r.
Proof.
  induction l as [|o l IH]; intros r.
  - exists r. simpl. rewrite app_nil_r. now split_ands.
  - rewrite for_each_step_run. unfold replayOne at 1.
    unfold replays. cbn [flat_map]. unfold replayOf at 1.
    destruct (JsMap.get _ (currentFiles p)) as [original|] eqn:Hget.
    + pose proof (attached_p _ Hget) as Hfile.
      destruct (FileData.file original) as [f|] eqn:Hf; [|congruence].
      unfold bind, defined. simpl.
      match goal with
      | |- context [for_each l _ (push ?g r)] =>
          destruct (IH (push g r)) as (r' & Hloop & Hs & Hr);
          exists r'; rewrite Hloop
      end.
      split_ands.
      * reflexivity.
      * rewrite Hs, push_stream, <- app_assoc. reflexivity.
      * now rewrite Hr, push_rest.
    + simpl. destruct (IH r) as (r' & Hloop & Hs & Hr).
      exists r'. rewrite Hloop. now split_ands.
Qed.
End ReplayPushes.

Section ReplayOutput.
Context {E : Engine}.

Lemma lazyCompile_replays (r : Run) :
  attached (proj r) -> canReplay (proj r) = true ->
  lazyCompile r
  = (Ret true,
     {| proj := proj r;
        jsStream :=
          jsStream r
          ++ replays (proj r) (lit ".js") true
                     (cached (previousOutputJS (proj r)));
        declStream :=
          declStream r
          ++ replays (proj r) (lit ".d.ts") false
                     (cached (previousOutputDts (proj r)));
        ended := ended r; reported := reported r;
        engineRuns := engineRuns r |}).
Proof.
  intros Hatt Hcan.
  destruct (@replay_pushes (proj r) (lit ".js") pushJs true jsStream
              (fun r => (proj r, declStream r, ended r, reported r,
                         engineRuns r))
              (fun f r => eq_refl) (fun f r => eq_refl) Hatt
              (cached (previousOutputJS (proj r))) r)
    as (ra & Hla & Hsa & Hra).
  destruct (@replay_pushes (proj r) (lit ".d.ts") pushDecl false declStream
              (fun r => (proj r, jsStream r, ended r, reported r,
                         engineRuns r))
              (fun f r => eq_refl) (fun f r => eq_refl) Hatt
              (cached (previousOutputDts (proj r))) ra)
    as (rb & Hlb & Hsb & Hrb).
  rewrite lazyCompile_unfold by exact Hcan.
  fold (cached (previousOutputJS (proj r))).
  fold (cached (previousOutputDts (proj r))).
  rewrite Hla, Hlb. f_equal.
  injection Hra as Hp1 Hd1 He1 Hr1 Hn1.
  injection Hrb as Hp2 Hj2 He2 Hr2 Hn2.
  destruct rb as [pb jb db eb rb nb]. simpl in *. congruence.
Qed.

End ReplayOutput.

(* ================================================================== *)
(** ** The properties of the project *)
(* ================================================================== *)

(* ------------------------------------------------------------------ *)
(** *** Trimming of the source-map comment *)
(* ------------------------------------------------------------------ *)

(** C9, as the code has it.  The result of [removeSourceMapComment] is
    always a prefix of the content followed by one appended line break,
    so it always ends with a line break; it ends with exactly one if and
    only if the prefix kept does not itself end with one.  For a content
    without a line break at an index [<= length - 2] the result is the
    one-character string of a line break: the whole content is dropped. *)
Theorem removeSourceMapComment_newline (content : str) :
  (exists n,
     removeSourceMapComment content = firstn n content ++ [newline] /\
     (endsWithOneNewline (removeSourceMapComment content) <->
      forall pre', firstn n content <> pre' ++ [newline])) /\
  ((forall j, (Z.of_nat j <= len content - 2)%Z ->
              nth j content zero <> newline) ->
   removeSourceMapComment content = [newline]).
Proof.
  split; [|apply removeSourceMapComment_single_line].
  destruct (removeSourceMapComment_prefix content) as (n & Hn).
  exists n. split; [exact Hn|]. rewrite Hn. split.
  - intros (pre & Hpre & Hone). apply app_inj_tail in Hpre as [-> _].
    exact Hone.
  - intros Hone. now exists (firstn n content).
Qed.

Lemma removeSourceMapComment_newline_witness :
  removeSourceMapComment (lit "var x;") = [newline].
Proof.
  apply (proj2 (removeSourceMapComment_newline (lit "var x;"))).
  intros j Hj. unfold len in Hj. simpl in Hj.
  do 5 (destruct j as [|j]; [discriminate|]). lia.
Defined.

(** C9 as stated fails: a blank line before the last line leaves two
    line breaks at the end of the result. *)
Lemma removeSourceMapComment_newline_counterexample :
  removeSourceMapComment ("a"%char :: newline :: newline :: "b"%char
                          :: [newline])
  = ["a"%char; newline; newline] /\
  ~ endsWithOneNewline
      (removeSourceMapComment ("a"%char :: newline :: newline :: "b"%char
                               :: [newline])).
Proof.
  split; [reflexivity|].
  intros (pre & Hpre & Hone).
  change (removeSourceMapComment _) with (["a"%char; newline] ++ [newline])
    in Hpre.
  apply app_inj_tail in Hpre as [<- _].
  now apply (Hone ["a"%char]).
Qed.

Section Properties.
Context {E : Engine}.

(** C5.  When the content has a line break at an index [<= length - 2],
    [removeSourceMapComment] returns the prefix up to the last such line
    break, excluded, with one line break appended.  Every script that
    [compile] pushes, and every record it caches for one, carries the
    content of an emitted [.js] file trimmed that way. *)
Theorem removeSourceMapComment_trimming (content : str) (i : nat)
    (r r' : Run) (o : outcome unit) (res : EngineResult) :
  (Z.of_nat i <= len content - 2)%Z ->
  nth i content zero = newline ->
  (forall j, i < j -> (Z.of_nat j <= len content - 2)%Z ->
             nth j content zero <> newline) ->
  compile r = (o, r') ->
  engineResult (proj r) = Some res ->
  removeSourceMapComment content = firstn i content ++ [newline] /\
  exists js,
    jsStream r' = jsStream r ++ js /\
    Forall (fun g => trimmed res (File.contents g)) js /\
    forall cache, previousOutputJS (proj r') = Some cache ->
      Forall (fun record => trimmed res (OutputFile.content record)) cache.
Proof.
  intros Hi Hnl Hlast Hc Hres.
  split; [now apply removeSourceMapComment_cut|].
  destruct (compile_spec _ Hc Hres)
    as (outs & js & dts & Houts & Hjs & _ & Hjs' & _ & Hpj & _).
  assert (Htrim : Forall (fun g => trimmed res (File.contents g)) js).
  { rewrite Forall_forall in *. intros g Hg.
    destruct (Hjs g Hg) as (f & Hf & _ & Hcontents & _).
    destruct (Houts f Hf)
      as (filename & data & original & full & gf & Hin & Hext & _ & _ & ->).
    rewrite Hcontents. now exists filename, data. }
  exists js. split; [exact Hjs'|]. split; [exact Htrim|].
  intros cache Hcache. rewrite Hpj in Hcache.
  destruct (errors res); [|discriminate].
  injection Hcache as <-. rewrite Forall_forall in *.
  intros record Hrec. apply in_map_iff in Hrec as (g & <- & Hg).
  now apply Htrim.
Qed.

End Properties.

Section TrimmingWitness.
#[local] Existing Instance Demo.engine.

Lemma removeSourceMapComment_trimming_witness :
  removeSourceMapComment (lit "a" ++ newline :: lit "b" ++ [newline])
  = firstn 1 (lit "a" ++ newline :: lit "b" ++ [newline]) ++ [newline] /\
  exists js,
    jsStream (snd (compile (startRun (ingest Demo.perFile Demo.twoFiles))))
    = jsStream (startRun (ingest Demo.perFile Demo.twoFiles)) ++ js /\
    Forall (fun g => trimmed (Demo.resultOf (ingest Demo.perFile Demo.twoFiles))
                             (File.contents g)) js /\
    forall cache,
      previousOutputJS
        (proj (snd (compile (startRun (ingest Demo.perFile Demo.twoFiles)))))
      = Some cache ->
      Forall (fun record =>
                trimmed (Demo.resultOf (ingest Demo.perFile Demo.twoFiles))
                        (OutputFile.content record)) cache.
Proof.
  apply (@removeSourceMapComment_trimming Demo.engine
           (lit "a" ++ newline :: lit "b" ++ [newline]) 1
           (startRun (ingest Demo.perFile Demo.twoFiles))
           (snd (compile (startRun (ingest Demo.perFile Demo.twoFiles))))
           (fst (compile (startRun (ingest Demo.perFile Demo.twoFiles))))).
  - unfold len. simpl. lia.
  - reflexivity.
  - intros j Hj Hle. unfold len in Hle. simpl in Hle.
    do 2 (destruct j as [|j]; [lia|]).
    destruct j as [|j]; [discriminate | lia].
  - apply surjective_pairing.
  - reflexivity.
Defined.

End TrimmingWitness.

(* ------------------------------------------------------------------ *)
(** *** Normalized paths *)
(* ------------------------------------------------------------------ *)

Section Keys.
Context {E : Engine}.

Lemma sortedEmit_marks_normalized (res : EngineResult) (outs : list File.t)
    (fuel : nat) :
  forall name file,
    preserves (fun c => Forall (fun k => normalizePath k = k) (done c))
              (sortedEmit fuel res outs name file).
Proof.
  induction fuel as [|fuel IH]; intros name file; [apply preserves_outOfFuel|].
  simpl. apply preserves_bind; [apply preserves_gets|].
  intros d. destruct (includes _ d); [apply preserves_ret|].
  apply preserves_bind.
  { apply preserves_modify. intros c Hc. simpl. constructor; [|exact Hc].
    apply normalizePath_idempotent. }
  intros _. apply preserves_bind; [apply preserves_defined|]. intros tsFile.
  apply preserves_bind.
  { apply preserves_for_each. intros other _.
    destruct (includes _ _); [apply IH | apply preserves_ret]. }
  intros _ c Hc. pose proof (emit_cases (normalizePath name) file c) as He.
  destruct (withSourceMap _ _ (normalizePath name) file); rewrite He;
    exact Hc.
Qed.

(** C10.  [normalizePath] is idempotent, and every key of the current
    files, of the previous files, of the additional files at any point of
    a run of the resolver, and every name that [sortedEmit] marks, is a
    fixed point of it. *)
Theorem normalizePath_fixed_points (pathString : str) (p0 : Project)
    (first second : list File.t) (disk : list (str * str)) (n : nat)
    (s : Resolving) (res : EngineResult) (outs : list File.t) (fuel : nat)
    (name : str) (file : File.t) (c : Compiling) :
  normalizePath (normalizePath pathString) = normalizePath pathString /\
  (forall k, In k (JsMap.keys (currentFiles (ingest p0 first))) ->
             normalizePath k = k) /\
  (forall k, In k (JsMap.keys (previousFiles
                                 (ingest (ingest p0 first) second))) ->
             normalizePath k = k) /\
  (steps disk n (resolveAll (ingest p0 first)) s ->
   forall k, In k (JsMap.keys (additionalFiles (project s))) ->
             normalizePath k = k) /\
  (Forall (fun k => normalizePath k = k) (done c) ->
   forall k, In k (done (snd (sortedEmit fuel res outs name file c))) ->
             normalizePath k = k).
Proof.
  assert (Hcur : forall k,
            In k (JsMap.keys (currentFiles (ingest p0 first))) ->
            normalizePath k = k).
  { intros k Hk. apply get_in_keys in Hk.
    destruct (JsMap.get k (currentFiles (ingest p0 first))) as [d|] eqn:Hg;
      [|congruence].
    destruct (ingest_entries p0 first _ Hg) as (f & _ & -> & _).
    apply normalizePath_idempotent. }
  split_ands.
  - apply normalizePath_idempotent.
  - exact Hcur.
  - intros k. destruct (ingest_frame (ingest p0 first) second) as (-> & _).
    apply Hcur.
  - intros Hsteps k Hk.
    destruct (@steps_resolving E disk (ingest p0 first) n s Hsteps)
      as [Hs _].
    rewrite (additional_keys Hs) in Hk.
    destruct (ingest_frame p0 first) as (_ & Hadd & _). rewrite Hadd in Hk.
    simpl in Hk. apply in_map_iff in Hk as (r & <- & _).
    apply normalizePath_idempotent.
  - intros Hdone k Hk.
    pose proof (@sortedEmit_marks_normalized res outs fuel name file c Hdone)
      as H.
    rewrite Forall_forall in H. now apply H.
Qed.

End Keys.

Section KeysWitness.
#[local] Existing Instance Demo.engine.

Lemma normalizePath_fixed_points_witness :
  normalizePath (normalizePath (lit "/Src/../Lib/A.ts"))
  = normalizePath (lit "/Src/../Lib/A.ts") /\
  (forall k, In k (JsMap.keys (currentFiles
                                 (ingest Demo.resolvingProject Demo.chain))) ->
             normalizePath k = k) /\
  (forall k, In k (JsMap.keys (previousFiles
                                 (ingest (ingest Demo.resolvingProject
                                                 Demo.chain) Demo.chain))) ->
             normalizePath k = k) /\
  (forall k, In k (JsMap.keys
                     (additionalFiles
                        (project (resolveAll (ingest Demo.resolvingProject
                                                     Demo.chain))))) ->
             normalizePath k = k) /\
  (forall k, In k (done (snd (sortedEmit 3 (Demo.resultOf
                                              (ingest Demo.sorted Demo.chain))
                                         [Demo.script "/a.js" "x"]
                                         (lit "/a.ts")
                                         (Demo.script "/a.js" "x")
                                         (Demo.emission Demo.chain
                                            [Demo.script "/a.js" "x"])))) ->
             normalizePath k = k).
Proof.
  destruct (@normalizePath_fixed_points Demo.engine (lit "/Src/../Lib/A.ts")
              Demo.resolvingProject Demo.chain Demo.chain Demo.disk 0
              (resolveAll (ingest Demo.resolvingProject Demo.chain))
              (Demo.resultOf (ingest Demo.sorted Demo.chain))
              [Demo.script "/a.js" "x"] 3 (lit "/a.ts")
              (Demo.script "/a.js" "x")
              (Demo.emission Demo.chain [Demo.script "/a.js" "x"]))
    as (H1 & H2 & H3 & H4 & H5).
  split_ands; [exact H1 | exact H2 | exact H3 | |].
  - apply H4. apply steps_none.
  - apply H5. simpl. constructor.
Defined.

End KeysWitness.

(* ------------------------------------------------------------------ *)
(** *** Ingestion and the replay test *)
(* ------------------------------------------------------------------ *)

Section BuildCache.
Context {E : Engine}.

(** C3.  A file added with the content its normalized path had in the
    previous generation gets the parsed unit of that generation back and
    leaves the changed flag as it was; a file with another content, or
    without a previous entry, gets a parsed unit made by the engine for
    the current version, and the changed flag is set. *)
Theorem addFile_change_detection (p : Project) (file : File.t) :
  (forall old,
     JsMap.get (key file) (previousFiles p) = Some old ->
     FileData.content old = File.contents file ->
     exists d,
       JsMap.get (key file) (currentFiles (addFile p file)) = Some d /\
       FileData.ts d = FileData.ts old /\
       FileData.content d = File.contents file /\
       FileData.file d = Some file /\
       isFileChanged (addFile p file) = isFileChanged p) /\
  ((JsMap.get (key file) (previousFiles p) = None \/
    exists old, JsMap.get (key file) (previousFiles p) = Some old /\
                FileData.content old <> File.contents file) ->
   exists d,
     JsMap.get (key file) (currentFiles (addFile p file)) = Some d /\
     FileData.ts d
     = createSourceFile (File.path file) (File.contents file)
                        (target (options p)) (version p) /\
     FileData.content d = File.contents file /\
     FileData.file d = Some file /\
     isFileChanged (addFile p file) = true).
Proof.
  split.
  - intros old Hold Hsame. exists (fst (addFile_data p file)).
    rewrite addFile_current, get_set_same, addFile_changed.
    unfold addFile_data. fold (key file). rewrite Hold.
    apply str_eqb_eq in Hsame. rewrite Hsame. simpl.
    apply str_eqb_eq in Hsame. now split_ands.
  - intros Hother. exists (fst (addFile_data p file)).
    rewrite addFile_current, get_set_same, addFile_changed.
    unfold addFile_data. fold (key file).
    destruct Hother as [-> | (o & -> & Hne)]; [now split_ands|].
    apply str_eqb_neq in Hne. rewrite Hne. now split_ands.
Qed.

(** C2, as the code has it.  [lazyCompile] returns [true] exactly when no
    file of this generation was marked as changed, the current and the
    previous files have the same number of keys and both cached output
    lists are present.  It then pushes, in the order of the cache, one
    script for every cached script record and one declaration for every
    cached declaration record whose original name is a current file,
    with the cached content, and changes nothing else; otherwise it
    returns [false] and pushes nothing.  Removing one input file whose
    normalized path no other input file has, the other files being
    ingested again, makes it return [false]. *)
Theorem lazyCompile_eligibility (r : Run) (p0 p1 : Project)
    (before after : list File.t) (f : File.t) :
  attached (proj r) ->
  (forall g, In g (before ++ after) -> key g <> key f) ->
  currentFiles p1 = currentFiles (ingest p0 (before ++ f :: after)) ->
  (fst (lazyCompile r) = Ret true <-> eligible (proj r)) /\
  (eligible (proj r) ->
   lazyCompile r
   = (Ret true,
      {| proj := proj r;
         jsStream :=
           jsStream r
           ++ replays (proj r) (lit ".js") true
                      (cached (previousOutputJS (proj r)));
         declStream :=
           declStream r
           ++ replays (proj r) (lit ".d.ts") false
                      (cached (previousOutputDts (proj r)));
         ended := ended r; reported := reported r;
         engineRuns := engineRuns r |})) /\
  (~ eligible (proj r) -> lazyCompile r = (Ret false, r)) /\
  lazyCompile (startRun (ingest p1 (before ++ after)))
  = (Ret false, startRun (ingest p1 (before ++ after))).
Proof.
  intros Hat Hne Hcur. split_ands.
  - rewrite <- canReplay_eligible. split.
    + apply lazyCompile_true_inv.
    + intros H. now apply lazyCompile_eligible.
  - intros H. apply lazyCompile_replays; [exact Hat|].
    now apply canReplay_eligible.
  - intros H. apply lazyCompile_ineligible.
    destruct (canReplay (proj r)) eqn:Hc; [|reflexivity].
    apply canReplay_eligible in Hc. contradiction.
  - apply lazyCompile_ineligible. simpl.
    destruct (canReplay (ingest p1 (before ++ after))) eqn:Hc; [|reflexivity].
    exfalso. apply canReplay_eligible in Hc as (_ & Hlen & _).
    destruct (ingest_frame p1 (before ++ after)) as (Hprev & _).
    rewrite Hprev, Hcur in Hlen.
    rewrite (@ingest_keys_removed E p0 p1 before after f Hne) in Hlen. lia.
Qed.

(** C4.  When the engine reports a diagnostic, [compile] leaves both
    cached output lists undefined, whatever it pushes, and the next
    generation cannot replay, whatever its files; when it reports none,
    the lists hold one record for each script and each declaration that
    was pushed, in order. *)
Theorem compile_failure_invalidates_cache (r r' : Run) (o : outcome unit)
    (res : EngineResult) (next : list File.t) :
  compile r = (o, r') ->
  engineResult (proj r) = Some res ->
  reported r' = reported r ++ errors res /\
  (errors res <> [] ->
   previousOutputJS (proj r') = None /\
   previousOutputDts (proj r') = None /\
   lazyCompile (startRun (ingest (proj r') next))
   = (Ret false, startRun (ingest (proj r') next))) /\
  (errors res = [] ->
   exists js dts,
     jsStream r' = jsStream r ++ js /\
     declStream r' = declStream r ++ dts /\
     previousOutputJS (proj r') = Some (map cachedJS js) /\
     previousOutputDts (proj r') = Some (map cachedDts dts)).
Proof.
  intros Hc Hres.
  destruct (compile_spec _ Hc Hres)
    as (outs & js & dts & _ & _ & _ & Hjs & Hdecl & Hpj & Hpd & _ & Hrep & _).
  split_ands; [exact Hrep | |].
  - intros Herr. destruct (errors res); [congruence|].
    split_ands; [exact Hpj | exact Hpd|].
    apply lazyCompile_ineligible. simpl.
    destruct (canReplay (ingest (proj r') next)) eqn:Hcan; [|reflexivity].
    apply canReplay_eligible in Hcan as (_ & _ & Hcache & _).
    destruct (ingest_frame (proj r') next) as (_ & _ & Hpj' & _).
    rewrite Hpj', Hpj in Hcache. congruence.
  - intros Herr. rewrite Herr in Hpj, Hpd. now exists js, dts.
Qed.

End BuildCache.

Section BuildCacheWitness.
#[local] Existing Instance Demo.engine.

Lemma addFile_change_detection_witness :
  (exists d,
     JsMap.get (key (Demo.file "/src/A.ts" "let a"))
               (currentFiles
                  (addFile (reset (ingest Demo.perFile Demo.twoFiles))
                           (Demo.file "/src/A.ts" "let a"))) = Some d /\
     FileData.ts d
     = FileData.ts (getFileDataFromGulpFile (reset Demo.perFile)
                      (Demo.file "/src/A.ts" "let a")) /\
     FileData.content d = File.contents (Demo.file "/src/A.ts" "let a") /\
     FileData.file d = Some (Demo.file "/src/A.ts" "let a") /\
     isFileChanged (addFile (reset (ingest Demo.perFile Demo.twoFiles))
                            (Demo.file "/src/A.ts" "let a"))
     = isFileChanged (reset (ingest Demo.perFile Demo.twoFiles))) /\
  (exists d,
     JsMap.get (key (Demo.file "/src/b.ts" "let c"))
               (currentFiles
                  (addFile (reset (ingest Demo.perFile Demo.twoFiles))
                           (Demo.file "/src/b.ts" "let c"))) = Some d /\
     FileData.ts d
     = createSourceFile (File.path (Demo.file "/src/b.ts" "let c"))
         (File.contents (Demo.file "/src/b.ts" "let c"))
         (target (options (reset (ingest Demo.perFile Demo.twoFiles))))
         (version (reset (ingest Demo.perFile Demo.twoFiles))) /\
     FileData.content d = File.contents (Demo.file "/src/b.ts" "let c") /\
     FileData.file d = Some (Demo.file "/src/b.ts" "let c") /\
     isFileChanged (addFile (reset (ingest Demo.perFile Demo.twoFiles))
                            (Demo.file "/src/b.ts" "let c")) = true).
Proof.
  split.
  - apply (proj1 (@addFile_change_detection Demo.engine
                    (reset (ingest Demo.perFile Demo.twoFiles))
                    (Demo.file "/src/A.ts" "let a"))
                 (getFileDataFromGulpFile (reset Demo.perFile)
                    (Demo.file "/src/A.ts" "let a"))).
    + vm_compute. reflexivity.
    + vm_compute. reflexivity.
  - apply (proj2 (@addFile_change_detection Demo.engine
                    (reset (ingest Demo.perFile Demo.twoFiles))
                    (Demo.file "/src/b.ts" "let c"))).
    right.
    exists (getFileDataFromGulpFile (reset Demo.perFile)
              (Demo.file "/src/b.ts" "let b")).
    split; [vm_compute; reflexivity | vm_compute; discriminate].
Defined.

Lemma lazyCompile_eligibility_witness :
  (fst (lazyCompile Demo.secondRun) = Ret true <->
   eligible (proj Demo.secondRun)) /\
  (eligible (proj Demo.secondRun) ->
   lazyCompile Demo.secondRun
   = (Ret true,
      {| proj := proj Demo.secondRun;
         jsStream :=
           jsStream Demo.secondRun
           ++ replays (proj Demo.secondRun) (lit ".js") true
                      (cached (previousOutputJS (proj Demo.secondRun)));
         declStream :=
           declStream Demo.secondRun
           ++ replays (proj Demo.secondRun) (lit ".d.ts") false
                      (cached (previousOutputDts (proj Demo.secondRun)));
         ended := ended Demo.secondRun; reported := reported Demo.secondRun;
         engineRuns := engineRuns Demo.secondRun |})) /\
  (~ eligible (proj Demo.secondRun) ->
   lazyCompile Demo.secondRun = (Ret false, Demo.secondRun)) /\
  lazyCompile
    (startRun (ingest Demo.built ([Demo.file "/src/A.ts" "let a"] ++ [])))
  = (Ret false,
     startRun (ingest Demo.built ([Demo.file "/src/A.ts" "let a"] ++ []))).
Proof.
  apply (@lazyCompile_eligibility Demo.engine Demo.secondRun Demo.perFile
           Demo.built [Demo.file "/src/A.ts" "let a"] []
           (Demo.file "/src/b.ts" "let b")).
  - apply ingest_attached.
  - intros g [<- | []]. vm_compute. discriminate.
  - vm_compute. reflexivity.
Defined.

(** C2 as stated fails: of two input files whose paths differ in case
    only, one can be removed and the next generation still replays. *)
Lemma lazyCompile_eligibility_counterexample :
  fst (Demo.build Demo.perFile [] Demo.sameNameSameText) = Ret tt /\
  reported (snd (Demo.build Demo.perFile [] Demo.sameNameSameText)) = [] /\
  fst (lazyCompile
         (startRun (ingest (proj (snd (Demo.build Demo.perFile []
                                                  Demo.sameNameSameText)))
                           [Demo.file "/src/a.ts" "x"]))) = Ret true.
Proof. vm_compute. repeat split. Qed.

Lemma compile_failure_invalidates_cache_witness :
  reported (snd (compile Demo.failingRun))
  = reported Demo.failingRun
    ++ errors (Demo.resultOf (proj Demo.failingRun)) /\
  (errors (Demo.resultOf (proj Demo.failingRun)) <> [] ->
   previousOutputJS (proj (snd (compile Demo.failingRun))) = None /\
   previousOutputDts (proj (snd (compile Demo.failingRun))) = None /\
   lazyCompile
     (startRun (ingest (proj (snd (compile Demo.failingRun))) Demo.failing))
   = (Ret false,
      startRun (ingest (proj (snd (compile Demo.failingRun))) Demo.failing))) /\
  (errors (Demo.resultOf (proj Demo.failingRun)) = [] ->
   exists js dts,
     jsStream (snd (compile Demo.failingRun))
     = jsStream Demo.failingRun ++ js /\
     declStream (snd (compile Demo.failingRun))
     = declStream Demo.failingRun ++ dts /\
     previousOutputJS (proj (snd (compile Demo.failingRun)))
     = Some (map cachedJS js) /\
     previousOutputDts (proj (snd (compile Demo.failingRun)))
     = Some (map cachedDts dts)).
Proof.
  apply (@compile_failure_invalidates_cache Demo.engine Demo.failingRun
           (snd (compile Demo.failingRun)) (fst (compile Demo.failingRun))
           (Demo.resultOf (proj Demo.failingRun)) Demo.failing).
  - apply surjective_pairing.
  - vm_compute. reflexivity.
Defined.

End BuildCacheWitness.

(* ------------------------------------------------------------------ *)
(** *** The replay of an unchanged generation *)
(* ------------------------------------------------------------------ *)

Section Replaying.
Context {E : Engine}.

(** C1, as the code has it.  Take a project that emits one output per
    input (no [out] option) and input files of which any two with the
    same normalized path have the same content, and of which each one
    whose normalized path ends in [.ts] is written with a path that ends
    in [.ts] in some letter case.  If a generation of these files
    compiles with zero diagnostics, the next generation of the same
    files, content unchanged, is replayed by [lazyCompile]: the engine is
    not run, and the scripts and declarations pushed have, in order, the
    target paths and the content bytes of those of the first build. *)
Theorem replay_of_unchanged_generation (p0 : Project) (files : list File.t)
    (adds : JsMap.t Slot) (r1 : Run) (res : EngineResult) :
  out (options p0) = None ->
  (forall f g, In f files -> In g files -> key f = key g ->
               File.contents f = File.contents g) ->
  (forall f, In f files -> (exists y, key f = y ++ lit ".ts") ->
             typescriptPath (File.path f)) ->
  engineResult (setAdditionalFiles adds (ingest p0 files)) = Some res ->
  errors res = [] ->
  compile (startRun (setAdditionalFiles adds (ingest p0 files)))
  = (Ret tt, r1) ->
  exists r2,
    streamCompile true (startRun (ingest (proj r1) files))
    = Finished (Ret tt) (endStreams r2) /\
    engineRuns r2 = 0 /\
    map pathAndBytes (jsStream r2) = map pathAndBytes (jsStream r1) /\
    map pathAndBytes (declStream r2) = map pathAndBytes (declStream r1).
Proof.
  intros Hout Hsame Hts Hres Herr Hc.
  exact (@unchanged_generation_replays E p0 files Hout Hsame Hts adds r1 res
           Hres Herr Hc).
Qed.

End Replaying.
Section ReplayingWitness.
#[local] Existing Instance Demo.engine.

Lemma replay_of_unchanged_generation_witness :
  exists r2,
    streamCompile true (startRun (ingest (proj Demo.firstBuild) Demo.twoFiles))
    = Finished (Ret tt) (endStreams r2) /\
    engineRuns r2 = 0 /\
    map pathAndBytes (jsStream r2)
    = map pathAndBytes (jsStream Demo.firstBuild) /\
    map pathAndBytes (declStream r2)
    = map pathAndBytes (declStream Demo.firstBuild).
Proof.
  apply (@replay_of_unchanged_generation Demo.engine Demo.perFile
           Demo.twoFiles (JsMap.empty Slot) Demo.firstBuild
           (Demo.resultOf (setAdditionalFiles (JsMap.empty Slot)
                             (ingest Demo.perFile Demo.twoFiles)))).
  - reflexivity.
  - intros f g [<- | [<- | []]] [<- | [<- | []]] Hk;
      first [reflexivity | vm_compute in Hk; discriminate Hk].
  - intros f [<- | [<- | []]] _;
      [exists (lit "/src/A"), (lit ".ts") | exists (lit "/src/b"), (lit ".ts")];
      split; reflexivity.
  - vm_compute. reflexivity.
  - vm_compute. reflexivity.
  - vm_compute. reflexivity.
Defined.

(** C1 as stated fails.  Two input files whose paths differ in case only
    share one entry of the file table: the generation compiles with zero
    diagnostics, and the same files are compiled again the next time.
    With [out], the script replayed has the lower-cased path.  And a file
    written as [/src/a.ts/.], whose normalized path ends in [.ts], is
    built into one script, while the replay pushes none. *)
Lemma replay_of_unchanged_generation_counterexample :
  (fst (Demo.build Demo.perFile [] Demo.sameNameOtherText) = Ret tt /\
   reported (snd (Demo.build Demo.perFile [] Demo.sameNameOtherText)) = [] /\
   fst (lazyCompile
          (startRun
             (ingest (proj (snd (Demo.build Demo.perFile []
                                            Demo.sameNameOtherText)))
                     Demo.sameNameOtherText))) = Ret false) /\
  (fst (Demo.build Demo.concatenated [] Demo.appAndLib) = Ret tt /\
   reported (snd (Demo.build Demo.concatenated [] Demo.appAndLib)) = [] /\
   map File.path
       (jsStream (snd (Demo.build Demo.concatenated [] Demo.appAndLib)))
   = [lit "/App.js"] /\
   fst (lazyCompile
          (startRun
             (ingest (proj (snd (Demo.build Demo.concatenated []
                                            Demo.appAndLib)))
                     Demo.appAndLib))) = Ret true /\
   map File.path
       (jsStream
          (snd (lazyCompile
                  (startRun
                     (ingest (proj (snd (Demo.build Demo.concatenated []
                                                    Demo.appAndLib)))
                             Demo.appAndLib)))))
   = [lit "/app.js"]) /\
  (map key Demo.dotted = [lit "/src/a.ts"] /\
   fst (Demo.build Demo.perFile [] Demo.dotted) = Ret tt /\
   reported (snd (Demo.build Demo.perFile [] Demo.dotted)) = [] /\
   map File.path (jsStream (snd (Demo.build Demo.perFile [] Demo.dotted)))
   = [lit "/src/a.ts/.js"] /\
   fst (lazyCompile
          (startRun
             (ingest (proj (snd (Demo.build Demo.perFile [] Demo.dotted)))
                     Demo.dotted))) = Ret true /\
   jsStream
     (snd (lazyCompile
             (startRun
                (ingest (proj (snd (Demo.build Demo.perFile [] Demo.dotted)))
                        Demo.dotted))))
   = []).
Proof. vm_compute. repeat split. Qed.

End ReplayingWitness.

(* ------------------------------------------------------------------ *)
(** *** The sorted emission *)
(* ------------------------------------------------------------------ *)

Section Sorting.
Context {E : Engine}.

Lemma emitted_composes (c : Compiling) (f : File.t) :
  emitted c f <> None <-> composes (proj (run c)) (sourcemaps c) f = true.
Proof.
  unfold emitted, composes.
  destruct (withSourceMap _ _ (nameOf f) f); split; congruence.
Qed.


End Sorting.

Section SortingWitness.
#[local] Existing Instance Demo.engine.



End SortingWitness.

(* ------------------------------------------------------------------ *)
(** *** The resolver *)
(* ------------------------------------------------------------------ *)

Section ResolverRuns.
Context {E : Engine}.

Lemma resolveAll_disjoint (p : Project) :
  disjointFiles p -> disjointFiles (project (resolveAll p)).
Proof.
  intros Hd. unfold resolveAll. destruct (noExternalResolve p); [exact Hd|].
  assert (H : forall (l : list (str * FileData.t)) s,
             disjointFiles (project s) ->
             disjointFiles
               (project (fold_left (fun s kv => resolve s (snd kv)) l s))).
  { induction l as [|kv l IH]; intros s Hs; [exact Hs|].
    simpl. apply IH. now apply resolve_disjoint. }
  specialize (H (currentFiles p)
                {| project := p; tasks := 0; pending := [];
                   callbacks := O; reads := [] |} Hd).
  destruct (tasks _ =? 0)%Z; exact H.
Qed.

Lemma steps_disjoint (disk : list (str * str)) (p : Project) (n : nat)
    (s : Resolving) :
  disjointFiles p -> steps disk n (resolveAll p) s ->
  disjointFiles (project s).
Proof.
  intros Hd H. remember (resolveAll p) as s0 eqn:Hs0.
  induction H as [s | n s1 s2 s3 H12 IH H23].
  - subst. now apply resolveAll_disjoint.
  - subst s1. destruct (@steps_resolving E disk p n s2 H12) as [Hs _].
    eapply step_disjoint; eauto.
Qed.

(** C7.  Every run of [resolveAll] is finite: it takes at most as many
    turns of the event loop as there are paths to ask for.  At every
    point of it the session counter is the number of reads in flight, and
    the callback has been called once if no read is in flight and not at
    all otherwise; while a read is in flight the run can go on.  So the
    callback is called exactly once, when the counter returns to zero,
    however many reads were issued or failed; it is called before
    [resolveAll] returns when external resolution is off or no read was
    issued. *)
Theorem resolveAll_calls_back_once (disk : list (str * str)) (p : Project)
    (n : nat) (s : Resolving) :
  steps disk n (resolveAll p) s ->
  n + length (pending s) <= length (candidates disk p) /\
  tasks s = Z.of_nat (length (pending s)) /\
  callbacks s = match pending s with [] => 1 | _ :: _ => 0 end /\
  (pending s <> [] -> exists s', step disk s s') /\
  (noExternalResolve p = true \/ pending (resolveAll p) = [] ->
   callbacks (resolveAll p) = 1).
Proof.
  intros H. destruct (@steps_resolving E disk p n s H) as [Hs Hcb].
  split_ands.
  - apply (resolving_bound Hs).
  - rewrite (tasks_pending Hs). f_equal. lia.
  - exact Hcb.
  - intros Hne. destruct (pending s) as [|rd rest] eqn:Hp; [congruence|].
    eexists. apply (@read_completes E disk s [] rd rest None);
      [exact Hp | exact I].
  - destruct (@resolveAll_resolving E disk p) as [_ Hcb0].
    unfold calledBack in Hcb0. intros [Hoff | Hnone].
    + unfold resolveAll in *. rewrite Hoff in *. exact Hcb0.
    + now rewrite Hnone in Hcb0.
Qed.

(** C8.  In a build generation the keys of the current and of the
    additional files never overlap; the resolver adds a key to the
    additional files only for a path that is a key of neither, so the
    additional files have exactly the normalized paths of the reads
    issued, each once; and while a read is in flight its key holds the
    placeholder. *)
Theorem resolver_reads_once (disk : list (str * str)) (p0 : Project)
    (files : list File.t) (n : nat) (s s0 : Resolving) (r : str) :
  steps disk n (resolveAll (ingest p0 files)) s ->
  resolveRef s0 r <> s0 ->
  disjointFiles (project s) /\
  JsMap.keys (additionalFiles (project s)) = map normalizePath (reads s) /\
  NoDup (map normalizePath (reads s)) /\
  (forall rd, In rd (pending s) ->
     normalizedRef rd = normalizePath (ref rd) /\
     JsMap.get (normalizedRef rd) (additionalFiles (project s))
     = Some unresolvedFile) /\
  (~ In (normalizePath r) (JsMap.keys (currentFiles (project s0))) /\
   ~ In (normalizePath r) (JsMap.keys (additionalFiles (project s0))) /\
   JsMap.get (normalizePath r) (additionalFiles (project (resolveRef s0 r)))
   = Some unresolvedFile /\
   reads (resolveRef s0 r) = reads s0 ++ [r]).
Proof.
  intros H Hadd.
  destruct (@steps_resolving E disk (ingest p0 files) n s H) as [Hs _].
  destruct (ingest_frame p0 files) as (_ & Hempty & _).
  split_ands.
  - apply (steps_disjoint (disk := disk) (p := ingest p0 files) (n := n));
      [|exact H].
    intros k _ Hk. rewrite Hempty in Hk. exact Hk.
  - rewrite (additional_keys Hs), Hempty. reflexivity.
  - apply (reads_once Hs).
  - intros rd Hrd. split;
      [apply (pending_read Hs rd Hrd) | apply (pending_placeholder Hs rd Hrd)].
  - destruct (resolveRef_cases s0 r) as [[Heq _] | (H1 & _)];
      [congruence | exact H1].
  - destruct (resolveRef_cases s0 r) as [[Heq _] | (_ & H2 & _)];
      [congruence | exact H2].
  - destruct (resolveRef_cases s0 r) as [[Heq _] | (_ & _ & ->)];
      [congruence|]. simpl. apply get_set_same.
  - destruct (resolveRef_cases s0 r) as [[Heq _] | (_ & _ & ->)];
      [congruence | reflexivity].
Qed.

End ResolverRuns.

Section ResolverRunsWitness.
#[local] Existing Instance Demo.engine.

Lemma first_read_completes :
  steps Demo.disk 1 (resolveAll (ingest Demo.resolvingProject Demo.referring))
        Demo.afterFirstRead.
Proof.
  apply steps_more with (s2 := Demo.listening); [apply steps_none|].
  apply (@read_completes Demo.engine Demo.disk Demo.listening []
           Demo.firstRead [] (Some (lit "c.ts"))).
  - vm_compute. reflexivity.
  - left. reflexivity.
Defined.

Lemma resolveAll_calls_back_once_witness :
  1 + length (pending Demo.afterFirstRead)
  <= length (candidates Demo.disk
                        (ingest Demo.resolvingProject Demo.referring)) /\
  tasks Demo.afterFirstRead
  = Z.of_nat (length (pending Demo.afterFirstRead)) /\
  callbacks Demo.afterFirstRead
  = match pending Demo.afterFirstRead with [] => 1 | _ :: _ => 0 end /\
  (pending Demo.afterFirstRead <> [] ->
   exists s', step Demo.disk Demo.afterFirstRead s') /\
  (noExternalResolve (ingest Demo.resolvingProject Demo.referring) = true \/
   pending (resolveAll (ingest Demo.resolvingProject Demo.referring)) = [] ->
   callbacks (resolveAll (ingest Demo.resolvingProject Demo.referring)) = 1).
Proof.
  apply (@resolveAll_calls_back_once Demo.engine Demo.disk
           (ingest Demo.resolvingProject Demo.referring) 1
           Demo.afterFirstRead).
  exact first_read_completes.
Defined.

Lemma resolver_reads_once_witness :
  disjointFiles (project Demo.afterFirstRead) /\
  JsMap.keys (additionalFiles (project Demo.afterFirstRead))
  = map normalizePath (reads Demo.afterFirstRead) /\
  NoDup (map normalizePath (reads Demo.afterFirstRead)) /\
  (forall rd, In rd (pending Demo.afterFirstRead) ->
     normalizedRef rd = normalizePath (ref rd) /\
     JsMap.get (normalizedRef rd)
               (additionalFiles (project Demo.afterFirstRead))
     = Some unresolvedFile) /\
  (~ In (normalizePath (lit "c.ts"))
        (JsMap.keys (currentFiles (project Demo.listening))) /\
   ~ In (normalizePath (lit "c.ts"))
        (JsMap.keys (additionalFiles (project Demo.listening))) /\
   JsMap.get (normalizePath (lit "c.ts"))
             (additionalFiles
                (project (resolveRef Demo.listening (lit "c.ts"))))
   = Some unresolvedFile /\
   reads (resolveRef Demo.listening (lit "c.ts"))
   = reads Demo.listening ++ [lit "c.ts"]).
Proof.
  apply (@resolver_reads_once Demo.engine Demo.disk Demo.resolvingProject
           Demo.referring 1 Demo.afterFirstRead Demo.listening (lit "c.ts")).
  - exact first_read_completes.
  - intros H. apply (f_equal tasks) in H. vm_compute in H. discriminate H.
Defined.

End ResolverRunsWitness.

(* ================================================================== *)
(** ** Further properties of the project *)
(* ================================================================== *)

(* ------------------------------------------------------------------ *)
(** *** Names of artifacts and of sources *)
(* ------------------------------------------------------------------ *)

Lemma map_alternative_length (t : str) :
  match t with
  | [c1; c2; c3; c; c5; c6; c7] =>
      eqb [c1; c2; c3] (lit ".js") && negb (is_line_terminator c) &&
      eqb [c5; c6; c7] (lit "map")
  | _ => false
  end = true ->
  length t = 7.
Proof.
  do 8 (destruct t as [|? t]; try discriminate). reflexivity.
Qed.

Lemma extension_matches_length (t : str) :
  extension_matches t = true -> length t = 3 \/ length t = 5 \/ length t = 7.
Proof.
  unfold extension_matches. intros H.
  apply orb_true_iff in H as [H | H];
    [apply orb_true_iff in H as [H | H]|].
  - apply str_eqb_eq in H. subst. auto.
  - apply str_eqb_eq in H. subst. auto.
  - apply map_alternative_length in H. auto.
Qed.

Lemma getOriginalName_cons (c : ascii) (t : str) :
  getOriginalName (c :: t)
  = if extension_matches (c :: t) then lit ".ts" else c :: getOriginalName t.
Proof. reflexivity. Qed.

Lemma getOriginalName_prefix (stem t : str) :
  (forall a b, stem = a ++ b -> b <> [] -> extension_matches (b ++ t) = false) ->
  getOriginalName (stem ++ t) = stem ++ getOriginalName t.
Proof.
  induction stem as [|x stem IH]; intros H; [reflexivity|].
  change ((x :: stem) ++ t) with (x :: (stem ++ t)).
  rewrite getOriginalName_cons.
  change (x :: (stem ++ t)) with ((x :: stem) ++ t).
  rewrite (H [] (x :: stem) eq_refl) by discriminate.
  rewrite IH; [reflexivity|].
  intros a b -> Hb. apply (H (x :: a) b); [reflexivity | exact Hb].
Qed.

(** X1.  The regular expression of [getOriginalName] takes the whole suffix
    [.js], [.d.ts] or [.js.map] off a name, whatever comes before it, and
    puts [.ts] in its place; the dot before [map] is not escaped, so any
    character but a line terminator may stand there. *)
Theorem getOriginalName_artifacts (stem : str) (c : ascii) :
  is_line_terminator c = false ->
  getOriginalName (stem ++ lit ".js") = stem ++ lit ".ts" /\
  getOriginalName (stem ++ lit ".d.ts") = stem ++ lit ".ts" /\
  getOriginalName (stem ++ lit ".js.map") = stem ++ lit ".ts" /\
  getOriginalName (stem ++ lit ".js" ++ c :: lit "map") = stem ++ lit ".ts".
Proof.
  intros Hc.
  assert (Hany : forall d, is_line_terminator d = false ->
            getOriginalName (stem ++ lit ".js" ++ d :: lit "map")
            = stem ++ lit ".ts").
  { intros d Hd. rewrite getOriginalName_prefix.
    - f_equal. simpl. unfold extension_matches. simpl. rewrite Hd.
      reflexivity.
    - intros a b _ Hb.
      destruct (extension_matches (b ++ lit ".js" ++ d :: lit "map")) eqn:Hm;
        [|reflexivity].
      apply extension_matches_length in Hm. rewrite length_app in Hm.
      destruct b; [congruence|]. simpl in Hm. lia. }
  split_ands.
  - apply getOriginalName_artifact. now left.
  - apply getOriginalName_artifact. now right.
  - apply (Hany "."%char). reflexivity.
  - apply Hany, Hc.
Qed.

Lemma getOriginalName_artifacts_witness :
  getOriginalName (lit "/out/app" ++ lit ".js") = lit "/out/app" ++ lit ".ts" /\
  getOriginalName (lit "/out/app" ++ lit ".d.ts")
  = lit "/out/app" ++ lit ".ts" /\
  getOriginalName (lit "/out/app" ++ lit ".js.map")
  = lit "/out/app" ++ lit ".ts" /\
  getOriginalName (lit "/out/app" ++ lit ".js" ++ "x"%char :: lit "map")
  = lit "/out/app" ++ lit ".ts".
Proof.
  apply (getOriginalName_artifacts (lit "/out/app") "x"%char). reflexivity.
Defined.

(** X2.  A name that ends in [.ts], and not in [.d.ts], is its own original
    name: [getOriginalName] leaves the path of a source file as it is. *)
Theorem getOriginalName_source (stem : str) :
  (forall s, stem <> s ++ lit ".d") ->
  getOriginalName (stem ++ lit ".ts") = stem ++ lit ".ts".
Proof.
  intros Hd. rewrite getOriginalName_prefix; [reflexivity|].
  intros a b -> Hb.
  destruct (extension_matches (b ++ lit ".ts")) eqn:Hm; [|reflexivity].
  exfalso. unfold extension_matches in Hm.
  apply orb_true_iff in Hm as [Hm | Hm];
    [apply orb_true_iff in Hm as [Hm | Hm]|].
  - apply str_eqb_eq in Hm.
    assert (Hl : length (b ++ lit ".ts") = 5) by now rewrite Hm.
    rewrite length_app in Hl. simpl in Hl.
    destruct b as [|b1 [|b2 [|]]]; simpl in Hl; try lia.
    injection Hm as -> ->. apply (Hd a). reflexivity.
  - apply str_eqb_eq in Hm.
    assert (Hl : length (b ++ lit ".ts") = 3) by now rewrite Hm.
    rewrite length_app in Hl. simpl in Hl. destruct b; [congruence|].
    simpl in Hl. lia.
  - apply map_alternative in Hm as (t' & Ht).
    change (lit ".ts") with (lit ".t" ++ ["s"%char]) in Ht.
    rewrite app_assoc in Ht. apply app_inj_tail in Ht as [_ Ht].
    discriminate Ht.
Qed.

Lemma getOriginalName_source_witness :
  getOriginalName (lit "/src/app" ++ lit ".ts") = lit "/src/app" ++ lit ".ts".
Proof.
  apply (@getOriginalName_source (lit "/src/app")).
  intros s Hs.
  assert (Hrev : rev (lit "/src/app") = rev (s ++ lit ".d")) by now rewrite Hs.
  rewrite rev_app_distr in Hrev. discriminate Hrev.
Defined.

(* ------------------------------------------------------------------ *)
(** *** The identity of a file *)
(* ------------------------------------------------------------------ *)

Lemma lower_char_is_slash (c : ascii) :
  Ascii.eqb (lower_char c) slash = Ascii.eqb c slash.
Proof. destruct c as [[] [] [] [] [] [] [] []]; reflexivity. Qed.

Lemma lower_char_is_dot (c : ascii) :
  Ascii.eqb (lower_char c) dot = Ascii.eqb c dot.
Proof. destruct c as [[] [] [] [] [] [] [] []]; reflexivity. Qed.

Lemma split_toLowerCase (s : str) :
  Path.split slash (toLowerCase s) = map toLowerCase (Path.split slash s).
Proof.
  induction s as [|c s IH]; [reflexivity|].
  simpl. rewrite lower_char_is_slash, IH.
  destruct (Ascii.eqb c slash); [reflexivity|].
  destruct (Path.split slash s); reflexivity.
Qed.

Lemma segments_toLowerCase (l : list str) :
  filter Path.nonEmpty (map toLowerCase l)
  = map toLowerCase (filter Path.nonEmpty l).
Proof.
  induction l as [|x l IH]; [reflexivity|].
  simpl. rewrite toLowerCase_nonEmpty, IH.
  destruct (Path.nonEmpty x); reflexivity.
Qed.

Lemma toLowerCase_is_dot (p : str) :
  eqb (toLowerCase p) (lit ".") = eqb p (lit ".").
Proof.
  destruct p as [|c [|d p]]; simpl; try reflexivity;
    change "."%char with dot; now rewrite lower_char_is_dot.
Qed.

Lemma toLowerCase_is_dotdot (p : str) :
  eqb (toLowerCase p) (lit "..") = eqb p (lit "..").
Proof.
  destruct p as [|c [|d [|e p]]]; simpl; try reflexivity;
    change "."%char with dot; now rewrite !lower_char_is_dot.
Qed.

Lemma scan_toLowerCase (parts : list str) :
  Path.normalizeArray_scan (map toLowerCase parts)
  = (map toLowerCase (fst (Path.normalizeArray_scan parts)),
     snd (Path.normalizeArray_scan parts)).
Proof.
  induction parts as [|p parts IH]; [reflexivity|].
  change (map toLowerCase (p :: parts))
    with (toLowerCase p :: map toLowerCase parts).
  rewrite !scan_cons, IH, toLowerCase_is_dot, toLowerCase_is_dotdot.
  destruct (Path.normalizeArray_scan parts) as [kept up].
  destruct (eqb p (lit ".")); [reflexivity|].
  destruct (eqb p (lit "..")); [reflexivity|].
  destruct up; reflexivity.
Qed.

Lemma normalizeArray_toLowerCase (parts : list str) (above : bool) :
  Path.normalizeArray (map toLowerCase parts) above
  = map toLowerCase (Path.normalizeArray parts above).
Proof.
  unfold Path.normalizeArray. rewrite scan_toLowerCase.
  destruct (Path.normalizeArray_scan parts) as [kept up]. simpl.
  destruct above; [|reflexivity].
  rewrite map_app. f_equal.
  induction up as [|up IH]; [reflexivity|].
  change (lit ".." :: repeat (lit "..") up
          = toLowerCase (lit "..")
            :: map toLowerCase (repeat (lit "..") up)).
  apply (f_equal2 cons); [reflexivity | exact IH].
Qed.

Lemma join_toLowerCase (parts : list str) :
  Path.join (lit "/") (map toLowerCase parts)
  = toLowerCase (Path.join (lit "/") parts).
Proof.
  induction parts as [|p parts IH]; [reflexivity|].
  destruct parts as [|q parts]; [reflexivity|].
  change (map toLowerCase (p :: q :: parts))
    with (toLowerCase p :: map toLowerCase (q :: parts)).
  rewrite !join_cons by discriminate. rewrite IH.
  rewrite toLowerCase_app. reflexivity.
Qed.

Lemma isAbsolute_toLowerCase (p : str) :
  Path.isAbsolute (toLowerCase p) = Path.isAbsolute p.
Proof. destruct p; [reflexivity | apply lower_char_is_slash]. Qed.

Lemma trailingSlash_toLowerCase (p : str) :
  Path.trailingSlash (toLowerCase p) = Path.trailingSlash p.
Proof.
  destruct (rev p) as [|c s] eqn:Hp.
  - apply (f_equal (@rev ascii)) in Hp. rewrite rev_involutive in Hp.
    now subst.
  - apply (f_equal (@rev ascii)) in Hp. rewrite rev_involutive in Hp.
    simpl in Hp. subst p. rewrite toLowerCase_app. simpl.
    rewrite !trailingSlash_snoc. apply lower_char_is_slash.
Qed.

Lemma normalize_toLowerCase (p : str) :
  Path.normalize (toLowerCase p) = toLowerCase (Path.normalize p).
Proof.
  unfold Path.normalize.
  rewrite isAbsolute_toLowerCase, trailingSlash_toLowerCase,
    split_toLowerCase, segments_toLowerCase, normalizeArray_toLowerCase,
    join_toLowerCase, toLowerCase_nonEmpty.
  set (path := Path.join _ _).
  destruct (Path.isAbsolute p), (Path.nonEmpty path) eqn:Hne,
    (Path.trailingSlash p); simpl;
    rewrite ?toLowerCase_nonEmpty, ?Hne; simpl;
    rewrite ?toLowerCase_app; reflexivity.
Qed.

(** X3.  Paths that differ in the case of their letters only have the same
    normalized path, so files with such paths are one entry of the file
    tables. *)
Theorem normalizePath_case_insensitive (a b : str) :
  toLowerCase a = toLowerCase b -> normalizePath a = normalizePath b.
Proof.
  intros H. unfold normalizePath.
  rewrite <- (toLowerCase_idem (Path.normalize a)),
          <- (toLowerCase_idem (Path.normalize b)).
  rewrite <- !normalize_toLowerCase. now rewrite H.
Qed.

Lemma normalizePath_case_insensitive_witness :
  normalizePath (lit "/Src/" ++ "201"%char :: lit ".ts")
  = normalizePath (lit "/src/" ++ "233"%char :: lit ".TS").
Proof.
  apply (@normalizePath_case_insensitive
           (lit "/Src/" ++ "201"%char :: lit ".ts")
           (lit "/src/" ++ "233"%char :: lit ".TS")).
  reflexivity.
Defined.

(* ------------------------------------------------------------------ *)
(** *** The last line of a script *)
(* ------------------------------------------------------------------ *)

(** X4.  [removeSourceMapComment] takes the last line off a script: whatever
    comes before the line break that precedes the last line is kept, and
    one line break is put after it, whether the last line ends with a
    line break or not. *)
Theorem removeSourceMapComment_last_line (body line : str) (final : bool) :
  ~ In newline line ->
  line <> [] \/ final = true ->
  removeSourceMapComment
    (body ++ newline :: line ++ (if final then [newline] else []))
  = body ++ [newline].
Proof.
  intros Hline Hlen.
  set (tail := if final then [newline] else []).
  assert (Htail : 1 <= length (line ++ tail)).
  { rewrite length_app. unfold tail.
    destruct Hlen as [Hl | ->]; [destruct line; [congruence | simpl; lia]|].
    simpl. lia. }
  rewrite (@removeSourceMapComment_cut _ (length body)).
  - now rewrite firstn_app, firstn_all, Nat.sub_diag, app_nil_r.
  - unfold len. rewrite length_app. simpl. lia.
  - rewrite app_nth2, Nat.sub_diag by lia. reflexivity.
  - intros j Hj Hle. unfold len in Hle. rewrite length_app in Hle.
    simpl in Hle. rewrite length_app in Hle.
    rewrite app_nth2 by lia.
    destruct (j - length body) as [|k] eqn:Hk; [lia|]. simpl.
    assert (Hkl : k < length line).
    { unfold tail in Hle. destruct final; simpl in Hle; lia. }
    rewrite app_nth1 by exact Hkl.
    intros Hn. apply Hline. rewrite <- Hn. now apply nth_In.
Qed.

Lemma removeSourceMapComment_last_line_witness :
  removeSourceMapComment
    (lit "var a;" ++ newline :: lit "//# sourceMappingURL=a.js.map"
     ++ (if true then [newline] else []))
  = lit "var a;" ++ [newline].
Proof.
  apply (@removeSourceMapComment_last_line (lit "var a;")
           (lit "//# sourceMappingURL=a.js.map") true).
  - vm_compute. intuition discriminate.
  - now right.
Defined.

(* ------------------------------------------------------------------ *)
(** *** The file table of a generation *)
(* ------------------------------------------------------------------ *)

Section FileTable.
Context {E : Engine}.

Lemma addFile_data_frame (p q : Project) (f : File.t) :
  previousFiles q = previousFiles p -> options q = options p ->
  version q = version p ->
  addFile_data q f = addFile_data p f.
Proof.
  intros Hprev Hopt Hver. unfold addFile_data, getFileDataFromGulpFile,
    getFileData. now rewrite Hprev, Hopt, Hver.
Qed.

Lemma fold_addFile_get_other (files : list File.t) (q : Project) (k : str) :
  (forall g, In g files -> key g <> k) ->
  JsMap.get k (currentFiles (fold_left addFile files q))
  = JsMap.get k (currentFiles q).
Proof.
  revert q. induction files as [|g files IH]; intros q H; [reflexivity|].
  simpl. rewrite IH by (intros; apply H; now right).
  rewrite addFile_current. apply get_set_other. apply H. now left.
Qed.

Lemma ingest_get_last (p : Project) (before after : list File.t)
    (f : File.t) :
  (forall g, In g after -> key g <> key f) ->
  JsMap.get (key f) (currentFiles (ingest p (before ++ f :: after)))
  = Some (fst (addFile_data (reset p) f)).
Proof.
  intros Hafter. unfold ingest. rewrite fold_left_app. simpl.
  rewrite fold_addFile_get_other by exact Hafter.
  rewrite addFile_current, get_set_same. f_equal. f_equal.
  destruct (fold_addFile_frame before (reset p))
    as (Hprev & _ & _ & _ & Hopt & Hver & _).
  now apply addFile_data_frame.
Qed.

(** X5.  The table of current files maps the normalized path of an input file
    to the data of the last file written with that normalized path: the
    file itself, its path as written and its content; a path that no
    input file normalizes to is not a key. *)
Theorem ingest_last_wins (p : Project) (before after : list File.t)
    (f : File.t) (k : str) :
  (forall g, In g after -> key g <> key f) ->
  (exists d,
     JsMap.get (key f) (currentFiles (ingest p (before ++ f :: after)))
     = Some d /\
     d = fst (addFile_data (reset p) f) /\
     FileData.file d = Some f /\
     FileData.originalFilename d = File.path f /\
     FileData.content d = File.contents f) /\
  ((forall g, In g (before ++ f :: after) -> key g <> k) ->
   JsMap.get k (currentFiles (ingest p (before ++ f :: after))) = None).
Proof.
  intros Hafter. split; [|intros Hk].
  - exists (fst (addFile_data (reset p) f)).
    destruct (addFile_data_fields (reset p) f) as (Hname & Hcontent & Hfile).
    split_ands; auto. now apply ingest_get_last.
  - unfold ingest. now rewrite fold_addFile_get_other.
Qed.

Lemma fold_addFile_changed (files : list File.t) (q : Project) :
  isFileChanged q = true -> isFileChanged (fold_left addFile files q) = true.
Proof.
  revert q. induction files as [|g files IH]; intros q H; [exact H|].
  simpl. apply IH. rewrite addFile_changed, H.
  now destruct (snd (addFile_data q g)).
Qed.

Lemma ingest_changed (p : Project) (files : list File.t) (f : File.t) :
  In f files ->
  (JsMap.get (key f) (currentFiles p) = None \/
   exists old, JsMap.get (key f) (currentFiles p) = Some old /\
               FileData.content old <> File.contents f) ->
  isFileChanged (ingest p files) = true.
Proof.
  intros Hin Hnew.
  apply in_split in Hin as (before & after & ->).
  unfold ingest. rewrite fold_left_app. simpl.
  apply fold_addFile_changed. rewrite addFile_changed.
  set (q := fold_left addFile before (reset p)).
  assert (Hq : addFile_data q f = addFile_data (reset p) f).
  { destruct (fold_addFile_frame before (reset p))
      as (Hprev & _ & _ & _ & Hopt & Hver & _).
    now apply addFile_data_frame. }
  rewrite Hq. unfold addFile_data. fold (key f). simpl previousFiles.
  destruct Hnew as [-> | (old & -> & Hne)]; [reflexivity|].
  apply str_eqb_neq in Hne. now rewrite Hne.
Qed.

(** X6.  A generation with a file that is new, or whose content differs from
    the content its normalized path had in the generation before, is
    never replayed: [lazyCompile] returns [false] and pushes nothing,
    whatever the other files and the cached output are. *)
Theorem changed_file_forces_compile (p : Project) (files : list File.t)
    (f : File.t) :
  In f files ->
  (JsMap.get (key f) (currentFiles p) = None \/
   exists old, JsMap.get (key f) (currentFiles p) = Some old /\
               FileData.content old <> File.contents f) ->
  isFileChanged (ingest p files) = true /\
  lazyCompile (startRun (ingest p files))
  = (Ret false, startRun (ingest p files)) /\
  streamCompile true (startRun (ingest p files))
  = Resolve (startRun (ingest p files)).
Proof.
  intros Hin Hnew.
  pose proof (ingest_changed p files f Hin Hnew) as Hch.
  assert (Hlazy : lazyCompile (startRun (ingest p files))
                  = (Ret false, startRun (ingest p files))).
  { apply lazyCompile_ineligible. simpl. unfold canReplay. now rewrite Hch. }
  split_ands; [exact Hch | exact Hlazy |].
  unfold streamCompile. simpl negb. cbv iota. now rewrite Hlazy.
Qed.

End FileTable.

Section FileTableWitness.
#[local] Existing Instance Demo.engine.

Lemma ingest_last_wins_witness :
  (exists d,
     JsMap.get (key (Demo.file "/src/a.ts" "y"))
               (currentFiles
                  (ingest Demo.perFile
                          ([Demo.file "/src/A.ts" "x"]
                           ++ Demo.file "/src/a.ts" "y" :: [])))
     = Some d /\
     d = fst (addFile_data (reset Demo.perFile) (Demo.file "/src/a.ts" "y")) /\
     FileData.file d = Some (Demo.file "/src/a.ts" "y") /\
     FileData.originalFilename d = File.path (Demo.file "/src/a.ts" "y") /\
     FileData.content d = File.contents (Demo.file "/src/a.ts" "y")) /\
  JsMap.get (lit "/src/b.ts")
            (currentFiles
               (ingest Demo.perFile
                       ([Demo.file "/src/A.ts" "x"]
                        ++ Demo.file "/src/a.ts" "y" :: []))) = None.
Proof.
  destruct (@ingest_last_wins Demo.engine Demo.perFile
              [Demo.file "/src/A.ts" "x"] [] (Demo.file "/src/a.ts" "y")
              (lit "/src/b.ts")) as [Hlast Hnone].
  - intros g [].
  - split; [exact Hlast|]. apply Hnone.
    intros g [<- | [<- | []]]; vm_compute; discriminate.
Defined.

Lemma changed_file_forces_compile_witness :
  isFileChanged (ingest Demo.built [Demo.file "/src/A.ts" "let a";
                                    Demo.file "/src/b.ts" "let c"]) = true /\
  lazyCompile (startRun (ingest Demo.built
                                [Demo.file "/src/A.ts" "let a";
                                 Demo.file "/src/b.ts" "let c"]))
  = (Ret false,
     startRun (ingest Demo.built [Demo.file "/src/A.ts" "let a";
                                  Demo.file "/src/b.ts" "let c"])) /\
  streamCompile true
    (startRun (ingest Demo.built [Demo.file "/src/A.ts" "let a";
                                  Demo.file "/src/b.ts" "let c"]))
  = Resolve (startRun (ingest Demo.built [Demo.file "/src/A.ts" "let a";
                                          Demo.file "/src/b.ts" "let c"])).
Proof.
  apply (@changed_file_forces_compile Demo.engine Demo.built
           [Demo.file "/src/A.ts" "let a"; Demo.file "/src/b.ts" "let c"]
           (Demo.file "/src/b.ts" "let c")).
  - right. left. reflexivity.
  - right.
    exists (getFileDataFromGulpFile (reset Demo.perFile)
              (Demo.file "/src/b.ts" "let b")).
    split; [vm_compute; reflexivity | vm_compute; discriminate].
Defined.

End FileTableWitness.

(* ------------------------------------------------------------------ *)
(** *** What [compile] hands to the engine *)
(* ------------------------------------------------------------------ *)

Lemma set_fresh {V} (m : JsMap.t V) (k : str) (v : V) :
  ~ In k (JsMap.keys m) -> JsMap.set k v m = m ++ [(k, v)].
Proof.
  induction m as [|[k' v'] m IH]; intros H; [reflexivity|].
  simpl. destruct (eqb k' k) eqn:Hk.
  - apply str_eqb_eq in Hk. subst. exfalso. apply H. now left.
  - rewrite IH; [reflexivity|]. intros Hin. apply H. now right.
Qed.

Lemma get_app {V} (m m' : JsMap.t V) (k : str) :
  JsMap.get k (m ++ m')
  = match JsMap.get k m with
    | Some v => Some v
    | None => JsMap.get k m'
    end.
Proof.
  induction m as [|[k' v'] m IH]; [reflexivity|].
  simpl. destruct (eqb k' k); [reflexivity | exact IH].
Qed.

Lemma get_map_values {V W} (g : V -> W) (m : JsMap.t V) (k : str) :
  JsMap.get k (map (fun kv => (fst kv, g (snd kv))) m)
  = option_map g (JsMap.get k m).
Proof.
  induction m as [|[k' v'] m IH]; [reflexivity|].
  simpl. destruct (eqb k' k); [reflexivity | exact IH].
Qed.

Lemma get_filter_keys {V} (pass : str -> bool) (m : JsMap.t V) (k : str) :
  JsMap.get k (filter (fun kv => pass (fst kv)) m)
  = if pass k then JsMap.get k m else None.
Proof.
  induction m as [|[k' v'] m IH]; [now destruct (pass k)|].
  simpl. destruct (pass k') eqn:Hp; simpl.
  - destruct (eqb k' k) eqn:Hk; [|exact IH].
    apply str_eqb_eq in Hk. subst. now rewrite Hp.
  - rewrite IH. destruct (eqb k' k) eqn:Hk; [|reflexivity].
    apply str_eqb_eq in Hk. subst. now rewrite Hp.
Qed.

(** Assigning the entries of a table with distinct keys, in order, to
    another table: the keys that were there keep their place and take
    the new values. *)
Lemma fold_set_get {V W} (g : V -> W) (l : JsMap.t V) :
  NoDup (JsMap.keys l) ->
  forall (m : JsMap.t W) (k : str),
    JsMap.get k (fold_left (fun m kv => JsMap.set (fst kv) (g (snd kv)) m)
                           l m)
    = match JsMap.get k l with
      | Some v => Some (g v)
      | None => JsMap.get k m
      end.
Proof.
  induction l as [|[k' v'] l IH]; intros Hnd m k; [reflexivity|].
  simpl in Hnd. apply NoDup_cons_iff in Hnd as [Hk' Hnd].
  simpl. rewrite IH by exact Hnd.
  destruct (eqb k' k) eqn:Hk.
  - apply str_eqb_eq in Hk. subst k'.
    destruct (JsMap.get k l) eqn:Hg.
    + exfalso. apply Hk'. apply get_in_keys. congruence.
    + apply get_set_same.
  - destruct (JsMap.get k l); [reflexivity|].
    apply get_set_other. now apply str_eqb_neq.
Qed.

Section EngineInput.
Context {E : Engine}.

Lemma fold_addFile_list (files : list File.t) (q : Project) :
  NoDup (JsMap.keys (currentFiles q) ++ map key files) ->
  currentFiles (fold_left addFile files q)
  = currentFiles q ++ map (fun f => (key f, fst (addFile_data q f))) files.
Proof.
  revert q. induction files as [|f files IH]; intros q Hnd.
  - simpl. now rewrite app_nil_r.
  - simpl.
    assert (Hfresh : ~ In (key f) (JsMap.keys (currentFiles q))).
    { intros Hin. apply NoDup_remove_2 in Hnd. apply Hnd.
      apply in_or_app. now left. }
    assert (Hcur : currentFiles (addFile q f)
                   = currentFiles q ++ [(key f, fst (addFile_data q f))]).
    { rewrite addFile_current. now apply set_fresh. }
    rewrite IH.
    + rewrite Hcur, <- app_assoc. simpl. f_equal. f_equal.
      apply map_ext. intros g. f_equal. f_equal.
      destruct (addFile_frame q f) as (Hp & _ & _ & _ & Ho & Hv & _).
      now apply addFile_data_frame.
    + rewrite Hcur. unfold JsMap.keys in *. rewrite map_app. simpl.
      rewrite <- app_assoc. simpl.
      apply NoDup_remove_1 in Hnd as Hnd1.
      apply NoDup_remove_2 in Hnd as Hnd2.
      clear - Hnd1 Hnd2.
      induction (map fst (currentFiles q)) as [|a l IHl]; simpl in *.
      * now constructor.
      * apply NoDup_cons_iff in Hnd1 as [Ha Hl]. constructor.
        -- intros Hin. apply in_app_or in Hin as [Hin | [<- | Hin]].
           ++ apply Ha, in_or_app. now left.
           ++ apply Hnd2. now left.
           ++ apply Ha, in_or_app. now right.
        -- apply IHl; [exact Hl|]. intros Hin. apply Hnd2. now right.
Qed.

Lemma ingest_list (p : Project) (files : list File.t) :
  NoDup (map key files) ->
  currentFiles (ingest p files)
  = map (fun f => (key f, fst (addFile_data (reset p) f))) files.
Proof. intros H. unfold ingest. now rewrite fold_addFile_list. Qed.

(** X7.  The engine is started on the paths of the input files as they were
    written, not normalized, once each and in the order of arrival (the
    files that pass the filter, when there is one), and the host gets a
    table in which a key holds its additional file, or else its current
    file if that passes the filter.  The input files have pairwise
    distinct normalized paths; their paths are absolute, as the paths of
    vinyl files are, so that no key is an array index, which an object
    would enumerate before the other keys. *)
Theorem compilerInput_roots (p0 : Project) (files : list File.t)
    (adds : JsMap.t Slot) (k : str) :
  NoDup (map key files) ->
  (forall f, In f files -> Path.isAbsolute (File.path f) = true) ->
  NoDup (JsMap.keys adds) ->
  let p := setAdditionalFiles adds (ingest p0 files) in
  let passes (filename : str) :=
    match filterSettings p0 with
    | None => true
    | Some settings => filterMatch settings (currentFiles p) filename
    end in
  fst (compilerInput p)
  = map File.path (filter (fun f => passes (key f)) files) /\
  JsMap.get k (snd (compilerInput p))
  = match JsMap.get k adds with
    | Some slot => Some slot
    | None => if passes k
              then option_map resolvedFile (JsMap.get k (currentFiles p))
              else None
    end.
Proof.
  intros Hnd _ Hadds p passes.
  assert (Hfs : filterSettings p = filterSettings p0).
  { unfold p, ingest. simpl.
    destruct (fold_addFile_frame files (reset p0))
      as (_ & _ & _ & _ & _ & _ & _ & _ & Hf).
    exact Hf. }
  assert (Hcur : currentFiles p
                 = map (fun f => (key f, fst (addFile_data (reset p0) f)))
                       files)
    by (apply ingest_list, Hnd).
  unfold compilerInput. rewrite Hfs.
  change (additionalFiles p) with adds. cbn [fst snd].
  change (fun kv : str * FileData.t =>
            match filterSettings p0 with
            | Some settings =>
                filterMatch settings (currentFiles p) (fst kv)
            | None => true
            end)
    with (fun kv : str * FileData.t => passes (fst kv)).
  clearbody passes. split.
  - rewrite Hcur. clear.
    induction files as [|f files IH]; [reflexivity|].
    simpl. destruct (passes (key f)); simpl; [|exact IH].
    f_equal; [|exact IH].
    apply (addFile_data_fields (reset p0) f).
  - rewrite (fold_set_get (fun s : Slot => s) adds Hadds).
    destruct (JsMap.get k adds); [reflexivity|].
    assert (Hroots : NoDup (JsMap.keys
                              (filter (fun kv => passes (fst kv))
                                      (currentFiles p)))).
    { rewrite Hcur. clear - Hnd.
      induction files as [|f files IH]; [constructor|].
      simpl in Hnd. apply NoDup_cons_iff in Hnd as [Hf Hnd].
      simpl. destruct (passes (key f)); [|now apply IH].
      simpl. constructor; [|now apply IH].
      intros Hin. apply Hf.
      unfold JsMap.keys in Hin. apply in_map_iff in Hin as ([k' d] & Hk & Hin).
      simpl in Hk. subst k'. apply filter_In in Hin as [Hin _].
      apply in_map_iff in Hin as (g & Hg & Hin). injection Hg as Hg _.
      rewrite <- Hg. now apply in_map. }
    rewrite (fold_set_get resolvedFile _ Hroots).
    rewrite get_filter_keys. simpl.
    now destruct (passes k), (JsMap.get k (currentFiles p)).
Qed.

(** X8.  [compile] reads the working directory of the host off the current
    file with the key [0]: it is the empty string unless an input file
    has the normalized path [0], and then it is the working directory of
    the last such file. *)
Theorem hostCwd_of_generation (p0 : Project) (before after : list File.t)
    (f : File.t) (adds : JsMap.t Slot) :
  ((forall g, In g (before ++ after) -> key g <> lit "0") ->
   hostCwd (setAdditionalFiles adds (ingest p0 (before ++ after)))
   = Some []) /\
  (key f = lit "0" -> (forall g, In g after -> key g <> lit "0") ->
   hostCwd (setAdditionalFiles adds (ingest p0 (before ++ f :: after)))
   = Some (File.cwd f)).
Proof.
  split.
  - intros H. unfold hostCwd. cbn [currentFiles setAdditionalFiles].
    unfold ingest. now rewrite fold_addFile_get_other.
  - intros Hf Hafter. unfold hostCwd. cbn [currentFiles setAdditionalFiles].
    assert (Hafter' : forall g, In g after -> key g <> key f)
      by now rewrite Hf.
    pose proof (@ingest_get_last E p0 before after f Hafter') as Hget.
    destruct (addFile_data_fields (reset p0) f) as (_ & _ & Hfile).
    rewrite Hf in Hget. rewrite Hget. simpl in Hfile. rewrite Hfile.
    reflexivity.
Qed.

End EngineInput.

Section EngineInputWitness.
#[local] Existing Instance Demo.engine.

Lemma compilerInput_roots_witness :
  let p := setAdditionalFiles (JsMap.empty Slot)
                              (ingest Demo.perFile Demo.twoFiles) in
  let passes (filename : str) :=
    match filterSettings Demo.perFile with
    | None => true
    | Some settings => filterMatch settings (currentFiles p) filename
    end in
  fst (compilerInput p)
  = map File.path (filter (fun f => passes (key f)) Demo.twoFiles) /\
  JsMap.get (lit "/src/a.ts") (snd (compilerInput p))
  = match JsMap.get (lit "/src/a.ts") (JsMap.empty Slot) with
    | Some slot => Some slot
    | None => if passes (lit "/src/a.ts")
              then option_map resolvedFile
                     (JsMap.get (lit "/src/a.ts") (currentFiles p))
              else None
    end.
Proof.
  apply (@compilerInput_roots Demo.engine Demo.perFile Demo.twoFiles
           (JsMap.empty Slot) (lit "/src/a.ts")).
  - vm_compute. constructor; [|constructor; [intros [] | constructor]].
    intros [H | []]. discriminate H.
  - intros f [<- | [<- | []]]; reflexivity.
  - constructor.
Defined.

End EngineInputWitness.

(* ------------------------------------------------------------------ *)
(** *** The artifacts of a concatenated build *)
(* ------------------------------------------------------------------ *)

Section Concatenated.
Context {E : Engine}.

Lemma fold_addFile_firstFile (files : list File.t) (q : Project) :
  firstFile (fold_left addFile files q)
  = match firstFile q with
    | Some d => Some d
    | None => match files with
              | [] => None
              | f :: _ => Some (fst (addFile_data q f))
              end
    end.
Proof.
  revert q. induction files as [|f files IH]; intros q.
  - simpl. now destruct (firstFile q).
  - simpl. rewrite IH. unfold addFile at 1.
    destruct (addFile_data q f) as [d changed] eqn:Hd. simpl.
    destruct (firstFile q); reflexivity.
Qed.

(** X9.  With the [out] option every script and every declaration that
    [compile] pushes is named after the [out] path joined to the base of
    the first input file written, whatever file the engine wrote it for,
    and carries the working directory and the base of that first file. *)
Theorem out_mode_artifacts (p0 : Project) (f : File.t) (rest : list File.t)
    (adds : JsMap.t Slot) (target : str) (o : outcome unit) (r1 : Run)
    (res : EngineResult) :
  out (options p0) = Some target ->
  engineResult (setAdditionalFiles adds (ingest p0 (f :: rest))) = Some res ->
  compile (startRun (setAdditionalFiles adds (ingest p0 (f :: rest))))
  = (o, r1) ->
  Forall (fun g =>
            File.path g
            = withoutExtension (Path.join2 (File.base f) target) ++ lit ".js" /\
            File.cwd g = File.cwd f /\ File.base g = File.base f)
         (jsStream r1) /\
  Forall (fun g =>
            File.path g
            = withoutExtension (Path.join2 (File.base f) target)
              ++ lit ".d.ts" /\
            File.cwd g = File.cwd f /\ File.base g = File.base f)
         (declStream r1).
Proof.
  intros Hout Hres Hc.
  set (p := setAdditionalFiles adds (ingest p0 (f :: rest))) in *.
  assert (Hopt : out (options p) = Some target).
  { unfold p. simpl. destruct (ingest_frame p0 (f :: rest))
      as (_ & _ & _ & _ & -> & _). exact Hout. }
  assert (Hfirst : firstFile p = Some (fst (addFile_data (reset p0) f))).
  { unfold p, ingest. simpl firstFile.
    change (fold_left addFile rest (addFile (reset p0) f))
      with (fold_left addFile (f :: rest) (reset p0)).
    now rewrite fold_addFile_firstFile. }
  destruct (addFile_data_fields (reset p0) f) as (_ & _ & Hfile).
  assert (Horigin : forall filename original full g,
            origin p filename original full ->
            FileData.file original = Some g ->
            g = f /\ full = Path.join2 (File.base f) target).
  { intros filename original full g Hor Hg. unfold origin in Hor.
    rewrite Hopt, Hfirst in Hor. destruct Hor as (Heq & g' & Hg' & ->).
    injection Heq as <-. simpl in Hfile. rewrite Hfile in Hg, Hg'.
    injection Hg as <-. injection Hg' as <-. now split. }
  destruct (compile_spec _ Hc Hres)
    as (outs & js & dts & Houts & Hjs & Hdts & Hjs1 & Hdecl1 & _).
  simpl in Hjs1, Hdecl1. split.
  - rewrite Hjs1. rewrite Forall_forall in *. intros g Hg.
    destruct (Hjs g Hg) as (f' & Hf' & Hpath & _ & Hcwd & Hbase).
    destruct (Houts f' Hf')
      as (filename & data & original & full & gf & _ & _ & Hor & Hgf & ->).
    destruct (Horigin _ _ _ _ Hor Hgf) as [-> ->].
    rewrite Hpath, Hcwd, Hbase. now split_ands.
  - rewrite Hdecl1. rewrite Forall_forall in *. intros g Hg.
    destruct (Hdts g Hg)
      as (filename & data & original & full & gf & _ & _ & Hor & Hgf & ->).
    destruct (Horigin _ _ _ _ Hor Hgf) as [-> ->]. now split_ands.
Qed.

End Concatenated.

Section ConcatenatedWitness.
#[local] Existing Instance Demo.engine.

Lemma out_mode_artifacts_witness :
  Forall (fun g =>
            File.path g
            = withoutExtension
                (Path.join2 (File.base (Demo.file "/app.ts" "x"))
                            (lit "App.js")) ++ lit ".js" /\
            File.cwd g = File.cwd (Demo.file "/app.ts" "x") /\
            File.base g = File.base (Demo.file "/app.ts" "x"))
         (jsStream Demo.concatenatedBuild) /\
  Forall (fun g =>
            File.path g
            = withoutExtension
                (Path.join2 (File.base (Demo.file "/app.ts" "x"))
                            (lit "App.js")) ++ lit ".d.ts" /\
            File.cwd g = File.cwd (Demo.file "/app.ts" "x") /\
            File.base g = File.base (Demo.file "/app.ts" "x"))
         (declStream Demo.concatenatedBuild).
Proof.
  apply (@out_mode_artifacts Demo.engine Demo.concatenated
           (Demo.file "/app.ts" "x") [Demo.file "/lib.ts" "y"]
           (JsMap.empty Slot) (lit "App.js") (Ret tt) Demo.concatenatedBuild
           (Demo.resultOf (setAdditionalFiles (JsMap.empty Slot)
                             (ingest Demo.concatenated Demo.appAndLib)))).
  - reflexivity.
  - vm_compute. reflexivity.
  - vm_compute. reflexivity.
Defined.

End ConcatenatedWitness.

(* ------------------------------------------------------------------ *)
(** *** Emission without sorting *)
(* ------------------------------------------------------------------ *)

Section Unsorted.
Context {E : Engine}.

Lemma emit_loop (p0 : Project) (maps : JsMap.t str) (l : list File.t) :
  forall c, sourcemaps c = maps -> inputs (proj (run c)) = inputs p0 ->
    exists pushed rest js,
      l = pushed ++ rest /\
      jsStream (run (snd (for_each l (fun file => emit (nameOf file) file) c)))
      = jsStream (run c) ++ js /\
      map Some js = map (fun f => withSourceMap p0 maps (nameOf f) f) pushed /\
      match rest with
      | [] => fst (for_each l (fun file => emit (nameOf file) file) c) = Ret tt
      | f :: _ =>
          withSourceMap p0 maps (nameOf f) f = None /\
          fst (for_each l (fun file => emit (nameOf file) file) c) = Throw
      end.
Proof.
  induction l as [|f l IH]; intros c Hm Hi.
  - exists [], [], []. simpl. rewrite app_nil_r. now split_ands.
  - rewrite for_each_step. pose proof (emit_cases (nameOf f) f c) as He.
    rewrite Hm, (withSourceMap_inputs maps (nameOf f) f Hi) in He.
    destruct (withSourceMap p0 maps (nameOf f) f) as [g|] eqn:Hg; rewrite He.
    + match goal with
      | |- context [for_each l _ ?c1] =>
          destruct (IH c1) as (pushed & rest & js & Hl & Hjs & Hmap & Hrest)
      end.
      { destruct c. exact Hm. }
      { destruct c. exact Hi. }
      exists (f :: pushed), rest, (g :: js). split_ands.
      * simpl. now rewrite Hl.
      * rewrite Hjs. destruct c. simpl. now rewrite <- app_assoc.
      * simpl. now rewrite Hg, Hmap.
      * exact Hrest.
    + exists [], (f :: l), []. simpl. rewrite app_nil_r. now split_ands.
Qed.

(** X10.  Without [sortOutput] the scripts collected are pushed once each,
    in the order in which the engine wrote them, up to the first script
    on whose map [emit] throws; the emission returns when there is no
    such script, and throws at it otherwise. *)
Theorem emitAll_unsorted (res : EngineResult) (c : Compiling) :
  sortOutput (proj (run c)) = false ->
  exists pushed rest js,
    outputJS c = pushed ++ rest /\
    jsStream (run (snd (emitAll res c))) = jsStream (run c) ++ js /\
    map Some js = map (emitted c) pushed /\
    match rest with
    | [] => fst (emitAll res c) = Ret tt
    | f :: _ => emitted c f = None /\ fst (emitAll res c) = Throw
    end.
Proof.
  intros Hsort. rewrite emitAll_unfold, Hsort.
  exact (@emit_loop (proj (run c)) (sourcemaps c) (outputJS c) c
           eq_refl eq_refl).
Qed.

End Unsorted.

Section UnsortedWitness.
#[local] Existing Instance Demo.engine.

Lemma emitAll_unsorted_witness :
  exists pushed rest js,
    outputJS Demo.plainEmission = pushed ++ rest /\
    jsStream (run (snd (emitAll (Demo.resultOf (ingest Demo.perFile Demo.chain))
                                Demo.plainEmission)))
    = jsStream (run Demo.plainEmission) ++ js /\
    map Some js = map (emitted Demo.plainEmission) pushed /\
    match rest with
    | [] =>
        fst (emitAll (Demo.resultOf (ingest Demo.perFile Demo.chain))
                     Demo.plainEmission) = Ret tt
    | f :: _ =>
        emitted Demo.plainEmission f = None /\
        fst (emitAll (Demo.resultOf (ingest Demo.perFile Demo.chain))
                     Demo.plainEmission) = Throw
    end.
Proof.
  apply (@emitAll_unsorted Demo.engine
           (Demo.resultOf (ingest Demo.perFile Demo.chain))
           Demo.plainEmission).
  reflexivity.
Defined.

End UnsortedWitness.

(* ------------------------------------------------------------------ *)
(** *** Sorted emission of a script the program does not know *)
(* ------------------------------------------------------------------ *)

Lemma for_each_ret_inv {S X} (I : S -> Prop) (l : list X)
    (body : X -> M S unit) :
  (forall x s, In x l -> fst (body x s) = Ret tt -> I s -> I (snd (body x s))) ->
  forall s, fst (for_each l body s) = Ret tt -> I s ->
            I (snd (for_each l body s)).
Proof.
  induction l as [|x l IH]; intros Hb s Hret Hs; [exact Hs|].
  rewrite for_each_step in *.
  pose proof (Hb x s (or_introl eq_refl)) as Hx.
  destruct (body x s) as [[[]| |] s']; simpl in *; try discriminate.
  apply IH; auto.
Qed.

Lemma for_each_ret_head {S X} (x : X) (l : list X) (body : X -> M S unit)
    (s : S) :
  fst (for_each (x :: l) body s) = Ret tt ->
  fst (body x s) = Ret tt /\
  fst (for_each l body (snd (body x s))) = Ret tt /\
  snd (for_each (x :: l) body s) = snd (for_each l body (snd (body x s))).
Proof.
  rewrite for_each_step.
  destruct (body x s) as [[[]| |] s']; simpl; try discriminate. auto.
Qed.

Section UnknownScript.
Variable emits : File.t -> bool.
Variable res : EngineResult.
Variable outs : list File.t.
Hypothesis emits_name :
  forall f g, nameOf f = nameOf g -> emits f = emits g.

Lemma visit_ret_good (fuel : nat) :
  forall file t,
    fst (visit emits fuel res outs (getOriginalName (File.path file)) file t)
    = Ret tt ->
    (forall x,
       In x (fst (snd (visit emits fuel res outs
                             (getOriginalName (File.path file)) file t))) ->
       In x (fst t) \/ emittable emits res x) /\
    In (nameOf file)
       (fst (snd (visit emits fuel res outs
                        (getOriginalName (File.path file)) file t))).
Proof.
  induction fuel as [|fuel IH]; intros file t Hret; [discriminate|].
  rewrite visit_step in *. fold (nameOf file) in *.
  destruct (includes (nameOf file) (fst t)) eqn:Hinc.
  - split; [intros x Hx; now left | now apply includes_In].
  - destruct (getSourceFile res (nameOf file)) as [tsFile|] eqn:Hts;
      [|discriminate].
    set (n := nameOf file) in *.
    set (t1 := (n :: fst t, snd t)) in *.
    assert (Hloop :
      fst (for_each outs (visitReferences emits res outs fuel tsFile) t1)
      = Ret tt ->
      (forall x, In x (fst (snd (for_each outs
                    (visitReferences emits res outs fuel tsFile) t1))) ->
                 In x (fst t1) \/ emittable emits res x) /\
      In n (fst (snd (for_each outs
                        (visitReferences emits res outs fuel tsFile) t1)))).
    { intros Hr.
      apply (for_each_ret_inv
               (fun u : Trail =>
                  (forall x, In x (fst u) -> In x (fst t1) \/ emittable emits res x) /\
                  In n (fst u)));
        [|exact Hr | split; [intros x Hx; now left | now left]].
      intros other u _ Ho [Hu Hn]. unfold visitReferences in Ho |- *.
      destruct (includes (getOriginalName (File.path other))
                         (SourceFile.referencedFiles tsFile));
        [|simpl; split; [exact Hu | exact Hn]].
      destruct (IH other u Ho) as [Hk _]. split.
      - intros x Hx. destruct (Hk x Hx) as [Hx' | Hx']; [now apply Hu|].
        now right.
      - apply (@visit_marks_more emits res outs (fst u) fuel
                 (getOriginalName (File.path other)) other u
                 (incl_refl _)), Hn. }
    destruct (for_each outs (visitReferences emits res outs fuel tsFile) t1)
      as [[[]| |] u]; try discriminate.
    destruct (emits file) eqn:He; [|discriminate].
    simpl in *. destruct (Hloop eq_refl) as [Hk Hn]. split; [|exact Hn].
    intros x Hx. destruct (Hk x Hx) as [[<- | Hx'] | Hx'].
    + right. split; [congruence|]. intros f Hf.
      now rewrite (emits_name f file Hf).
    + now left.
    + now right.
Qed.

Lemma visitAll_ret_good (l : list File.t) :
  forall t,
    fst (for_each l (fun file =>
           visit emits (emitFuel outs) res outs
                 (getOriginalName (File.path file)) file) t) = Ret tt ->
    (forall x, In x (fst t) -> emittable emits res x) ->
    forall f, In f l -> emittable emits res (nameOf f).
Proof.
  induction l as [|b l IH]; intros t Hret Hgood f Hf; [destruct Hf|].
  apply for_each_ret_head in Hret as (Hb & Hrest & _).
  destruct (visit_ret_good _ _ _ Hb) as [Hk Hin].
  assert (Hgood' : forall x,
            In x (fst (snd (visit emits (emitFuel outs) res outs
                                  (getOriginalName (File.path b)) b t))) ->
            emittable emits res x).
  { intros x Hx. destruct (Hk x Hx) as [Hx' | Hx']; [now apply Hgood|].
    exact Hx'. }
  destruct Hf as [<- | Hf].
  - apply Hgood', Hin.
  - now apply (IH _ Hrest Hgood').
Qed.

Lemma visitAll_ret_known (l : list File.t) (f : File.t) :
  fst (for_each l (fun file =>
         visit emits (emitFuel outs) res outs
               (getOriginalName (File.path file)) file) ([], [])) = Ret tt ->
  In f l -> getSourceFile res (nameOf f) <> None /\ emits f = true.
Proof.
  intros Hret Hf.
  destruct (@visitAll_ret_good l ([], []) Hret (fun x (H : In x []) =>
              match H with end) f Hf) as [Hk He].
  split; [exact Hk | now apply He].
Qed.

End UnknownScript.

Section SortedFailure.
Context {E : Engine}.

Lemma composes_name (p : Project) (maps : JsMap.t str) (f g : File.t) :
  nameOf f = nameOf g -> composes p maps f = composes p maps g.
Proof.
  intros H. unfold composes, withSourceMap. rewrite H.
  destruct (JsMap.get _ maps) as [[|ch m]|]; try reflexivity.
  destruct (JSON_parse (ch :: m)) as [parsedMap|]; [|reflexivity].
  destruct (mapFile parsedMap); [|reflexivity].
  destruct (mapSources parsedMap); [|reflexivity].
  destruct (composeSourceMap _ _ _); reflexivity.
Qed.

(** X11.  With [sortOutput] the emission returns if and only if, for every
    script, the program has a source file for its normalized original
    name and [emit] does not throw on its map; otherwise it throws:
    [sortedEmit] reads the references of a source file that is
    [undefined], or [emit] a map that is not one. *)
Theorem sortedEmit_unknown_script (res : EngineResult) (c : Compiling) :
  sortOutput (proj (run c)) = true -> done c = [] ->
  (fst (emitAll res c) = Ret tt <->
   forall f, In f (outputJS c) ->
     getSourceFile res (nameOf f) <> None /\ emitted c f <> None) /\
  (fst (emitAll res c) = Throw <->
   exists f, In f (outputJS c) /\
     (getSourceFile res (nameOf f) = None \/ emitted c f = None)).
Proof.
  intros Hsort Hdone.
  destruct (emitAll_sorted res c Hsort) as [Ho _]. rewrite Hdone in Ho.
  set (emits := composes (proj (run c)) (sourcemaps c)) in *.
  destruct (@visitAll_ends emits res (outputJS c) (outputJS c) ([], [])
              (incl_refl _)) as [Hfuel Hret].
  fold (visitAll emits res (outputJS c)) in Hfuel, Hret.
  assert (Hem : forall f, emitted c f <> None <-> emits f = true).
  { intros f. unfold emitted, emits, composes.
    destruct (withSourceMap _ _ (nameOf f) f); split; congruence. }
  assert (Hiff : fst (emitAll res c) = Ret tt <->
                 forall f, In f (outputJS c) ->
                   getSourceFile res (nameOf f) <> None /\
                   emitted c f <> None).
  { rewrite Ho. split.
    - intros Hr f Hf.
      destruct (@visitAll_ret_known emits res (outputJS c)
                  (composes_name (proj (run c)) (sourcemaps c))
                  (outputJS c) f Hr Hf) as [Hk He].
      split; [exact Hk | now apply Hem].
    - intros Hall. apply Hret. intros f Hf.
      destruct (Hall f Hf) as [Hk He]. split; [exact Hk | now apply Hem]. }
  split; [exact Hiff|]. split.
  - intros Hthrow.
    destruct (Exists_dec
                (fun f => getSourceFile res (nameOf f) = None \/
                          emitted c f = None)
                (outputJS c)) as [Hex | Hnone].
    { intros f. destruct (getSourceFile res (nameOf f));
        [|left; now left].
      destruct (emitted c f); [|left; now right].
      right. intros [H | H]; discriminate. }
    + apply Exists_exists in Hex. exact Hex.
    + exfalso. assert (Hr : fst (emitAll res c) = Ret tt).
      { apply Hiff. intros f Hf. split; intros Hn; apply Hnone, Exists_exists;
          exists f; (split; [exact Hf|]); [now left | now right]. }
      congruence.
  - intros (f & Hf & Hn).
    destruct (fst (emitAll res c)) as [[]| |] eqn:Hout.
    + exfalso. destruct (proj1 Hiff eq_refl f Hf) as [Hk He].
      destruct Hn as [Hn | Hn]; contradiction.
    + reflexivity.
    + exfalso. apply Hfuel. now rewrite <- Ho.
Qed.

End SortedFailure.

Section SortedFailureWitness.
#[local] Existing Instance Demo.engine.

Lemma sortedEmit_unknown_script_witness :
  (fst (emitAll (Demo.resultOf (ingest Demo.sorted Demo.chain))
                (Demo.emissionWithMap (lit "{}")))
   = Ret tt <->
   forall f,
     In f (outputJS (Demo.emissionWithMap (lit "{}"))) ->
     getSourceFile (Demo.resultOf (ingest Demo.sorted Demo.chain)) (nameOf f)
     <> None /\
     emitted (Demo.emissionWithMap (lit "{}")) f <> None) /\
  (fst (emitAll (Demo.resultOf (ingest Demo.sorted Demo.chain))
                (Demo.emissionWithMap (lit "{}")))
   = Throw <->
   exists f,
     In f (outputJS (Demo.emissionWithMap (lit "{}"))) /\
     (getSourceFile (Demo.resultOf (ingest Demo.sorted Demo.chain)) (nameOf f)
      = None \/
      emitted (Demo.emissionWithMap (lit "{}")) f = None)).
Proof.
  apply (@sortedEmit_unknown_script Demo.engine
           (Demo.resultOf (ingest Demo.sorted Demo.chain))
           (Demo.emissionWithMap (lit "{}")));
    reflexivity.
Defined.

End SortedFailureWitness.

(* ------------------------------------------------------------------ *)
(** *** The outcome of [compile] *)
(* ------------------------------------------------------------------ *)

Section Returns.
Context {E : Engine}.
Variable p0 : Project.
Variable res : EngineResult.
Variable r0 : Run.
Variable d0 : list str.
Hypothesis attached_p0 : attached p0.
Hypothesis first_attached :
  forall d, firstFile p0 = Some d -> FileData.file d <> None.

Lemma findOriginal_returns (p : Project) (name : str) (c : Compiling) :
  options p = options p0 -> firstFile p = firstFile p0 ->
  currentFiles p = currentFiles p0 ->
  exists o, findOriginal p name c = (Ret o, c) /\
            forall original full, o = Some (original, full) ->
                                  FileData.file original <> None.
Proof.
  intros Hopt Hff Hcur. unfold findOriginal. rewrite Hopt, Hff, Hcur.
  destruct (out (options p0)) as [o|].
  - destruct (firstFile p0) as [original|] eqn:Hfirst.
    + pose proof (first_attached eq_refl) as Hf.
      unfold bind, defined. destruct (FileData.file original) as [f|] eqn:Hfo;
        [|congruence].
      eexists. split; [reflexivity|]. intros ? ? [= <- <-]. congruence.
    + exists None. split; [reflexivity | discriminate].
  - destruct (JsMap.get name (currentFiles p0)) as [original|] eqn:Hget.
    + eexists. split; [reflexivity|]. intros ? ? [= <- <-].
      apply (attached_p0 _ Hget).
    + exists None. split; [reflexivity | discriminate].
Qed.

Lemma classify_returns (p : Project) (filename data name : str)
    (original : FileData.t) (full : str) (c : Compiling) :
  FileData.file original <> None ->
  fst (classify p filename data name original full c) = Ret tt.
Proof.
  intros Hf. unfold classify.
  destruct (FileData.file original) as [f|]; [|congruence].
  destruct (eqb (substr filename (-3) None) (lit ".js")); [reflexivity|].
  destruct (eqb (substr filename (-5) None) (lit ".d.ts")); [reflexivity|].
  destruct (eqb (substr filename (-4) None) (lit ".map")); reflexivity.
Qed.

Lemma reconcile_returns (entry : str * str) (c : Compiling) :
  reconciling p0 res r0 d0 c -> fst (reconcile entry c) = Ret tt.
Proof.
  intros (Hin & _). unfold inputs in Hin.
  destruct entry as [filename data]. unfold reconcile.
  unfold bind at 1, gets.
  destruct (@findOriginal_returns (proj (run c))
              (getOriginalName (normalizePath filename)) c)
    as (o & Ho & Hfile); try congruence.
  unfold bind at 1. rewrite Ho.
  destruct o as [[original full]|]; [|reflexivity].
  apply classify_returns. now apply (Hfile original full).
Qed.

Lemma reconcile_loop_returns (c : Compiling) :
  reconciling p0 res r0 d0 c ->
  fst (for_each (output res) reconcile c) = Ret tt.
Proof.
  apply (@for_each_returns _ _ (reconciling p0 res r0 d0)).
  - intros entry Hentry. now apply reconcile_reconciling.
  - intros entry c' _. apply reconcile_returns.
Qed.

End Returns.

Section MapsWritten.
Context {E : Engine}.
Variable res : EngineResult.

Lemma findOriginal_state (p : Project) (name : str) (c : Compiling) :
  snd (findOriginal p name c) = c.
Proof.
  unfold findOriginal. destruct (out (options p)).
  - destruct (firstFile p) as [original|]; [|reflexivity].
    unfold bind, defined. now destruct (FileData.file original).
  - now destruct (JsMap.get name (currentFiles p)).
Qed.

Lemma classify_mapsWritten (p : Project) (filename data name : str)
    (original : FileData.t) (full : str) :
  In (filename, data) (output res) ->
  preserves (mapsWritten res) (classify p filename data name original full).
Proof.
  intros Hin c Hc. unfold classify. cbv zeta.
  destruct (eqb (substr filename (-3) None) (lit ".js")).
  { unfold bind, defined. destruct (FileData.file original); exact Hc. }
  destruct (eqb (substr filename (-5) None) (lit ".d.ts")).
  { unfold bind, defined. destruct (FileData.file original); exact Hc. }
  destruct (eqb (substr filename (-4) None) (lit ".map")) eqn:Hmap;
    [|exact Hc].
  intros k v Hget. simpl in Hget.
  match type of Hget with
  | JsMap.get k (JsMap.set ?k0 _ _) = _ =>
      destruct (list_eq_dec ascii_dec k0 k) as [<- | Hne]
  end.
  - rewrite get_set_same in Hget. injection Hget as <-. now exists filename.
  - rewrite get_set_other in Hget by exact Hne. exact (Hc k v Hget).
Qed.

Lemma reconcile_mapsWritten (entry : str * str) :
  In entry (output res) -> preserves (mapsWritten res) (reconcile entry).
Proof.
  intros Hin c Hc. destruct entry as [filename data].
  unfold reconcile, bind at 1, gets. cbv zeta. unfold bind.
  pose proof (findOriginal_state (proj (run c))
                (getOriginalName (normalizePath filename)) c) as Hst.
  destruct (findOriginal (proj (run c))
              (getOriginalName (normalizePath filename)) c)
    as [[[[original full]|] | |] c']; simpl in Hst; subst c'; try exact Hc.
  now apply classify_mapsWritten.
Qed.

Lemma withSourceMap_wellFormed (p : Project) (maps : JsMap.t str)
    (name : str) (file : File.t) :
  (forall k v, JsMap.get k maps = Some v ->
               exists filename, In (filename, v) (output res) /\
                 eqb (substr filename (-4) None) (lit ".map") = true) ->
  (forall filename data,
     In (filename, data) (output res) ->
     eqb (substr filename (-4) None) (lit ".map") = true ->
     wellFormedMap data) ->
  withSourceMap p maps name file <> None.
Proof.
  intros Hmaps Hwf. unfold withSourceMap.
  destruct (JsMap.get _ maps) as [[|ch m]|] eqn:Hget; try discriminate.
  destruct (Hmaps _ _ Hget) as (filename & Hin & Hext).
  destruct (Hwf _ _ Hin Hext)
    as [(parsedMap & f & srcs & -> & -> & ->) Hc].
  match goal with
  | |- context [composeSourceMap ?t ?n ?o] =>
      specialize (Hc n o); destruct (composeSourceMap t n o)
  end; congruence.
Qed.

End MapsWritten.

Section Outcome.
Context {E : Engine}.

Lemma ingest_firstFile_attached (p : Project) (files : list File.t)
    (d : FileData.t) :
  firstFile (ingest p files) = Some d -> FileData.file d <> None.
Proof.
  unfold ingest. rewrite fold_addFile_firstFile. simpl.
  destruct files as [|f files]; [discriminate|].
  intros [= <-]. destruct (addFile_data_fields (reset p) f) as (_ & _ & Hf).
  simpl in Hf. congruence.
Qed.

Lemma ingest_engineResult (p : Project) (files : list File.t)
    (adds : JsMap.t Slot) :
  engineResult (setAdditionalFiles adds (ingest p files)) <> None.
Proof.
  unfold engineResult.
  destruct (hostCwd (setAdditionalFiles adds (ingest p files))) eqn:Hcwd.
  - destruct (compilerInput (setAdditionalFiles adds (ingest p files))).
    discriminate.
  - exfalso. unfold hostCwd in Hcwd.
    cbn [currentFiles setAdditionalFiles] in Hcwd.
    destruct (JsMap.get _ (currentFiles (ingest p files))) as [d|] eqn:Hget;
      [|discriminate].
    pose proof (@ingest_attached E p files _ _ Hget) as Hf.
    destruct (FileData.file d); [discriminate | congruence].
Qed.


End Outcome.

Section OutcomeWitness.
#[local] Existing Instance Demo.engine.

Lemma demo_map_wellFormed : wellFormedMap Demo.mapText.
Proof.
  split.
  - eexists. exists (lit "out.js"), [lit "in.ts"].
    split; [vm_compute; reflexivity | split; reflexivity].
  - intros name olds. discriminate.
Defined.


End OutcomeWitness.

(* ------------------------------------------------------------------ *)
(** *** What a replay does *)
(* ------------------------------------------------------------------ *)

Section ReplayLoop.
Variable p : Project.
Variable ext : str.
Variable push : File.t -> Run -> Run.
Variable withMap : bool.
Variable stream : Run -> list File.t.
Variable rest : Run -> Project * list File.t * bool * list Diagnostic * nat.
Hypothesis push_stream : forall f r, stream (push f r) = stream r ++ [f].
Hypothesis push_rest : forall f r, rest (push f r) = rest r.
Hypothesis attached_p : attached p.

Lemma replay_loop (l : list OutputFile.t) :
  forall r,
    exists r' pushed,
      for_each l (replayOne p ext push withMap) r = (Ret tt, r') /\
      stream r' = stream r ++ pushed /\
      rest r' = rest r /\
      length pushed <= length l /\
      Forall (fun g => exists o, In o l /\ replayOf p ext withMap o = Some g)
             pushed /\
      ((forall o, In o l -> replayOf p ext withMap o <> None) ->
       map Some pushed = map (replayOf p ext withMap) l).
Proof.
  induction l as [|o l IH]; intros r.
  - exists r, []. simpl. rewrite app_nil_r. split_ands; auto.
  - rewrite for_each_step_run. unfold replayOne at 1.
    destruct (JsMap.get _ (currentFiles p)) as [original|] eqn:Hget.
    + pose proof (attached_p _ Hget) as Hfile.
      destruct (FileData.file original) as [f|] eqn:Hf; [|congruence].
      unfold bind, defined. simpl.
      match goal with
      | |- context [for_each l _ (push ?g r)] =>
          destruct (IH (push g r))
            as (r' & pushed & Hloop & Hs & Hr & Hlen & Hall & Hexact);
          exists r', (g :: pushed); rewrite Hloop;
          assert (Hg : replayOf p ext withMap o = Some g)
            by (unfold replayOf; now rewrite Hget, Hf)
      end.
      split_ands.
      * reflexivity.
      * now rewrite Hs, push_stream, <- app_assoc.
      * now rewrite Hr, push_rest.
      * simpl. lia.
      * constructor; [exists o; split; [now left | exact Hg]|].
        eapply Forall_impl; [|exact Hall].
        intros g' (o' & Ho' & Hg'). exists o'. split; [now right | exact Hg'].
      * intros Hsome. simpl. rewrite Hg. f_equal. apply Hexact.
        intros o' Ho'. apply Hsome. now right.
    + simpl. destruct (IH r)
        as (r' & pushed & Hloop & Hs & Hr & Hlen & Hall & Hexact).
      exists r', pushed. rewrite Hloop. split_ands.
      * reflexivity.
      * exact Hs.
      * exact Hr.
      * simpl. lia.
      * eapply Forall_impl; [|exact Hall].
        intros g' (o' & Ho' & Hg'). exists o'. split; [now right | exact Hg'].
      * intros Hsome. exfalso. apply (Hsome o); [now left|].
        unfold replayOf. now rewrite Hget.
Qed.

End ReplayLoop.

Section OnlyPushes.
Context {E : Engine}.

Lemma lazyCompile_replay (r : Run) :
  attached (proj r) -> canReplay (proj r) = true ->
  exists js dts,
    lazyCompile r
    = (Ret true,
       {| proj := proj r; jsStream := jsStream r ++ js;
          declStream := declStream r ++ dts; ended := ended r;
          reported := reported r; engineRuns := engineRuns r |}) /\
    length js <= length (cached (previousOutputJS (proj r))) /\
    length dts <= length (cached (previousOutputDts (proj r))) /\
    Forall (fun g => exists o,
              In o (cached (previousOutputJS (proj r))) /\
              replayOf (proj r) (lit ".js") true o = Some g) js /\
    Forall (fun g => exists o,
              In o (cached (previousOutputDts (proj r))) /\
              replayOf (proj r) (lit ".d.ts") false o = Some g) dts /\
    ((forall o, In o (cached (previousOutputJS (proj r))) ->
                replayOf (proj r) (lit ".js") true o <> None) ->
     map Some js
     = map (replayOf (proj r) (lit ".js") true)
           (cached (previousOutputJS (proj r)))) /\
    ((forall o, In o (cached (previousOutputDts (proj r))) ->
                replayOf (proj r) (lit ".d.ts") false o <> None) ->
     map Some dts
     = map (replayOf (proj r) (lit ".d.ts") false)
           (cached (previousOutputDts (proj r)))).
Proof.
  intros Hatt Hcan.
  destruct (@replay_loop (proj r) (lit ".js") pushJs true jsStream
              (fun r => (proj r, declStream r, ended r, reported r,
                         engineRuns r))
              (fun f r => eq_refl) (fun f r => eq_refl) Hatt
              (cached (previousOutputJS (proj r))) r)
    as (ra & js & Hla & Hsa & Hra & Hlena & Halla & Hexa).
  destruct (@replay_loop (proj r) (lit ".d.ts") pushDecl false declStream
              (fun r => (proj r, jsStream r, ended r, reported r,
                         engineRuns r))
              (fun f r => eq_refl) (fun f r => eq_refl) Hatt
              (cached (previousOutputDts (proj r))) ra)
    as (rb & dts & Hlb & Hsb & Hrb & Hlenb & Hallb & Hexb).
  exists js, dts. split_ands; auto.
  rewrite lazyCompile_unfold by exact Hcan.
  fold (cached (previousOutputJS (proj r))).
  fold (cached (previousOutputDts (proj r))).
  rewrite Hla, Hlb. f_equal.
  injection Hra as Hp1 Hd1 He1 Hr1 Hn1.
  injection Hrb as Hp2 Hj2 He2 Hr2 Hn2.
  destruct rb as [pb jb db eb rb nb]. simpl in *. congruence.
Qed.

(** X13.  [lazyCompile] only ever pushes: it leaves the project, the
    diagnostics reported, the count of engine runs and the open streams
    as they are and keeps what the streams hold.  When it replays, every
    file pushed is made from one cached record and the current file of
    its original name, at most one file for a record; it does not throw
    on the files of a generation. *)
Theorem lazyCompile_only_pushes (r : Run) :
  attached (proj r) ->
  exists b js dts,
    lazyCompile r
    = (Ret b,
       {| proj := proj r; jsStream := jsStream r ++ js;
          declStream := declStream r ++ dts; ended := ended r;
          reported := reported r; engineRuns := engineRuns r |}) /\
    (b = false -> js = [] /\ dts = []) /\
    length js <= length (cached (previousOutputJS (proj r))) /\
    length dts <= length (cached (previousOutputDts (proj r))) /\
    Forall (fun g => exists o,
              In o (cached (previousOutputJS (proj r))) /\
              replayOf (proj r) (lit ".js") true o = Some g) js /\
    Forall (fun g => exists o,
              In o (cached (previousOutputDts (proj r))) /\
              replayOf (proj r) (lit ".d.ts") false o = Some g) dts.
Proof.
  intros Hatt. destruct (canReplay (proj r)) eqn:Hcan.
  - destruct (lazyCompile_replay r Hatt Hcan)
      as (js & dts & Hl & Hlj & Hld & Hj & Hd & _).
    exists true, js, dts. split_ands; auto. discriminate.
  - exists false, [], []. rewrite lazyCompile_ineligible by exact Hcan.
    rewrite !app_nil_r. destruct r. simpl.
    split_ands; auto using Nat.le_0_l.
Qed.

End OnlyPushes.

Section OnlyPushesWitness.
#[local] Existing Instance Demo.engine.

Lemma lazyCompile_only_pushes_witness :
  exists b js dts,
    lazyCompile Demo.secondRun
    = (Ret b,
       {| proj := proj Demo.secondRun;
          jsStream := jsStream Demo.secondRun ++ js;
          declStream := declStream Demo.secondRun ++ dts;
          ended := ended Demo.secondRun;
          reported := reported Demo.secondRun;
          engineRuns := engineRuns Demo.secondRun |}) /\
    (b = false -> js = [] /\ dts = []) /\
    length js <= length (cached (previousOutputJS (proj Demo.secondRun))) /\
    length dts <= length (cached (previousOutputDts (proj Demo.secondRun))) /\
    Forall (fun g => exists o,
              In o (cached (previousOutputJS (proj Demo.secondRun))) /\
              replayOf (proj Demo.secondRun) (lit ".js") true o = Some g)
           js /\
    Forall (fun g => exists o,
              In o (cached (previousOutputDts (proj Demo.secondRun))) /\
              replayOf (proj Demo.secondRun) (lit ".d.ts") false o = Some g)
           dts.
Proof.
  apply (@lazyCompile_only_pushes Demo.secondRun).
  apply ingest_attached.
Defined.

End OnlyPushesWitness.

(* ------------------------------------------------------------------ *)
(** *** The files of a replay *)
(* ------------------------------------------------------------------ *)

Section ExactReplay.
Context {E : Engine}.
Variable p0 : Project.
Variable files : list File.t.
Hypothesis per_file : out (options p0) = None.
Hypothesis same_content :
  forall f g, In f files -> In g files -> key f = key g ->
              File.contents f = File.contents g.
Hypothesis typescript :
  forall f, In f files -> (exists y, key f = y ++ lit ".ts") ->
            typescriptPath (File.path f).

Lemma artifact_replayOf (p1 q : Project) (ext : str) (full : str)
    (original : FileData.t) (filename x : str) (gf : File.t)
    (content : str) (sm : option SourceMap) (withMap : bool) :
  ext = lit ".js" \/ ext = lit ".d.ts" ->
  filename = x ++ ext ->
  currentFiles p1 = currentFiles (ingest p0 files) ->
  options p1 = options p0 ->
  origin p1 filename original full ->
  FileData.file original = Some gf ->
  replayOf (ingest q files) ext withMap
    {| OutputFile.filename := withoutExtension full ++ ext;
       OutputFile.content := content;
       OutputFile.sourcemap := sm |}
  = Some {| File.path := withoutExtension full ++ ext;
            File.contents := content;
            File.cwd := File.cwd gf;
            File.base := File.base gf;
            File.sourceMap := if withMap then sm else None |}.
Proof.
  intros Hext Hx Hcur Hopt Hor Hgf.
  destruct (@artifact_original E p0 files per_file typescript p1 q ext full
              original filename x Hext Hx Hcur Hopt Hor)
    as (fa & stem & e & d & Hfile & _ & _ & Hwo & Hlen & Hd & Hdf & Hdn).
  assert (gf = fa) by congruence. subst gf.
  unfold replayOf. cbn [OutputFile.filename OutputFile.content
                        OutputFile.sourcemap].
  rewrite Hwo, Hd, Hdf, Hdn.
  replace 3%Z with (Z.of_nat (length e)) by (rewrite Hlen; lia).
  now rewrite substr_drop_suffix.
Qed.

Lemma map_Some_inj {A} (l l' : list A) : map Some l = map Some l' -> l = l'.
Proof.
  revert l'. induction l as [|a l IH]; intros [|a' l'] H; try discriminate.
  - reflexivity.
  - injection H as -> H. f_equal. now apply IH.
Qed.

Lemma replay_exact (adds : JsMap.t Slot) (r1 : Run) (res : EngineResult) :
  engineResult (setAdditionalFiles adds (ingest p0 files)) = Some res ->
  errors res = [] ->
  compile (startRun (setAdditionalFiles adds (ingest p0 files)))
  = (Ret tt, r1) ->
  exists r2,
    lazyCompile (startRun (ingest (proj r1) files)) = (Ret true, r2) /\
    jsStream r2 = jsStream r1 /\
    declStream r2 = declStream r1 /\
    proj r2 = ingest (proj r1) files.
Proof.
  intros Hres Herr Hc.
  set (p1 := setAdditionalFiles adds (ingest p0 files)) in *.
  assert (Hcur1 : currentFiles p1 = currentFiles (ingest p0 files))
    by reflexivity.
  assert (Hopt1 : options p1 = options p0).
  { unfold p1. simpl. apply (ingest_frame p0 files). }
  destruct (compile_spec _ Hc Hres)
    as (outs & js & dts & Houts & Hjs & Hdts & Hjs1 & Hdecl1 & Hpj & Hpd
        & Hin & _).
  rewrite Herr in Hpj, Hpd. simpl in Hjs1, Hdecl1.
  assert (Hcur : currentFiles (proj r1) = currentFiles (ingest p0 files)).
  { unfold inputs in Hin. change (proj (startRun p1)) with p1 in Hin.
    congruence. }
  set (p2 := ingest (proj r1) files).
  destruct (ingest_frame (proj r1) files)
    as (Hprev2 & _ & Hpj2 & Hpd2 & _).
  fold p2 in Hprev2, Hpj2, Hpd2.
  assert (Hcan : canReplay p2 = true).
  { apply (@unchanged_generation_eligible E p0 files same_content);
      [exact Hcur | |].
    - rewrite Hpj. discriminate.
    - rewrite Hpd. discriminate. }
  assert (Hrjs : forall g, In g js ->
            replayOf p2 (lit ".js") true (cachedJS g) = Some g).
  { intros g Hg. rewrite Forall_forall in Hjs, Houts.
    destruct (Hjs g Hg) as (f & Hf & Hpath & Hcontents & Hcwd & Hbase).
    destruct (Houts f Hf)
      as (filename & data & original & full & gf & _ & Hx & Hor & Hgf & ->).
    destruct (@artifact_filename filename (lit ".js") (or_introl eq_refl) Hx)
      as (x & Hfx).
    simpl in Hpath, Hcontents, Hcwd, Hbase.
    unfold cachedJS. rewrite Hpath.
    unfold p2. rewrite (@artifact_replayOf p1 (proj r1) (lit ".js") full
                          original filename x gf); auto.
    destruct g as [gp gc gw gb gs]. simpl in *. congruence. }
  assert (Hrdts : forall g, In g dts ->
            replayOf p2 (lit ".d.ts") false (cachedDts g) = Some g).
  { intros g Hg. rewrite Forall_forall in Hdts.
    destruct (Hdts g Hg)
      as (filename & data & original & full & gf & _ & Hx & Hor & Hgf & ->).
    destruct (@artifact_filename filename (lit ".d.ts") (or_intror eq_refl)
                Hx) as (x & Hfx).
    unfold cachedDts. simpl.
    unfold p2. rewrite (@artifact_replayOf p1 (proj r1) (lit ".d.ts") full
                          original filename x gf); auto. }
  destruct (@lazyCompile_replay (startRun p2) (ingest_attached _ _) Hcan)
    as (js' & dts' & Hlazy & _ & _ & _ & _ & Hexj & Hexd).
  change (proj (startRun p2)) with p2 in Hexj, Hexd.
  rewrite Hpj2, Hpj in Hexj. rewrite Hpd2, Hpd in Hexd. simpl in Hexj, Hexd.
  assert (Hj : js' = js).
  { apply map_Some_inj. rewrite Hexj.
    - rewrite map_map. apply map_ext_in. intros g Hg. now rewrite Hrjs.
    - intros o Ho. apply in_map_iff in Ho as (g & <- & Hg).
      now rewrite Hrjs. }
  assert (Hd : dts' = dts).
  { apply map_Some_inj. rewrite Hexd.
    - rewrite map_map. apply map_ext_in. intros g Hg. now rewrite Hrdts.
    - intros o Ho. apply in_map_iff in Ho as (g & <- & Hg).
      now rewrite Hrdts. }
  eexists. split; [exact Hlazy|]. simpl. subst js' dts'.
  split_ands; congruence.
Qed.

End ExactReplay.

Section SameStreams.
Context {E : Engine}.

(** X14.  After a build without diagnostics, in a project without [out], of
    input files of which any two with the same normalized path have the
    same content, and of which each one whose normalized path ends in
    [.ts] is written with a path that ends in [.ts] in some letter case,
    the replay for the same files pushes the very files of that build,
    in the same order: path, content, working directory, base and source
    map of every script and declaration are the same. *)
Theorem replay_reproduces_streams (p0 : Project) (files : list File.t)
    (adds : JsMap.t Slot) (r1 : Run) (res : EngineResult) :
  out (options p0) = None ->
  (forall f g, In f files -> In g files -> key f = key g ->
               File.contents f = File.contents g) ->
  (forall f, In f files -> (exists y, key f = y ++ lit ".ts") ->
             typescriptPath (File.path f)) ->
  engineResult (setAdditionalFiles adds (ingest p0 files)) = Some res ->
  errors res = [] ->
  compile (startRun (setAdditionalFiles adds (ingest p0 files)))
  = (Ret tt, r1) ->
  exists r2,
    lazyCompile (startRun (ingest (proj r1) files)) = (Ret true, r2) /\
    jsStream r2 = jsStream r1 /\
    declStream r2 = declStream r1 /\
    proj r2 = ingest (proj r1) files.
Proof.
  intros Hout Hnd Hts Hres Herr Hc.
  exact (@replay_exact E p0 files Hout Hnd Hts adds r1 res Hres Herr Hc).
Qed.

End SameStreams.

Section ExactReplayWitness.
#[local] Existing Instance Demo.engine.

Lemma replay_reproduces_streams_witness :
  exists r2,
    lazyCompile (startRun (ingest (proj Demo.firstBuild) Demo.twoFiles))
    = (Ret true, r2) /\
    jsStream r2 = jsStream Demo.firstBuild /\
    declStream r2 = declStream Demo.firstBuild /\
    proj r2 = ingest (proj Demo.firstBuild) Demo.twoFiles.
Proof.
  apply (@replay_reproduces_streams Demo.engine Demo.perFile Demo.twoFiles)
    with (adds := JsMap.empty Slot)
         (res := Demo.resultOf (setAdditionalFiles (JsMap.empty Slot)
                                  (ingest Demo.perFile Demo.twoFiles))).
  - reflexivity.
  - intros f g [<- | [<- | []]] [<- | [<- | []]] Hk;
      first [reflexivity | vm_compute in Hk; discriminate Hk].
  - intros f [<- | [<- | []]] _;
      [exists (lit "/src/A"), (lit ".ts") | exists (lit "/src/b"), (lit ".ts")];
      split; reflexivity.
  - vm_compute. reflexivity.
  - vm_compute. reflexivity.
  - vm_compute. reflexivity.
Defined.

End ExactReplayWitness.

(* ------------------------------------------------------------------ *)
(** *** What the resolver reads and what it leaves alone *)
(* ------------------------------------------------------------------ *)

Section ResolverContent.
Context {E : Engine}.
Variable disk : list (str * str).
Variable p : Project.

Lemma resolveRef_kept (s : Resolving) (r : str) :
  resolverKeeps disk p s -> resolverKeeps disk p (resolveRef s r).
Proof.
  intros [Hb Hj].
  destruct (resolveRef_cases s r) as [[-> _] | (_ & _ & ->)];
    [now split|].
  split; [exact Hb|]. intros k d. simpl. intros Hget.
  destruct (list_eq_dec ascii_dec (normalizePath r) k) as [<- | Hne].
  - rewrite get_set_same in Hget. discriminate.
  - rewrite get_set_other in Hget by exact Hne.
    destruct (Hj k d Hget) as (r' & data & Hr' & Hk & Hd & Hfile).
    exists r', data. split_ands; auto. apply in_or_app. now left.
Qed.

Lemma resolve_kept (file : FileData.t) (s : Resolving) :
  resolverKeeps disk p s -> resolverKeeps disk p (resolve s file).
Proof.
  unfold resolve. revert s.
  induction (references file) as [|r l IH]; intros s Hs; [exact Hs|].
  simpl. apply IH. now apply resolveRef_kept.
Qed.

Lemma resolveAll_kept :
  additionalFiles p = JsMap.empty Slot -> resolverKeeps disk p (resolveAll p).
Proof.
  intros Hempty.
  assert (H0 : resolverKeeps disk p {| project := p; tasks := 0; pending := [];
                       callbacks := O; reads := [] |}).
  { split; [reflexivity|]. intros k d. simpl. rewrite Hempty. discriminate. }
  unfold resolveAll. destruct (noExternalResolve p); [exact H0|].
  assert (H : forall (l : list (str * FileData.t)) s,
             resolverKeeps disk p s -> resolverKeeps disk p (fold_left (fun s kv => resolve s (snd kv)) l s)).
  { induction l as [|kv l IH]; intros s Hs; [exact Hs|].
    simpl. apply IH. now apply resolve_kept. }
  specialize (H (currentFiles p) _ H0).
  destruct (tasks _ =? 0)%Z; exact H.
Qed.

Lemma step_kept (n : nat) (s s' : Resolving) :
  resolving E disk p 0 n s -> step disk s s' -> resolverKeeps disk p s -> resolverKeeps disk p s'.
Proof.
  intros Hs Hstep [Hb Hj]. destruct Hstep as [s before rd after data Hp Hdel].
  assert (Hrd : In rd (pending s)).
  { rewrite Hp. apply in_or_app. right. now left. }
  destruct (pending_read Hs rd Hrd) as [Hnorm Hread].
  assert (Hmid : forall s1, resolverKeeps disk p s1 ->
            resolverKeeps disk p (let s2 := {| project := project s1; tasks := tasks s1 - 1;
                               pending := pending s1;
                               callbacks := callbacks s1;
                               reads := reads s1 |} in
                  if (tasks s2 =? 0)%Z then callBack s2 else s2)).
  { intros s1 H1. cbv zeta. simpl. destruct (tasks s1 - 1 =? 0)%Z; exact H1. }
  unfold onRead. destruct data as [d0|].
  - apply Hmid. apply resolve_kept. split; [exact Hb|].
    intros k d. simpl. intros Hget.
    destruct (list_eq_dec ascii_dec (normalizedRef rd) k) as [<- | Hne].
    + rewrite get_set_same in Hget. injection Hget as <-.
      exists (ref rd), d0. split_ands; auto.
      apply getFileData_settings;
        [apply (same_options Hs) | apply (same_version Hs)].
    + rewrite get_set_other in Hget by exact Hne. now apply Hj.
  - apply Hmid. now split.
Qed.

Lemma steps_kept (n : nat) (s : Resolving) :
  additionalFiles p = JsMap.empty Slot ->
  steps disk n (resolveAll p) s -> resolverKeeps disk p s.
Proof.
  intros Hempty H. remember (resolveAll p) as s0 eqn:Hs0.
  induction H as [s | n s1 s2 s3 H12 IH H23].
  - subst. now apply resolveAll_kept.
  - subst s1. destruct (@steps_resolving E disk p n s2 H12) as [Hs _].
    eapply step_kept; eauto.
Qed.

End ResolverContent.

Section ResolverReads.
Context {E : Engine}.

(** X15.  Whatever reads complete, in whatever order, the resolver changes
    nothing of the project but its additional files, and an additional
    file that is resolved holds a content the disk delivered for a path
    that was read, stored under the normalized path and parsed for the
    target and the version of this generation; it carries no input file.
    With external resolution off, [resolveAll] reads nothing. *)
Theorem resolver_reads_content (disk : list (str * str)) (p0 : Project)
    (files : list File.t) (n : nat) (s : Resolving) :
  steps disk n (resolveAll (ingest p0 files)) s ->
  besidesAdditional (project s) = besidesAdditional (ingest p0 files) /\
  (forall k d,
     JsMap.get k (additionalFiles (project s)) = Some (resolvedFile d) ->
     exists r data,
       In r (reads s) /\ k = normalizePath r /\ In (r, data) disk /\
       d = getFileData (ingest p0 files) r data /\
       FileData.filename d = k /\ FileData.content d = data /\
       FileData.file d = None) /\
  (noExternalResolve p0 = true ->
   reads s = [] /\ additionalFiles (project s) = JsMap.empty Slot).
Proof.
  intros H.
  destruct (ingest_frame p0 files) as (_ & Hempty & _ & _ & _ & Hno & _).
  destruct (@steps_kept E disk (ingest p0 files) n s Hempty H) as [Hb Hj].
  split_ands.
  - exact Hb.
  - intros k d Hget. destruct (Hj k d Hget) as (r & data & Hr & Hk & Hd & ->).
    exists r, data. split_ands; auto.
  - intros Hoff. rewrite <- Hno in Hoff.
    assert (Hstart : resolveAll (ingest p0 files)
                     = callBack {| project := ingest p0 files; tasks := 0;
                                   pending := []; callbacks := O;
                                   reads := [] |}).
    { unfold resolveAll. now rewrite Hoff. }
    rewrite Hstart in H. clear - H Hempty.
    remember (callBack _) as s0 eqn:Hs0.
    induction H as [s | n s1 s2 s3 H12 IH H23].
    + subst. simpl. now split.
    + exfalso. destruct H23 as [s2 before rd after data Hp Hdel].
      assert (Hnone : pending s2 = []).
      { clear - H12 Hs0. induction H12 as [s | n s1 s2 s3 H12 IH H23].
        - now subst.
        - specialize (IH Hs0). destruct H23 as [s2 before rd after data Hp _].
          rewrite IH in Hp. now destruct before. }
      rewrite Hnone in Hp. now destruct before.
Qed.

End ResolverReads.

Section ResolverReadsWitness.
#[local] Existing Instance Demo.engine.

Lemma resolver_reads_content_witness :
  besidesAdditional (project Demo.afterFirstRead)
  = besidesAdditional (ingest Demo.resolvingProject Demo.referring) /\
  (forall k d,
     JsMap.get k (additionalFiles (project Demo.afterFirstRead))
     = Some (resolvedFile d) ->
     exists r data,
       In r (reads Demo.afterFirstRead) /\ k = normalizePath r /\
       In (r, data) Demo.disk /\
       d = getFileData (ingest Demo.resolvingProject Demo.referring) r data /\
       FileData.filename d = k /\ FileData.content d = data /\
       FileData.file d = None) /\
  (noExternalResolve Demo.resolvingProject = true ->
   reads Demo.afterFirstRead = [] /\
   additionalFiles (project Demo.afterFirstRead) = JsMap.empty Slot).
Proof.
  apply (@resolver_reads_content Demo.engine Demo.disk Demo.resolvingProject
           Demo.referring 1 Demo.afterFirstRead).
  apply steps_more with (s2 := Demo.listening); [apply steps_none|].
  apply (@read_completes Demo.engine Demo.disk Demo.listening []
           Demo.firstRead [] (Some (lit "c.ts"))).
  - vm_compute. reflexivity.
  - left. reflexivity.
Defined.

End ResolverReadsWitness.

(* ------------------------------------------------------------------ *)
(** *** Writing to the stream *)
(* ------------------------------------------------------------------ *)

Section Writing.
Context {E : Engine}.

Lemma addFile_setFilterSettings (filters : option FilterSettings)
    (p : Project) (f : File.t) :
  addFile (setFilterSettings filters p) f
  = setFilterSettings filters (addFile p f).
Proof.
  unfold addFile.
  change (addFile_data (setFilterSettings filters p) f)
    with (addFile_data p f).
  now destruct (addFile_data p f).
Qed.

Lemma fold_addFile_setFilterSettings (filters : option FilterSettings)
    (files : list File.t) (p : Project) :
  fold_left addFile files (setFilterSettings filters p)
  = setFilterSettings filters (fold_left addFile files p).
Proof.
  revert p. induction files as [|f files IH]; intros p; [reflexivity|].
  simpl. now rewrite addFile_setFilterSettings, IH.
Qed.

Lemma writes_state (chunks : list Chunk) (s : CompileStream) :
  writes chunks s
  = {| building := withProject
                     (fun p => fold_left addFile (buffers chunks) p)
                     (building s);
       _hasSources := match buffers chunks with
                      | [] => _hasSources s
                      | _ :: _ => true
                      end |}.
Proof.
  revert s. induction chunks as [|chunk chunks IH]; intros s.
  - destruct s as [[] ?]. reflexivity.
  - unfold writes in *. simpl fold_left. rewrite IH.
    destruct chunk; try reflexivity.
    simpl. destruct s as [[] ?]. simpl.
    now destruct (buffers chunks).
Qed.

(** X16.  Of null files and buffer files written to it, the stream that
    the plugin returns takes the buffer files, in order, into the
    project, and [_write] reports no error; null files change nothing.
    So the project holds the generation of the buffer files, nothing is
    pushed before the stream is ended, and the stream has sources
    exactly when a buffer file was written.  An absent chunk changes
    nothing in [_write], and a stream file is refused with an error and
    changes nothing. *)
Theorem writes_ingest (p : Project) (filters : option FilterSettings)
    (chunks : list Chunk) (s : CompileStream) :
  (forall chunk, In chunk chunks ->
     chunk = nullFile \/ exists f, chunk = bufferFile f) ->
  building (writes chunks (main_compile p filters))
  = startRun (setFilterSettings filters (ingest p (buffers chunks))) /\
  (_hasSources (writes chunks (main_compile p filters)) = true <->
   buffers chunks <> []) /\
  (forall chunk s', In chunk chunks -> fst (_write chunk s') = None) /\
  _write noFile s = (None, s) /\
  _write nullFile s = (None, s) /\
  _write streamFile s = (Some (lit "Streaming not supported"), s).
Proof.
  intros Hfiles. rewrite writes_state. simpl. split_ands; try reflexivity.
  - unfold startRun, withProject. simpl. f_equal.
    apply fold_addFile_setFilterSettings.
  - destruct (buffers chunks); split; congruence.
  - intros chunk s' Hin.
    destruct (Hfiles chunk Hin) as [-> | (f & ->)]; reflexivity.
Qed.

(** X17.  A generation without a buffer file is over when the stream is
    ended: both streams are ended with nothing pushed, the engine is not
    run, nothing is reported and the cached output stays.  The files of
    the generation before are forgotten all the same, so the next
    generation is compiled, never replayed, whatever its files are. *)
Theorem empty_generation (p : Project) (filters filters' : option FilterSettings)
    (chunks : list Chunk) (last : Chunk) (next : list File.t) :
  buffers (chunks ++ [last]) = [] ->
  next <> [] ->
  exists r,
    snd (end_ last (writes chunks (main_compile p filters)))
    = Finished (Ret tt) r /\
    ended r = true /\ jsStream r = [] /\ declStream r = [] /\
    engineRuns r = 0 /\ reported r = [] /\
    previousOutputJS (proj r) = previousOutputJS p /\
    previousOutputDts (proj r) = previousOutputDts p /\
    currentFiles (proj r) = JsMap.empty FileData.t /\
    streamCompile true
      (building (writes (map bufferFile next) (main_compile (proj r) filters')))
    = Resolve
        (building (writes (map bufferFile next)
                          (main_compile (proj r) filters'))).
Proof.
  intros Hnone Hnext.
  unfold buffers in Hnone. rewrite flat_map_app in Hnone.
  apply app_eq_nil in Hnone as [Hchunks Hlast]. fold (buffers chunks) in Hchunks.
  assert (Hw : writes chunks (main_compile p filters)
               = main_compile p filters).
  { rewrite writes_state, Hchunks. reflexivity. }
  assert (Hend : end_ last (main_compile p filters)
                 = (fst (_write last (main_compile p filters)),
                    Finished (Ret tt)
                      (endStreams
                         (startRun (setFilterSettings filters (reset p)))))).
  { destruct last; try reflexivity. simpl in Hlast. discriminate. }
  rewrite Hw, Hend. eexists. split; [reflexivity|].
  split_ands; try reflexivity.
  set (q := proj (endStreams (startRun (setFilterSettings filters (reset p))))).
  assert (Hb : buffers (map bufferFile next) = next).
  { clear. induction next as [|f next IH]; [reflexivity|].
    simpl. f_equal. exact IH. }
  rewrite writes_state, Hb.
  change (building (main_compile q filters'))
    with (startRun (setFilterSettings filters' (reset q))).
  unfold withProject. simpl proj.
  rewrite fold_addFile_setFilterSettings. fold (ingest q next).
  assert (Hch : isFileChanged (ingest q next) = true).
  { destruct next as [|f next']; [congruence|].
    apply (@ingest_changed E q (f :: next') f); [now left|]. now left. }
  unfold streamCompile. simpl negb. cbv iota.
  rewrite lazyCompile_ineligible; [reflexivity|].
  simpl. unfold canReplay. simpl. now rewrite Hch.
Qed.

End Writing.

Section WritingWitness.
#[local] Existing Instance Demo.engine.

Lemma writes_ingest_witness :
  building (writes [nullFile; bufferFile (Demo.file "/src/A.ts" "let a");
                    bufferFile (Demo.file "/src/b.ts" "let b")]
                   (main_compile Demo.perFile None))
  = startRun
      (setFilterSettings None
         (ingest Demo.perFile
                 (buffers [nullFile;
                           bufferFile (Demo.file "/src/A.ts" "let a");
                           bufferFile (Demo.file "/src/b.ts" "let b")]))) /\
  (_hasSources
     (writes [nullFile; bufferFile (Demo.file "/src/A.ts" "let a");
              bufferFile (Demo.file "/src/b.ts" "let b")]
             (main_compile Demo.perFile None)) = true <->
   buffers [nullFile; bufferFile (Demo.file "/src/A.ts" "let a");
            bufferFile (Demo.file "/src/b.ts" "let b")] <> []) /\
  (forall chunk s',
     In chunk [nullFile; bufferFile (Demo.file "/src/A.ts" "let a");
               bufferFile (Demo.file "/src/b.ts" "let b")] ->
     fst (_write chunk s') = None) /\
  _write noFile (main_compile Demo.perFile None)
  = (None, main_compile Demo.perFile None) /\
  _write nullFile (main_compile Demo.perFile None)
  = (None, main_compile Demo.perFile None) /\
  _write streamFile (main_compile Demo.perFile None)
  = (Some (lit "Streaming not supported"), main_compile Demo.perFile None).
Proof.
  apply (@writes_ingest Demo.engine Demo.perFile None
           [nullFile; bufferFile (Demo.file "/src/A.ts" "let a");
            bufferFile (Demo.file "/src/b.ts" "let b")]
           (main_compile Demo.perFile None)).
  intros chunk [<- | [<- | [<- | []]]];
    [left; reflexivity | right; eexists; reflexivity
     | right; eexists; reflexivity].
Defined.

Lemma empty_generation_witness :
  exists r,
    snd (end_ noFile (writes [nullFile; streamFile]
                             (main_compile Demo.built None)))
    = Finished (Ret tt) r /\
    ended r = true /\ jsStream r = [] /\ declStream r = [] /\
    engineRuns r = 0 /\ reported r = [] /\
    previousOutputJS (proj r) = previousOutputJS Demo.built /\
    previousOutputDts (proj r) = previousOutputDts Demo.built /\
    currentFiles (proj r) = JsMap.empty FileData.t /\
    streamCompile true
      (building (writes (map bufferFile Demo.twoFiles)
                        (main_compile (proj r) None)))
    = Resolve
        (building (writes (map bufferFile Demo.twoFiles)
                          (main_compile (proj r) None))).
Proof.
  apply (@empty_generation Demo.engine Demo.built None None
           [nullFile; streamFile] noFile Demo.twoFiles).
  - reflexivity.
  - discriminate.
Defined.

End WritingWitness.

(* ------------------------------------------------------------------ *)
(** *** The options handed to the engine *)
(* ------------------------------------------------------------------ *)

Lemma get_assignIf_other {V} (k k' : str) (v : option V) (o : JsMap.t V) :
  k <> k' -> JsMap.get k' (assignIf k v o) = JsMap.get k' o.
Proof. intros H. destruct v; [now apply get_set_other | reflexivity]. Qed.

Lemma get_assignIf_same {V} (k : str) (v : option V) (o : JsMap.t V) :
  JsMap.get k (assignIf k v o)
  = match v with Some v => Some v | None => JsMap.get k o end.
Proof. destruct v; [apply get_set_same | reflexivity]. Qed.

Section Options.
Context {T : TypeScript}.

Lemma skipped_true (k : str) :
  skipped k = true <->
  In k [lit "outDir"; lit "noExternalResolve"; lit "declarationFiles";
        lit "sortOutput"; lit "typescript"; lit "target"; lit "module";
        lit "sourceRoot"].
Proof.
  unfold skipped. rewrite !orb_true_iff, !str_eqb_eq. simpl.
  intuition congruence.
Qed.

Lemma copySettings_cons (key : str) (v : Value)
    (rest tsSettings : JsMap.t Value) :
  copySettings ((key, v) :: rest) tsSettings
  = if eqb key (lit "__proto__") then None
    else if skipped key then copySettings rest tsSettings
    else copySettings rest (JsMap.set key v tsSettings).
Proof. reflexivity. Qed.

Lemma copySettings_total (settings ts0 : JsMap.t Value) :
  ~ In (lit "__proto__") (JsMap.keys settings) ->
  exists ts, copySettings settings ts0 = Some ts.
Proof.
  revert ts0. induction settings as [|[key v] rest IH]; intros ts0 H.
  - now exists ts0.
  - rewrite copySettings_cons. destruct (eqb key (lit "__proto__")) eqn:Hk.
    + apply str_eqb_eq in Hk. exfalso. apply H. now left.
    + destruct (skipped key); apply IH; intros Hin; apply H; now right.
Qed.

Lemma copySettings_get (settings : JsMap.t Value) :
  NoDup (JsMap.keys settings) ->
  forall ts0 ts k,
    copySettings settings ts0 = Some ts ->
    JsMap.get k ts
    = if skipped k then JsMap.get k ts0
      else match JsMap.get k settings with
           | Some v => Some v
           | None => JsMap.get k ts0
           end.
Proof.
  induction settings as [|[key v] rest IH]; intros Hnd ts0 ts k Hc.
  - injection Hc as <-. now destruct (skipped k).
  - simpl in Hnd. apply NoDup_cons_iff in Hnd as [Hkey Hnd].
    rewrite copySettings_cons in Hc.
    destruct (eqb key (lit "__proto__")); [discriminate|].
    cbn [JsMap.get]. destruct (eqb key k) eqn:Hk.
    + apply str_eqb_eq in Hk. subst k.
      assert (Hrest : JsMap.get key rest = None).
      { destruct (JsMap.get key rest) eqn:Hg; [|reflexivity].
        exfalso. apply Hkey. apply get_in_keys. congruence. }
      destruct (skipped key) eqn:Hs.
      * rewrite (IH Hnd _ _ _ Hc), Hs. reflexivity.
      * rewrite (IH Hnd _ _ _ Hc), Hs, Hrest. apply get_set_same.
    + apply str_eqb_neq in Hk. destruct (skipped key).
      * apply (IH Hnd _ _ _ Hc).
      * rewrite (IH Hnd _ _ _ Hc). destruct (skipped k); [|destruct (JsMap.get k rest)];
          try reflexivity; now apply get_set_other.
Qed.

Lemma getCompilerOptions_steps (cwd : str) (settings ts0 : JsMap.t Value) :
  copySettings settings (JsMap.empty Value) = Some ts0 ->
  exists ts1 ts2 ts3 ts4 ts5,
    ts1 = assignIf (lit "target")
            match prop settings (lit "target") with
            | VString s => Some (langMap (toLowerCase s))
            | VNumber n => Some (VNumber n)
            | _ => None
            end ts0 /\
    ts2 = assignIf (lit "module")
            match prop settings (lit "module") with
            | VString s => Some (moduleMap (toLowerCase s))
            | VNumber n => Some (VNumber n)
            | _ => None
            end ts1 /\
    ts3 = assignIf (lit "target")
            match prop ts2 (lit "target") with
            | VUndefined => Some (VNumber ES3)
            | _ => None
            end ts2 /\
    ts4 = assignIf (lit "module")
            match prop ts3 (lit "module") with
            | VUndefined => Some (VNumber ModuleNone)
            | _ => None
            end ts3 /\
    ts5 = assignIf (lit "declaration")
            match prop settings (lit "declarationFiles") with
            | VUndefined => None
            | v => Some v
            end
            (JsMap.set (lit "sourceRoot")
               match prop settings (lit "sourceRoot") with
               | VUndefined => VString cwd
               | v => v
               end ts4) /\
    getCompilerOptions cwd settings
    = Some (JsMap.set (lit "sourceMap") (VBoolean true) ts5).
Proof.
  intros Hc.
  exists (assignTarget settings ts0),
    (assignModule settings (assignTarget settings ts0)),
    (defaultTarget (assignModule settings (assignTarget settings ts0))),
    (defaultModule
       (defaultTarget (assignModule settings (assignTarget settings ts0)))),
    (assignDeclaration settings
       (assignSourceRoot cwd settings
          (defaultModule
             (defaultTarget
                (assignModule settings (assignTarget settings ts0)))))).
  split_ands.
  - unfold assignTarget. now destruct (prop settings (lit "target")).
  - unfold assignModule. now destruct (prop settings (lit "module")).
  - unfold defaultTarget. now destruct (prop _ (lit "target")).
  - unfold defaultModule. now destruct (prop _ (lit "module")).
  - unfold assignDeclaration, assignSourceRoot.
    now destruct (prop settings (lit "declarationFiles")),
      (prop settings (lit "sourceRoot")).
  - unfold getCompilerOptions. now rewrite Hc.
Qed.

Ltac other_key :=
  repeat first
    [ rewrite get_set_other by (intro; discriminate)
    | rewrite get_assignIf_other by (intro; discriminate) ].

(** X18.  Whatever the settings say (settings without an own property
    [__proto__]), the options handed to the engine ask for source maps,
    have a target and a module kind, and have a source root: the one of
    the settings, or else the working directory. *)
Theorem getCompilerOptions_forced (cwd : str) (settings : JsMap.t Value) :
  ~ In (lit "__proto__") (JsMap.keys settings) ->
  exists ts,
    getCompilerOptions cwd settings = Some ts /\
    JsMap.get (lit "sourceMap") ts = Some (VBoolean true) /\
    prop ts (lit "target") <> VUndefined /\
    prop ts (lit "module") <> VUndefined /\
    JsMap.get (lit "sourceRoot") ts
    = Some match prop settings (lit "sourceRoot") with
           | VUndefined => VString cwd
           | v => v
           end.
Proof.
  intros Hproto.
  destruct (copySettings_total settings (JsMap.empty Value) Hproto)
    as (ts0 & Hc).
  destruct (getCompilerOptions_steps cwd settings Hc)
    as (ts1 & ts2 & ts3 & ts4 & ts5 & H1 & H2 & H3 & H4 & H5 & ->).
  eexists. split; [reflexivity|].
  assert (Htarget : prop ts3 (lit "target") <> VUndefined).
  { unfold prop. rewrite H3, get_assignIf_same.
    fold (prop ts2 (lit "target")).
    destruct (prop ts2 (lit "target")) eqn:Hp; try discriminate;
      unfold prop in Hp; destruct (JsMap.get (lit "target") ts2);
      congruence. }
  assert (Hmodule : prop ts4 (lit "module") <> VUndefined).
  { unfold prop. rewrite H4, get_assignIf_same.
    fold (prop ts3 (lit "module")).
    destruct (prop ts3 (lit "module")) eqn:Hp; try discriminate;
      unfold prop in Hp; destruct (JsMap.get (lit "module") ts3);
      congruence. }
  split_ands.
  - apply get_set_same.
  - unfold prop in *. rewrite H5. other_key. rewrite H4. other_key.
    exact Htarget.
  - unfold prop in *. rewrite H5. other_key. exact Hmodule.
  - rewrite H5. other_key. apply get_set_same.
Qed.

(** X19.  The settings of the plugin itself never reach the engine; every
    other own setting does, unchanged, but for what [declarationFiles]
    and the forced source maps replace; [declarationFiles], when given,
    is the engine's [declaration], whatever [declaration] was. *)
Theorem getCompilerOptions_keys (cwd : str) (settings ts : JsMap.t Value)
    (k : str) :
  NoDup (JsMap.keys settings) ->
  getCompilerOptions cwd settings = Some ts ->
  (In k [lit "outDir"; lit "noExternalResolve"; lit "declarationFiles";
         lit "sortOutput"; lit "typescript"] ->
   JsMap.get k ts = None) /\
  (skipped k = false -> k <> lit "declaration" -> k <> lit "sourceMap" ->
   JsMap.get k ts = JsMap.get k settings) /\
  JsMap.get (lit "declaration") ts
  = match prop settings (lit "declarationFiles") with
    | VUndefined => JsMap.get (lit "declaration") settings
    | v => Some v
    end.
Proof.
  intros Hnd Hg.
  destruct (copySettings settings (JsMap.empty Value)) as [ts0|] eqn:Hc;
    [|unfold getCompilerOptions in Hg; rewrite Hc in Hg; discriminate].
  destruct (getCompilerOptions_steps cwd settings Hc)
    as (ts1 & ts2 & ts3 & ts4 & ts5 & H1 & H2 & H3 & H4 & H5 & Heq).
  assert (Hts : ts = JsMap.set (lit "sourceMap") (VBoolean true) ts5)
    by congruence.
  subst ts. clear Hg.
  pose proof (fun k => @copySettings_get settings Hnd (JsMap.empty Value)
                          ts0 k Hc) as Hcopy.
  assert (Hother : forall k',
            k' <> lit "target" -> k' <> lit "module" ->
            k' <> lit "sourceRoot" -> k' <> lit "declaration" ->
            k' <> lit "sourceMap" ->
            JsMap.get k' (JsMap.set (lit "sourceMap") (VBoolean true) ts5)
            = JsMap.get k' ts0).
  { intros k' Ht Hm Hr Hd Hs.
    rewrite get_set_other by congruence. rewrite H5.
    rewrite get_assignIf_other by congruence.
    rewrite get_set_other by congruence. rewrite H4.
    rewrite get_assignIf_other by congruence. rewrite H3.
    rewrite get_assignIf_other by congruence. rewrite H2.
    rewrite get_assignIf_other by congruence. rewrite H1.
    now rewrite get_assignIf_other by congruence. }
  split_ands.
  - intros Hk.
    assert (Hs : skipped k = true).
    { apply skipped_true. simpl in *. intuition. }
    rewrite Hother, Hcopy, Hs; [reflexivity| | | | |];
      intros ->; simpl in Hk; intuition discriminate.
  - intros Hs Hd Hm.
    rewrite Hother, Hcopy, Hs; try assumption.
    + now destruct (JsMap.get k settings).
    + intros ->. discriminate Hs.
    + intros ->. discriminate Hs.
    + intros ->. discriminate Hs.
  - rewrite get_set_other by (intro; discriminate).
    rewrite H5, get_assignIf_same.
    assert (Hdecl : JsMap.get (lit "declaration")
                      (JsMap.set (lit "sourceRoot")
                         match prop settings (lit "sourceRoot") with
                         | VUndefined => VString cwd
                         | v => v
                         end ts4)
                    = JsMap.get (lit "declaration") settings).
    { rewrite get_set_other by (intro; discriminate).
      rewrite H4. other_key. rewrite H3. other_key. rewrite H2. other_key.
      rewrite H1. other_key. rewrite Hcopy.
      change (skipped (lit "declaration")) with false.
      now destruct (JsMap.get (lit "declaration") settings). }
    rewrite Hdecl. now destruct (prop settings (lit "declarationFiles")).
Qed.

(** X20.  The target is looked up by its lower-cased name, so the case of its
    letters does not matter; a number is taken as it is; and without a
    target, or with a name that [langMap] does not know, the target is
    ES3. *)
Theorem getCompilerOptions_target (cwd : str) (settings ts : JsMap.t Value) :
  getCompilerOptions cwd settings = Some ts ->
  (forall s, prop settings (lit "target") = VString s ->
     (toLowerCase s = lit "es3" ->
      JsMap.get (lit "target") ts = Some (VNumber ES3)) /\
     (toLowerCase s = lit "es5" ->
      JsMap.get (lit "target") ts = Some (VNumber ES5)) /\
     (toLowerCase s = lit "es6" ->
      JsMap.get (lit "target") ts = Some (VNumber ES6)) /\
     (langMap (toLowerCase s) = VUndefined ->
      JsMap.get (lit "target") ts = Some (VNumber ES3))) /\
  (forall n, prop settings (lit "target") = VNumber n ->
     JsMap.get (lit "target") ts = Some (VNumber n)) /\
  (prop settings (lit "target") = VUndefined ->
   JsMap.get (lit "target") ts = Some (VNumber ES3)).
Proof.
  intros Hg.
  destruct (copySettings settings (JsMap.empty Value)) as [ts0|] eqn:Hc;
    [|unfold getCompilerOptions in Hg; rewrite Hc in Hg; discriminate].
  destruct (getCompilerOptions_steps cwd settings Hc)
    as (ts1 & ts2 & ts3 & ts4 & ts5 & H1 & H2 & H3 & H4 & H5 & Heq).
  assert (Hts : ts = JsMap.set (lit "sourceMap") (VBoolean true) ts5)
    by congruence.
  subst ts. clear Hg.
  assert (Hfinal : JsMap.get (lit "target")
                     (JsMap.set (lit "sourceMap") (VBoolean true) ts5)
                   = JsMap.get (lit "target") ts3).
  { other_key. rewrite H5. other_key. rewrite H4. now other_key. }
  assert (Hts0 : forall settings' ts0', 
            copySettings settings' ts0' = Some ts0 ->
            JsMap.get (lit "target") ts0' = None ->
            JsMap.get (lit "target") ts0 = None).
  { clear. induction settings' as [|[key v] rest IH]; intros ts0' Hc Hn.
    - now injection Hc as <-.
    - rewrite copySettings_cons in Hc.
      destruct (eqb key (lit "__proto__")); [discriminate|].
      destruct (skipped key) eqn:Hs; [now apply (IH _ Hc)|].
      apply (IH _ Hc). rewrite get_set_other; [exact Hn|].
      intros ->. discriminate Hs. }
  specialize (Hts0 _ _ Hc eq_refl).
  assert (Hset : forall v,
            match prop settings (lit "target") with
            | VString s => Some (langMap (toLowerCase s))
            | VNumber n => Some (VNumber n)
            | _ => None
            end = v ->
            JsMap.get (lit "target") ts3
            = Some match v with
                   | Some VUndefined | None => VNumber ES3
                   | Some v => v
                   end).
  { intros v Hv. rewrite H3, get_assignIf_same.
    assert (Hp : JsMap.get (lit "target") ts2 = v).
    { rewrite H2. other_key. rewrite H1, get_assignIf_same, Hv, Hts0.
      now destruct v. }
    unfold prop. rewrite Hp. destruct v as [[]|]; reflexivity. }
  split_ands.
  - intros s Hs. rewrite Hfinal. rewrite Hs in Hset.
    specialize (Hset _ eq_refl). rewrite Hset.
    split_ands; intros Hl; rewrite Hl; reflexivity.
  - intros n Hn. rewrite Hfinal. rewrite Hn in Hset.
    now rewrite (Hset _ eq_refl).
  - intros Hu. rewrite Hfinal. rewrite Hu in Hset.
    now rewrite (Hset _ eq_refl).
Qed.

End Options.

Section OptionsWitness.

#[local] Existing Instance numbered.

Lemma getCompilerOptions_forced_witness :
  exists ts,
    getCompilerOptions (lit "/work")
      [(lit "target", VString (lit "ES5")); (lit "sourceMap", VBoolean false)]
    = Some ts /\
    JsMap.get (lit "sourceMap") ts = Some (VBoolean true) /\
    prop ts (lit "target") <> VUndefined /\
    prop ts (lit "module") <> VUndefined /\
    JsMap.get (lit "sourceRoot") ts
    = Some match prop [(lit "target", VString (lit "ES5"));
                       (lit "sourceMap", VBoolean false)]
                      (lit "sourceRoot") with
           | VUndefined => VString (lit "/work")
           | v => v
           end.
Proof.
  apply (@getCompilerOptions_forced numbered (lit "/work")
           [(lit "target", VString (lit "ES5"));
            (lit "sourceMap", VBoolean false)]).
  intros [H | [H | []]]; discriminate H.
Defined.

Lemma getCompilerOptions_keys_witness :
  (In (lit "noLib")
      [lit "outDir"; lit "noExternalResolve"; lit "declarationFiles";
       lit "sortOutput"; lit "typescript"] ->
   JsMap.get (lit "noLib") someOptions = None) /\
  (skipped (lit "noLib") = false -> lit "noLib" <> lit "declaration" ->
   lit "noLib" <> lit "sourceMap" ->
   JsMap.get (lit "noLib") someOptions
   = JsMap.get (lit "noLib") someSettings) /\
  JsMap.get (lit "declaration") someOptions
  = match prop someSettings (lit "declarationFiles") with
    | VUndefined => JsMap.get (lit "declaration") someSettings
    | v => Some v
    end.
Proof.
  apply (@getCompilerOptions_keys numbered (lit "/work") someSettings
           someOptions (lit "noLib")).
  - vm_compute. repeat constructor; simpl; intuition discriminate.
  - vm_compute. reflexivity.
Defined.

Lemma getCompilerOptions_target_witness :
  (forall s, prop someSettings (lit "target") = VString s ->
     (toLowerCase s = lit "es3" ->
      JsMap.get (lit "target") someOptions = Some (VNumber ES3)) /\
     (toLowerCase s = lit "es5" ->
      JsMap.get (lit "target") someOptions = Some (VNumber ES5)) /\
     (toLowerCase s = lit "es6" ->
      JsMap.get (lit "target") someOptions = Some (VNumber ES6)) /\
     (langMap (toLowerCase s) = VUndefined ->
      JsMap.get (lit "target") someOptions = Some (VNumber ES3))) /\
  (forall n, prop someSettings (lit "target") = VNumber n ->
     JsMap.get (lit "target") someOptions = Some (VNumber n)) /\
  (prop someSettings (lit "target") = VUndefined ->
   JsMap.get (lit "target") someOptions = Some (VNumber ES3)).
Proof.
  apply (@getCompilerOptions_target numbered (lit "/work") someSettings
           someOptions).
  vm_compute. reflexivity.
Defined.

End OptionsWitness.
